(** * c-ds-lib: list, stack, queue and binary search tree over a node heap

    Shallow embedding of [src/c-ds-lib] (list.c, stack.c, queue.c, tree.c,
    ds.h).  Nodes live in a heap, a finite map from addresses to node
    records; a pointer is an [option addr] with [None] for [NULL].  A
    container handle is the contents of the container struct ([None] for a
    [NULL] handle); every operation takes the heap and returns the new
    heap, so that aliasing between parent and child links is the one of
    the C code.  The result of each [ds_alloc] call is an argument of the
    operation that performs it: [None] when [malloc] fails, [Some a] for
    the fresh block it returns.  A result of [None] for a whole operation
    stands for undefined behaviour of the C code (a dangling link or a
    cyclic structure); the theorems show that it does not occur on the
    live containers they are about. *)

From stdpp Require Import gmap list sorting.
From Stdlib Require Import ZArith Lia.

Local Open Scope Z_scope.

(** ** ds.h *)

(** [enum ds_error], in declaration order. *)
Inductive ds_error_t : Type :=
  | DS_OK
  | DS_ERR_OOM
  | DS_ERR_INVALID
  | DS_ERR_NOTFOUND
  | DS_ERR_NULLARG.

Global Instance ds_error_eq_dec : EqDecision ds_error_t.
Proof. solve_decision. Defined.

(** Addresses of heap blocks. *)
Abbreviation addr := positive.

(** [size_t] counters: 64-bit unsigned, [++] and [--] wrap around. *)
Definition SIZE_WIDTH : Z := 64.
Definition size_incr (n : Z) : Z := (n + 1) mod 2 ^ SIZE_WIDTH.
Definition size_decr (n : Z) : Z := (n - 1) mod 2 ^ SIZE_WIDTH.

(** The contract of a three-way comparator that defines a total order (up
    to the keys it declares equal): the sign flips with the arguments,
    "less" is transitive, and equal keys compare alike to any third. *)
Record total_cmp {V : Type} (cmp : V → V → Z) : Prop := {
  cmp_antisym : ∀ a b, Z.sgn (cmp a b) = - Z.sgn (cmp b a);
  cmp_trans : ∀ a b c, cmp a b < 0 → cmp b c < 0 → cmp a c < 0;
  cmp_eq_compat : ∀ a b c, cmp a b = 0 → Z.sgn (cmp a c) = Z.sgn (cmp b c);
}.

(** ** tree.c *)
Module DsTree.
Section tree.
Context {V : Type}.

(** [struct ds_tree_node].  [n_data] is the [void *data] field; it only
    ever receives a pointer that passed the [data == NULL] check of
    [ds_tree_insert], so it is typed by the non-null payload references. *)
Record ds_tree_node : Type := mk_node {
  n_data : V;
  n_left : option addr;
  n_right : option addr;
}.

(** [struct ds_tree]. *)
Record ds_tree : Type := mk_tree {
  t_root : option addr;
  t_size : Z;
}.

Local Abbreviation heap := (gmap addr ds_tree_node).

Definition set_data (n : ds_tree_node) (d : V) : ds_tree_node :=
  mk_node d (n_left n) (n_right n).
Definition set_left (n : ds_tree_node) (p : option addr) : ds_tree_node :=
  mk_node (n_data n) p (n_right n).
Definition set_right (n : ds_tree_node) (p : option addr) : ds_tree_node :=
  mk_node (n_data n) (n_left n) p.

(** [count_nodes]: recursion on the heap, bounded by [fuel]; the sum is a
    [size_t]. *)
Fixpoint count_nodes (fuel : nat) (h : heap) (node : option addr) : option Z :=
  match fuel with
  | O => None
  | S fuel =>
    match node with
    | None => Some 0
    | Some a =>
      n ← h !! a;
      cl ← count_nodes fuel h (n_left n);
      cr ← count_nodes fuel h (n_right n);
      Some ((1 + cl + cr) mod 2 ^ SIZE_WIDTH)
    end
  end.

(** [find_min]: the leftmost node of a subtree. *)
Fixpoint find_min (fuel : nat) (h : heap) (node : option addr) : option (option addr) :=
  match fuel with
  | O => None
  | S fuel =>
    match node with
    | None => Some None
    | Some a =>
      n ← h !! a;
      match n_left n with
      | None => Some (Some a)
      | Some l => find_min fuel h (Some l)
      end
    end
  end.

(** [free_subtree]: post-order release.  The destructor [free_data] acts on
    the caller's world [W]; [None] is a [NULL] callback.  The other half of
    the test, [node->data != NULL], holds of every stored payload (see
    [n_data]). *)
Fixpoint free_subtree {W : Type} (fuel : nat) (node : option addr)
    (free_data : option (V → W → W)) (h : heap) (w : W) : option (heap * W) :=
  match fuel with
  | O => None
  | S fuel =>
    match node with
    | None => Some (h, w)
    | Some a =>
      n ← h !! a;
      '(h, w) ← free_subtree fuel (n_left n) free_data h w;
      '(h, w) ← free_subtree fuel (n_right n) free_data h w;
      let w := match free_data with Some f => f (n_data n) w | None => w end in
      Some (delete a h, w)
    end
  end.

(** [ds_tree_create]; [alloc_ok] tells whether [ds_alloc] succeeded. *)
Definition ds_tree_create (alloc_ok : bool) : option ds_tree :=
  if alloc_ok then Some (mk_tree None 0) else None.

(** [ds_tree_free]: status, heap and caller world afterwards (the handle
    itself is released). *)
Definition ds_tree_free {W : Type} (T : option ds_tree)
    (free_data : option (V → W → W)) (h : heap) (w : W)
    : option (ds_error_t * heap * W) :=
  match T with
  | None => Some (DS_ERR_NULLARG, h, w)
  | Some T =>
    '(h, w) ← free_subtree (S (size h)) (t_root T) free_data h w;
    Some (DS_OK, h, w)
  end.

(** How the descent loop of [ds_tree_insert] is left: by the [return] on an
    equal key, or at a [NULL] link with [parent] the last node visited. *)
Inductive insert_exit : Type :=
  | InsertDup
  | InsertAt (parent : option addr).

(** The [while (current != NULL)] loop of [ds_tree_insert]. *)
Fixpoint insert_loop (fuel : nat) (cmp : V → V → Z) (data : V) (h : heap)
    (current parent : option addr) : option insert_exit :=
  match fuel with
  | O => None
  | S fuel =>
    match current with
    | None => Some (InsertAt parent)
    | Some c =>
      n ← h !! c;
      let parent := Some c in
      let comparison := cmp data (n_data n) in
      if comparison <? 0 then insert_loop fuel cmp data h (n_left n) parent
      else if comparison >? 0 then insert_loop fuel cmp data h (n_right n) parent
      else Some InsertDup
    end
  end.

(** [ds_tree_insert]; [new_node] is the result of its [ds_alloc] call. *)
Definition ds_tree_insert (new_node : option addr) (T : option ds_tree)
    (data : option V) (cmp : option (V → V → Z)) (h : heap)
    : option (ds_error_t * option ds_tree * heap) :=
  match T, data, cmp with
  | Some T, Some data, Some cmp =>
    match new_node with
    | None => Some (DS_ERR_OOM, Some T, h)
    | Some new_node =>
      let h := <[new_node := mk_node data None None]> h in
      match t_root T with
      | None =>
        Some (DS_OK, Some (mk_tree (Some new_node) (size_incr (t_size T))), h)
      | Some r =>
        ex ← insert_loop (S (size h)) cmp data h (Some r) None;
        match ex with
        | InsertDup => Some (DS_OK, Some T, delete new_node h)
        | InsertAt parent =>
          p ← parent;
          pn ← h !! p;
          let h :=
            if cmp data (n_data pn) <? 0
            then <[p := set_left pn (Some new_node)]> h
            else <[p := set_right pn (Some new_node)]> h in
          Some (DS_OK, Some (mk_tree (t_root T) (size_incr (t_size T))), h)
        end
      end
    end
  | _, _, _ => Some (DS_ERR_NULLARG, T, h)
  end.

(** The search loop of [ds_tree_find]. *)
Fixpoint find_loop (fuel : nat) (cmp : V → V → Z) (target : V) (h : heap)
    (current : option addr) : option (option V) :=
  match fuel with
  | O => None
  | S fuel =>
    match current with
    | None => Some None
    | Some c =>
      n ← h !! c;
      let comparison := cmp target (n_data n) in
      if comparison <? 0 then find_loop fuel cmp target h (n_left n)
      else if comparison >? 0 then find_loop fuel cmp target h (n_right n)
      else Some (Some (n_data n))
    end
  end.

(** [ds_tree_find]: the payload found, [None] for [NULL]. *)
Definition ds_tree_find (T : option ds_tree) (target : option V)
    (cmp : option (V → V → Z)) (h : heap) : option (option V) :=
  match T, target, cmp with
  | Some T, Some target, Some cmp =>
    find_loop (S (size h)) cmp target h (t_root T)
  | _, _, _ => Some None
  end.

(** The search loop of [ds_tree_remove]: [current] and [parent] when it is
    left, by [break] or at [NULL]. *)
Fixpoint remove_loop (fuel : nat) (cmp : V → V → Z) (target : V) (h : heap)
    (current parent : option addr) : option (option addr * option addr) :=
  match fuel with
  | O => None
  | S fuel =>
    match current with
    | None => Some (None, parent)
    | Some c =>
      n ← h !! c;
      let comparison := cmp target (n_data n) in
      if comparison <? 0 then remove_loop fuel cmp target h (n_left n) (Some c)
      else if comparison >? 0 then remove_loop fuel cmp target h (n_right n) (Some c)
      else Some (Some c, parent)
    end
  end.

(** The three-way store [T->root = v], [parent->left = v] or
    [parent->right = v], chosen as in cases 1 and 2 of [ds_tree_remove]. *)
Definition replace_child (T : ds_tree) (h : heap) (parent : option addr)
    (current : addr) (v : option addr) : option (ds_tree * heap) :=
  match parent with
  | None => Some (mk_tree v (t_size T), h)
  | Some p =>
    pn ← h !! p;
    if decide (n_left pn = Some current)
    then Some (T, <[p := set_left pn v]> h)
    else Some (T, <[p := set_right pn v]> h)
  end.

(** The [while (successor->left != NULL)] loop: the successor and its
    parent. *)
Fixpoint successor_loop (fuel : nat) (h : heap) (successor successor_parent : addr)
    : option (addr * addr) :=
  match fuel with
  | O => None
  | S fuel =>
    sn ← h !! successor;
    match n_left sn with
    | None => Some (successor, successor_parent)
    | Some l => successor_loop fuel h l successor
    end
  end.

(** The code of [ds_tree_remove] after the search loop, for a found node
    [current]: the three cases, without the final [T->size--]. *)
Definition remove_node (fuel : nat) (T : ds_tree) (h : heap)
    (parent : option addr) (current : addr) : option (ds_tree * heap) :=
  cn ← h !! current;
  match n_left cn, n_right cn with
  | None, None =>
    '(T, h) ← replace_child T h parent current None;
    Some (T, delete current h)
  | Some child, None | None, Some child =>
    '(T, h) ← replace_child T h parent current (Some child);
    Some (T, delete current h)
  | Some _, Some r =>
    '(successor, successor_parent) ← successor_loop fuel h r current;
    sn ← h !! successor;
    let h := <[current := set_data cn (n_data sn)]> h in
    spn ← h !! successor_parent;
    let h :=
      if decide (n_left spn = Some successor)
      then <[successor_parent := set_left spn (n_right sn)]> h
      else <[successor_parent := set_right spn (n_right sn)]> h in
    Some (T, delete successor h)
  end.

(** [ds_tree_remove]. *)
Definition ds_tree_remove (T : option ds_tree) (target : option V)
    (cmp : option (V → V → Z)) (h : heap)
    : option (ds_error_t * option ds_tree * heap) :=
  match T, target, cmp with
  | Some T, Some target, Some cmp =>
    '(current, parent) ← remove_loop (S (size h)) cmp target h (t_root T) None;
    match current with
    | None => Some (DS_ERR_NOTFOUND, Some T, h)
    | Some c =>
      '(T, h) ← remove_node (S (size h)) T h parent c;
      Some (DS_OK, Some (mk_tree (t_root T) (size_decr (t_size T))), h)
    end
  | _, _, _ => Some (DS_ERR_NULLARG, T, h)
  end.

(** [ds_tree_size]. *)
Definition ds_tree_size (T : option ds_tree) : Z :=
  match T with
  | None => 0
  | Some T => t_size T
  end.

(** [ds_tree_is_empty]. *)
Definition ds_tree_is_empty (T : option ds_tree) : Z :=
  match T with
  | None => 1
  | Some T => match t_root T with None => 1 | Some _ => 0 end
  end.

(** In-order (left, self, right) enumeration of the payloads below a link. *)
Fixpoint inorder (fuel : nat) (h : heap) (node : option addr) : option (list V) :=
  match fuel with
  | O => None
  | S fuel =>
    match node with
    | None => Some []
    | Some a =>
      n ← h !! a;
      ls ← inorder fuel h (n_left n);
      rs ← inorder fuel h (n_right n);
      Some (ls ++ n_data n :: rs)
    end
  end.

End tree.
Arguments ds_tree_node : clear implicits.
Arguments ds_tree : clear implicits.
Abbreviation heap V := (gmap addr (ds_tree_node V)).
End DsTree.

(** ** list.c *)
Module DsList.
Section list.
Context {V : Type}.

(** [struct ds_list_node]; [ln_data] is typed as in the tree. *)
Record ds_list_node : Type := mk_lnode {
  ln_data : V;
  ln_next : option addr;
}.

(** [struct ds_list]. *)
Record ds_list : Type := mk_list {
  l_head : option addr;
  l_tail : option addr;
  l_size : Z;
}.

Local Abbreviation lheap := (gmap addr ds_list_node).

Definition set_next (n : ds_list_node) (p : option addr) : ds_list_node :=
  mk_lnode (ln_data n) p.

(** [ds_list_create]. *)
Definition ds_list_create (alloc_ok : bool) : option ds_list :=
  if alloc_ok then Some (mk_list None None 0) else None.

(** The [while (current != NULL)] loop of [ds_list_free]; [None] is a
    [NULL] destructor, and [current->data != NULL] holds of every stored
    payload. *)
Fixpoint list_free_loop {W : Type} (fuel : nat) (current : option addr)
    (free_data : option (V → W → W)) (h : lheap) (w : W) : option (lheap * W) :=
  match fuel with
  | O => None
  | S fuel =>
    match current with
    | None => Some (h, w)
    | Some c =>
      n ← h !! c;
      let next := ln_next n in
      let w := match free_data with Some f => f (ln_data n) w | None => w end in
      list_free_loop fuel next free_data (delete c h) w
    end
  end.

(** [ds_list_free]. *)
Definition ds_list_free {W : Type} (L : option ds_list)
    (free_data : option (V → W → W)) (h : lheap) (w : W)
    : option (ds_error_t * lheap * W) :=
  match L with
  | None => Some (DS_ERR_NULLARG, h, w)
  | Some L =>
    '(h, w) ← list_free_loop (S (size h)) (l_head L) free_data h w;
    Some (DS_OK, h, w)
  end.

(** [ds_list_push_front]; it dereferences no node. *)
Definition ds_list_push_front (new_node : option addr) (L : option ds_list)
    (data : option V) (h : lheap) : ds_error_t * option ds_list * lheap :=
  match L, data with
  | Some L, Some data =>
    match new_node with
    | None => (DS_ERR_OOM, Some L, h)
    | Some new_node =>
      let h := <[new_node := mk_lnode data (l_head L)]> h in
      let tail := match l_tail L with None => Some new_node | Some t => Some t end in
      (DS_OK, Some (mk_list (Some new_node) tail (size_incr (l_size L))), h)
    end
  | _, _ => (DS_ERR_NULLARG, L, h)
  end.

(** [ds_list_push_back]. *)
Definition ds_list_push_back (new_node : option addr) (L : option ds_list)
    (data : option V) (h : lheap) : option (ds_error_t * option ds_list * lheap) :=
  match L, data with
  | Some L, Some data =>
    match new_node with
    | None => Some (DS_ERR_OOM, Some L, h)
    | Some new_node =>
      let h := <[new_node := mk_lnode data None]> h in
      match l_tail L with
      | None =>
        Some (DS_OK,
              Some (mk_list (Some new_node) (Some new_node) (size_incr (l_size L))), h)
      | Some t =>
        tn ← h !! t;
        let h := <[t := set_next tn (Some new_node)]> h in
        Some (DS_OK,
              Some (mk_list (l_head L) (Some new_node) (size_incr (l_size L))), h)
      end
    end
  | _, _ => Some (DS_ERR_NULLARG, L, h)
  end.

(** [ds_list_pop_front]: the payload returned ([None] for [NULL]). *)
Definition ds_list_pop_front (L : option ds_list) (h : lheap)
    : option (option V * option ds_list * lheap) :=
  match L with
  | None => Some (None, None, h)
  | Some L =>
    match l_head L with
    | None => Some (None, Some L, h)
    | Some old_head =>
      n ← h !! old_head;
      let data := ln_data n in
      let head := ln_next n in
      let tail := match head with None => None | Some _ => l_tail L end in
      Some (Some data, Some (mk_list head tail (size_decr (l_size L))),
            delete old_head h)
    end
  end.

(** The scan of [ds_list_remove], with the unlinking of the first match. *)
Fixpoint list_remove_loop (fuel : nat) (cmp : V → V → Z) (data : V)
    (L : ds_list) (h : lheap) (current previous : option addr)
    : option (ds_error_t * ds_list * lheap) :=
  match fuel with
  | O => None
  | S fuel =>
    match current with
    | None => Some (DS_ERR_NOTFOUND, L, h)
    | Some c =>
      n ← h !! c;
      if cmp (ln_data n) data =? 0 then
        match previous with
        | None =>
          let head := ln_next n in
          let tail := match head with None => None | Some _ => l_tail L end in
          Some (DS_OK, mk_list head tail (size_decr (l_size L)), delete c h)
        | Some p =>
          pn ← h !! p;
          let h := <[p := set_next pn (ln_next n)]> h in
          let tail := if decide (Some c = l_tail L) then Some p else l_tail L in
          Some (DS_OK, mk_list (l_head L) tail (size_decr (l_size L)), delete c h)
        end
      else list_remove_loop fuel cmp data L h (ln_next n) (Some c)
    end
  end.

(** [ds_list_remove]. *)
Definition ds_list_remove (L : option ds_list) (data : option V)
    (cmp : option (V → V → Z)) (h : lheap)
    : option (ds_error_t * option ds_list * lheap) :=
  match L, data, cmp with
  | Some L, Some data, Some cmp =>
    '(e, L, h) ← list_remove_loop (S (size h)) cmp data L h (l_head L) None;
    Some (e, Some L, h)
  | _, _, _ => Some (DS_ERR_NULLARG, L, h)
  end.

(** The scan of [ds_list_find]. *)
Fixpoint list_find_loop (fuel : nat) (cmp : V → V → Z) (target : V)
    (h : lheap) (current : option addr) : option (option V) :=
  match fuel with
  | O => None
  | S fuel =>
    match current with
    | None => Some None
    | Some c =>
      n ← h !! c;
      if cmp (ln_data n) target =? 0 then Some (Some (ln_data n))
      else list_find_loop fuel cmp target h (ln_next n)
    end
  end.

(** [ds_list_find]. *)
Definition ds_list_find (L : option ds_list) (target : option V)
    (cmp : option (V → V → Z)) (h : lheap) : option (option V) :=
  match L, target, cmp with
  | Some L, Some target, Some cmp =>
    list_find_loop (S (size h)) cmp target h (l_head L)
  | _, _, _ => Some None
  end.

(** [ds_list_size]. *)
Definition ds_list_size (L : option ds_list) : Z :=
  match L with
  | None => 0
  | Some L => l_size L
  end.

End list.
Arguments ds_list_node : clear implicits.
Abbreviation lheap V := (gmap addr (ds_list_node V)).
End DsList.

(** ** stack.c *)
Module DsStack.
Section stack.
Context {V : Type}.

(** [struct ds_stack_node]. *)
Record ds_stack_node : Type := mk_snode {
  sn_data : V;
  sn_next : option addr;
}.

(** [struct ds_stack]. *)
Record ds_stack : Type := mk_stack {
  s_top : option addr;
  s_size : Z;
}.

Local Abbreviation sheap := (gmap addr ds_stack_node).

(** [ds_stack_create]. *)
Definition ds_stack_create (alloc_ok : bool) : option ds_stack :=
  if alloc_ok then Some (mk_stack None 0) else None.

(** The loop of [ds_stack_free]. *)
Fixpoint stack_free_loop {W : Type} (fuel : nat) (current : option addr)
    (free_data : option (V → W → W)) (h : sheap) (w : W) : option (sheap * W) :=
  match fuel with
  | O => None
  | S fuel =>
    match current with
    | None => Some (h, w)
    | Some c =>
      n ← h !! c;
      let next := sn_next n in
      let w := match free_data with Some f => f (sn_data n) w | None => w end in
      stack_free_loop fuel next free_data (delete c h) w
    end
  end.

(** [ds_stack_free]. *)
Definition ds_stack_free {W : Type} (S0 : option ds_stack)
    (free_data : option (V → W → W)) (h : sheap) (w : W)
    : option (ds_error_t * sheap * W) :=
  match S0 with
  | None => Some (DS_ERR_NULLARG, h, w)
  | Some S0 =>
    '(h, w) ← stack_free_loop (S (size h)) (s_top S0) free_data h w;
    Some (DS_OK, h, w)
  end.

(** [ds_stack_push]. *)
Definition ds_stack_push (new_node : option addr) (S0 : option ds_stack)
    (data : option V) (h : sheap) : ds_error_t * option ds_stack * sheap :=
  match S0, data with
  | Some S0, Some data =>
    match new_node with
    | None => (DS_ERR_OOM, Some S0, h)
    | Some new_node =>
      let h := <[new_node := mk_snode data (s_top S0)]> h in
      (DS_OK, Some (mk_stack (Some new_node) (size_incr (s_size S0))), h)
    end
  | _, _ => (DS_ERR_NULLARG, S0, h)
  end.

(** [ds_stack_pop]. *)
Definition ds_stack_pop (S0 : option ds_stack) (h : sheap)
    : option (option V * option ds_stack * sheap) :=
  match S0 with
  | None => Some (None, None, h)
  | Some S0 =>
    match s_top S0 with
    | None => Some (None, Some S0, h)
    | Some old_top =>
      n ← h !! old_top;
      Some (Some (sn_data n),
            Some (mk_stack (sn_next n) (size_decr (s_size S0))),
            delete old_top h)
    end
  end.

(** [ds_stack_peek]. *)
Definition ds_stack_peek (S0 : option ds_stack) (h : sheap) : option (option V) :=
  match S0 with
  | None => Some None
  | Some S0 =>
    match s_top S0 with
    | None => Some None
    | Some t => n ← h !! t; Some (Some (sn_data n))
    end
  end.

(** [ds_stack_is_empty]. *)
Definition ds_stack_is_empty (S0 : option ds_stack) : Z :=
  match S0 with
  | None => 1
  | Some S0 => match s_top S0 with None => 1 | Some _ => 0 end
  end.

(** [ds_stack_size]. *)
Definition ds_stack_size (S0 : option ds_stack) : Z :=
  match S0 with
  | None => 0
  | Some S0 => s_size S0
  end.

End stack.
Arguments ds_stack_node : clear implicits.
Abbreviation sheap V := (gmap addr (ds_stack_node V)).
End DsStack.

(** ** queue.c *)
Module DsQueue.
Section queue.
Context {V : Type}.

(** [struct ds_queue_node]. *)
Record ds_queue_node : Type := mk_qnode {
  qn_data : V;
  qn_next : option addr;
}.

(** [struct ds_queue]. *)
Record ds_queue : Type := mk_queue {
  q_front : option addr;
  q_rear : option addr;
  q_size : Z;
}.

Local Abbreviation qheap := (gmap addr ds_queue_node).

(** [ds_queue_create]. *)
Definition ds_queue_create (alloc_ok : bool) : option ds_queue :=
  if alloc_ok then Some (mk_queue None None 0) else None.

(** The loop of [ds_queue_free]. *)
Fixpoint queue_free_loop {W : Type} (fuel : nat) (current : option addr)
    (free_data : option (V → W → W)) (h : qheap) (w : W) : option (qheap * W) :=
  match fuel with
  | O => None
  | S fuel =>
    match current with
    | None => Some (h, w)
    | Some c =>
      n ← h !! c;
      let next := qn_next n in
      let w := match free_data with Some f => f (qn_data n) w | None => w end in
      queue_free_loop fuel next free_data (delete c h) w
    end
  end.

(** [ds_queue_free]. *)
Definition ds_queue_free {W : Type} (Q : option ds_queue)
    (free_data : option (V → W → W)) (h : qheap) (w : W)
    : option (ds_error_t * qheap * W) :=
  match Q with
  | None => Some (DS_ERR_NULLARG, h, w)
  | Some Q =>
    '(h, w) ← queue_free_loop (S (size h)) (q_front Q) free_data h w;
    Some (DS_OK, h, w)
  end.

(** [ds_queue_enqueue]. *)
Definition ds_queue_enqueue (new_node : option addr) (Q : option ds_queue)
    (data : option V) (h : qheap) : option (ds_error_t * option ds_queue * qheap) :=
  match Q, data with
  | Some Q, Some data =>
    match new_node with
    | None => Some (DS_ERR_OOM, Some Q, h)
    | Some new_node =>
      let h := <[new_node := mk_qnode data None]> h in
      match q_rear Q with
      | None =>
        Some (DS_OK,
              Some (mk_queue (Some new_node) (Some new_node) (size_incr (q_size Q))), h)
      | Some r =>
        rn ← h !! r;
        let h := <[r := mk_qnode (qn_data rn) (Some new_node)]> h in
        Some (DS_OK,
              Some (mk_queue (q_front Q) (Some new_node) (size_incr (q_size Q))), h)
      end
    end
  | _, _ => Some (DS_ERR_NULLARG, Q, h)
  end.

(** [ds_queue_dequeue]. *)
Definition ds_queue_dequeue (Q : option ds_queue) (h : qheap)
    : option (option V * option ds_queue * qheap) :=
  match Q with
  | None => Some (None, None, h)
  | Some Q =>
    match q_front Q with
    | None => Some (None, Some Q, h)
    | Some old_front =>
      n ← h !! old_front;
      let front := qn_next n in
      let rear := match front with None => None | Some _ => q_rear Q end in
      Some (Some (qn_data n), Some (mk_queue front rear (size_decr (q_size Q))),
            delete old_front h)
    end
  end.

(** [ds_queue_peek]. *)
Definition ds_queue_peek (Q : option ds_queue) (h : qheap) : option (option V) :=
  match Q with
  | None => Some None
  | Some Q =>
    match q_front Q with
    | None => Some None
    | Some f => n ← h !! f; Some (Some (qn_data n))
    end
  end.

(** [ds_queue_is_empty]. *)
Definition ds_queue_is_empty (Q : option ds_queue) : Z :=
  match Q with
  | None => 1
  | Some Q => match q_front Q with None => 1 | Some _ => 0 end
  end.

(** [ds_queue_size]. *)
Definition ds_queue_size (Q : option ds_queue) : Z :=
  match Q with
  | None => 0
  | Some Q => q_size Q
  end.

End queue.
Arguments ds_queue_node : clear implicits.
Abbreviation qheap V := (gmap addr (ds_queue_node V)).
End DsQueue.

(** ** Logical model of the tree heap *)
Module TreeModel.
Import DsTree.
Section model.
Context {V : Type}.

(** The shape a root link stands for: every node with its address and its
    payload reference. *)
Inductive tree : Type :=
  | Leaf
  | Node (l : tree) (a : addr) (d : V) (r : tree).

Definition ptr_of (t : tree) : option addr :=
  match t with
  | Leaf => None
  | Node _ a _ _ => Some a
  end.

Fixpoint addrs (t : tree) : list addr :=
  match t with
  | Leaf => []
  | Node l a _ r => addrs l ++ a :: addrs r
  end.

Fixpoint elems (t : tree) : list V :=
  match t with
  | Leaf => []
  | Node l _ d r => elems l ++ d :: elems r
  end.

Fixpoint height (t : tree) : nat :=
  match t with
  | Leaf => O
  | Node l _ _ r => S (Nat.max (height l) (height r))
  end.

(** The heap holds the nodes of [t], linked as [t] is. *)
Fixpoint tree_repr (h : heap V) (t : tree) : Prop :=
  match t with
  | Leaf => True
  | Node l a d r =>
    h !! a = Some (mk_node d (ptr_of l) (ptr_of r)) ∧ tree_repr h l ∧ tree_repr h r
  end.

(** A live handle: its root link stands for [t] and no node is shared. *)
Record tree_shape (h : heap V) (T : ds_tree) (t : tree) : Prop := {
  shape_root : t_root T = ptr_of t;
  shape_repr : tree_repr h t;
  shape_nodup : NoDup (addrs t);
}.

(** The cached count is the number of nodes, and that number fits [size_t]. *)
Definition size_ok (T : ds_tree) (t : tree) : Prop :=
  t_size T = Z.of_nat (length (addrs t)) ∧
  Z.of_nat (length (addrs t)) < 2 ^ SIZE_WIDTH.

(** The BST ordering invariant between every node and its two subtrees:
    the keys on the left compare below the node's, those on the right above. *)
Fixpoint bst (cmp : V → V → Z) (t : tree) : Prop :=
  match t with
  | Leaf => True
  | Node l _ d r =>
    Forall (λ x, cmp x d < 0) (elems l) ∧ Forall (λ x, 0 < cmp x d) (elems r) ∧
    bst cmp l ∧ bst cmp r
  end.

(** The subtree at which the comparator descent for [target] stops. *)
Fixpoint tlookup (cmp : V → V → Z) (target : V) (t : tree) : tree :=
  match t with
  | Leaf => Leaf
  | Node l _ d r =>
    if cmp target d <? 0 then tlookup cmp target l
    else if cmp target d >? 0 then tlookup cmp target r
    else t
  end.

(** The descent for [target] meets a key that compares equal. *)
Definition thas (cmp : V → V → Z) (target : V) (t : tree) : bool :=
  match tlookup cmp target t with
  | Leaf => false
  | Node _ _ _ _ => true
  end.

(** The shape after linking a node [new] for [d] where the descent ends. *)
Fixpoint tinsert (cmp : V → V → Z) (new : addr) (d : V) (t : tree) : tree :=
  match t with
  | Leaf => Node Leaf new d Leaf
  | Node l a x r =>
    if cmp d x <? 0 then Node (tinsert cmp new d l) a x r
    else if cmp d x >? 0 then Node l a x (tinsert cmp new d r)
    else t
  end.

(** The leftmost node of a shape, and the shape without it. *)
Fixpoint tmin (t : tree) : option (addr * V) :=
  match t with
  | Leaf => None
  | Node Leaf a d _ => Some (a, d)
  | Node l _ _ _ => tmin l
  end.

Fixpoint tdelete_min (t : tree) : tree :=
  match t with
  | Leaf => Leaf
  | Node Leaf _ _ r => r
  | Node l a d r => Node (tdelete_min l) a d r
  end.

(** The node whose left link leads to the leftmost node ([par] when the
    leftmost node is the root of [t]). *)
Fixpoint tmin_parent (par : addr) (t : tree) : addr :=
  match t with
  | Leaf => par
  | Node Leaf _ _ _ => par
  | Node l a _ _ => tmin_parent a l
  end.

(** The shape after the three-case removal at the node the descent finds. *)
Definition tremove_root (t : tree) : tree :=
  match t with
  | Leaf => Leaf
  | Node Leaf _ _ r => r
  | Node l _ _ Leaf => l
  | Node l a d r =>
    match tmin r with
    | Some (_, sd) => Node l a sd (tdelete_min r)
    | None => t
    end
  end.

Fixpoint tremove (cmp : V → V → Z) (target : V) (t : tree) : tree :=
  match t with
  | Leaf => Leaf
  | Node l a d r =>
    if cmp target d <? 0 then Node (tremove cmp target l) a d r
    else if cmp target d >? 0 then Node l a d (tremove cmp target r)
    else tremove_root t
  end.

(** The store of [ds_tree_insert] that links the new node below [p]. *)
Definition link_new (cmp : V → V → Z) (d : V) (new p : addr)
    (pn : ds_tree_node V) (h : heap V) : heap V :=
  if cmp d (n_data pn) <? 0
  then <[p := set_left pn (Some new)]> h
  else <[p := set_right pn (Some new)]> h.

(** The link that holds the pointer to a subtree: the root field of the
    handle, or the left or right field of a parent node. *)
Inductive slot : Type :=
  | SRoot
  | SLeft (p : addr)
  | SRight (p : addr).

Definition slot_parent (s : slot) : option addr :=
  match s with
  | SRoot => None
  | SLeft p | SRight p => Some p
  end.

(** The slot [s] of the state [(T, h)] holds the pointer [v], the parent
    node being [pn]; for a right field, the left field of the parent holds
    another pointer, so that the test [parent->left == current] tells the
    two fields apart. *)
Definition slot_ok (T : ds_tree) (h : heap V) (s : slot) (pn : ds_tree_node V)
    (v : option addr) : Prop :=
  match s with
  | SRoot => t_root T = v
  | SLeft p => h !! p = Some pn ∧ n_left pn = v
  | SRight p =>
    h !! p = Some pn ∧ n_right pn = v ∧ (is_Some v → n_left pn ≠ v)
  end.

(** The parent node after the store of [v] into the slot. *)
Definition slot_node (s : slot) (pn : ds_tree_node V) (v : option addr)
    : ds_tree_node V :=
  match s with
  | SRoot => pn
  | SLeft _ => set_left pn v
  | SRight _ => set_right pn v
  end.

(** The state after the store of [v] into the slot, seen from the slot. *)
Definition slot_stored (T T' : ds_tree) (h' : heap V) (s : slot)
    (pn : ds_tree_node V) (v : option addr) : Prop :=
  match s with
  | SRoot => T' = mk_tree v (t_size T)
  | SLeft p | SRight p => T' = T ∧ h' !! p = Some (slot_node s pn v)
  end.

(** The store of [ds_tree_remove] that unlinks the successor [sa], with
    node [sn], from its parent [sp], with node [spn]. *)
Definition unlink (h : heap V) (sp sa : addr) (spn sn : ds_tree_node V)
    : heap V :=
  if decide (n_left spn = Some sa)
  then <[sp := set_left spn (n_right sn)]> h
  else <[sp := set_right spn (n_right sn)]> h.

(** [s] is [t] or one of the subtrees below it. *)
Fixpoint subtree (s t : tree) : Prop :=
  s = t ∨
  match t with
  | Leaf => False
  | Node l _ _ r => subtree s l ∨ subtree s r
  end.

(** The nodes a walk along left and right links reaches from a link. *)
Inductive reachable (h : heap V) : option addr → addr → Prop :=
  | reach_here a n : h !! a = Some n → reachable h (Some a) a
  | reach_left a n b :
      h !! a = Some n → reachable h (n_left n) b → reachable h (Some a) b
  | reach_right a n b :
      h !! a = Some n → reachable h (n_right n) b → reachable h (Some a) b.

(** The states a program reaches from an empty tree by calls of
    [ds_tree_insert] with the comparator [cmp], whatever their payload
    argument and the outcome of their allocation. *)
Inductive insert_run (cmp : V → V → Z) : option ds_tree → heap V → Prop :=
  | run_created h : insert_run cmp (ds_tree_create true) h
  | run_insert T h new data e T' h' :
      insert_run cmp T h →
      (∀ a, new = Some a → h !! a = None) →
      ds_tree_insert new T data (Some cmp) h = Some (e, T', h') →
      insert_run cmp T' h'.

(** [x] compares below [y]. *)
Definition cmp_lt (cmp : V → V → Z) : relation V := λ x y, cmp x y < 0.

(** A sequence is strictly ascending under [cmp]: every element compares
    below every later one. *)
Definition ascending (cmp : V → V → Z) (xs : list V) : Prop :=
  StronglySorted (cmp_lt cmp) xs.

End model.
Arguments tree : clear implicits.
End TreeModel.

(** ** Logical model of the list heap *)
Module ListModel.
Import DsList.
Section model.
Context {V : Type}.

(** The pointer to the first node of a chain of (address, payload) nodes. *)
Definition lptr (xs : list (addr * V)) : option addr :=
  match xs with
  | [] => None
  | (a, _) :: _ => Some a
  end.

(** The heap holds the nodes of [xs], each linked to the next, the last
    one to [NULL]. *)
Fixpoint list_repr (h : lheap V) (xs : list (addr * V)) : Prop :=
  match xs with
  | [] => True
  | (a, d) :: xs' => h !! a = Some (mk_lnode d (lptr xs')) ∧ list_repr h xs'
  end.

(** A live list: head and tail point to the first and the last node of
    [xs] and no node occurs twice. *)
Record list_shape (h : lheap V) (L : ds_list) (xs : list (addr * V)) : Prop := {
  lshape_head : l_head L = lptr xs;
  lshape_tail : l_tail L = last xs.*1;
  lshape_repr : list_repr h xs;
  lshape_nodup : NoDup xs.*1;
}.

(** [ds_list_push_back] for each payload of [ps] in turn, the allocation
    of each call returning the block paired with the payload; the statuses
    are collected. *)
Fixpoint push_all (ps : list (addr * V)) (L : option ds_list) (h : lheap V)
    : option (list ds_error_t * option ds_list * lheap V) :=
  match ps with
  | [] => Some ([], L, h)
  | (a, d) :: ps =>
    '(e, L, h) ← ds_list_push_back (Some a) L (Some d) h;
    '(es, L, h) ← push_all ps L h;
    Some (e :: es, L, h)
  end.

(** [ds_list_pop_front] repeated until it returns [NULL]; the payloads
    returned before that, in order.  [None] when [fuel] calls did not
    reach the [NULL]. *)
Fixpoint pop_all (fuel : nat) (L : option ds_list) (h : lheap V)
    : option (list V * option ds_list * lheap V) :=
  match fuel with
  | O => None
  | S fuel =>
    '(d, L, h) ← ds_list_pop_front L h;
    match d with
    | None => Some ([], L, h)
    | Some v =>
      '(vs, L, h) ← pop_all fuel L h;
      Some (v :: vs, L, h)
    end
  end.

End model.
End ListModel.

(** ** Logical model of the stack heap *)
Module StackModel.
Import DsStack.
Section model.
Context {V : Type}.

(** The chain below the link [p] holds the payloads [xs], top first. *)
Fixpoint stack_repr (h : sheap V) (p : option addr) (xs : list V) : Prop :=
  match xs with
  | [] => p = None
  | d :: xs' =>
    ∃ a nx, p = Some a ∧ h !! a = Some (mk_snode d nx) ∧ stack_repr h nx xs'
  end.

End model.
End StackModel.

(** ** A caller: integer payloads, as in main.c *)
Module Scenario.
Import DsTree TreeModel.

(** Two's complement wrap-around of a 32-bit [int]. *)
Definition wrap_int (x : Z) : Z := (x + 2 ^ 31) mod 2 ^ 32 - 2 ^ 31.

(** [cmp_int] of main.c, [*(int* )a - *(int* )b], the payload references
    being addresses of [int]s in the caller's memory [mem].  For [int]s far
    apart the subtraction overflows; the two's complement result stands for
    it here, and the [int]s of the scenario are small. *)
Definition cmp_int (mem : addr → Z) (a b : addr) : Z :=
  wrap_int (mem a - mem b).

(** The caller's memory of the tree scenario: the [int]s 50, 30, 70, 20 and
    40 at the addresses 1 to 5, a key 50 at the address 6, and two more
    [int]s, 60 and 65, at the addresses 7 and 8. *)
Definition int_at (p : addr) : Z :=
  match p with
  | 1%positive => 50
  | 2%positive => 30
  | 3%positive => 70
  | 4%positive => 20
  | 5%positive => 40
  | 6%positive => 50
  | 7%positive => 60
  | 8%positive => 65
  | _ => 0
  end.

Definition cmp50 : addr → addr → Z := cmp_int int_at.

(** A call of [ds_tree_insert] that must return [DS_OK]; its allocation
    returns the block [a]. *)
Definition insert_ok (a : addr) (d : addr)
    (st : option (option ds_tree * heap addr)) : option (option ds_tree * heap addr) :=
  '(T, h) ← st;
  '(e, T, h) ← ds_tree_insert (Some a) T (Some d) (Some cmp50) h;
  if decide (e = DS_OK) then Some (T, h) else None.

(** Insert 50, 30, 70, 20, 40 into an empty tree; the node blocks are 11
    to 15. *)
Definition scenario_inserted : option (option ds_tree * heap addr) :=
  insert_ok 15 5 (insert_ok 14 4 (insert_ok 13 3 (insert_ok 12 2 (insert_ok 11 1
    (Some (ds_tree_create true, ∅)))))).

(** Then remove the key 50. *)
Definition scenario_removed
    : option (ds_error_t * option ds_tree * heap addr) :=
  '(T, h) ← scenario_inserted;
  ds_tree_remove T (Some 6%positive) (Some cmp50) h.

(** The root link of a handle ([NULL] for a [NULL] handle) and the payload
    reference held by the root node. *)
Definition root_of (T : option ds_tree) : option addr :=
  match T with
  | Some T0 => t_root T0
  | None => None
  end.

Definition root_payload (T : option ds_tree) (h : heap addr) : option addr :=
  match root_of T with
  | Some r => n_data <$> h !! r
  | None => None
  end.

(** What the caller observes after the scenario: the status of the
    removal, the [int] behind the root payload, the size and the [int]s of
    an in-order traversal. *)
Definition scenario_observed
    : option (ds_error_t * option Z * Z * option (list Z)) :=
  match scenario_removed with
  | Some (e, T, h) =>
    Some (e, option_map int_at (root_payload T h), ds_tree_size T,
          option_map (map int_at) (inorder (S (size h)) h (root_of T)))
  | None => None
  end.

(** The state after the five insertions, written out: handle, heap and
    shape. *)
Definition T5 : ds_tree := mk_tree (Some 11%positive) 5.

Definition h5 : heap addr :=
  <[11%positive := mk_node 1%positive (Some 12%positive) (Some 13%positive)]>
  (<[12%positive := mk_node 2%positive (Some 14%positive) (Some 15%positive)]>
  (<[13%positive := mk_node 3%positive None None]>
  (<[14%positive := mk_node 4%positive None None]>
  (<[15%positive := mk_node 5%positive None None]> ∅)))).

Definition t5 : tree addr :=
  (Node (Node (Node Leaf 14 4 Leaf) 12 2 (Node Leaf 15 5 Leaf)) 11 1
        (Node Leaf 13 3 Leaf))%positive.

(** The tree of 50, 30, 70, 60, 65 in this order: the successor of 50 is
    60, the left child of 70, and has the right child 65. *)
Definition T6 : ds_tree := mk_tree (Some 11%positive) 5.

Definition h6 : heap addr :=
  <[11%positive := mk_node 1%positive (Some 12%positive) (Some 13%positive)]>
  (<[12%positive := mk_node 2%positive None None]>
  (<[13%positive := mk_node 3%positive (Some 14%positive) None]>
  (<[14%positive := mk_node 7%positive None (Some 15%positive)]>
  (<[15%positive := mk_node 8%positive None None]> ∅)))).

Definition t6 : tree addr :=
  (Node (Node Leaf 12 2 Leaf) 11 1
        (Node (Node Leaf 14 7 (Node Leaf 15 8 Leaf)) 13 3 Leaf))%positive.

(** A tree with the single key 50. *)
Definition T1 : ds_tree := mk_tree (Some 11%positive) 1.
Definition h1 : heap addr := {[ 11%positive := mk_node 1%positive None None ]}.
Definition t1 : tree addr := (Node Leaf 11 1 Leaf)%positive.

End Scenario.

(** ** Notions shared by the four containers *)

(** The cached [size_t] count of a container that holds [n] nodes. *)
Definition cached (n : nat) : Z := Z.of_nat n mod 2 ^ SIZE_WIDTH.

(** The caller's world after the destructor was called on each payload of
    [xs] in turn; a [NULL] destructor is never called. *)
Definition destroy_all {V W : Type} (free_data : option (V → W → W))
    (xs : list V) (w : W) : W :=
  match free_data with
  | Some f => foldl (λ w x, f x w) w xs
  | None => w
  end.

(** ** More of the logical model of the tree *)
Module TreeExtra.
Import DsTree TreeModel.
Section model.
Context {V : Type}.

(** The nodes of a shape, in order: the block of each and the payload
    reference it holds. *)
Fixpoint nodes (t : tree V) : list (addr * V) :=
  match t with
  | Leaf => []
  | Node l a d r => nodes l ++ (a, d) :: nodes r
  end.

(** The payloads in post-order (left, right, self), the order in which
    [free_subtree] reaches them. *)
Fixpoint postorder (t : tree V) : list V :=
  match t with
  | Leaf => []
  | Node l _ d r => postorder l ++ postorder r ++ [d]
  end.

(** The payload reference held by the root node of a shape. *)
Definition troot_data (t : tree V) : option V :=
  match t with
  | Leaf => None
  | Node _ _ d _ => Some d
  end.

(** The states a program reaches from an empty tree by calls of
    [ds_tree_insert] and [ds_tree_remove], each with the comparator [cmp]
    or with a [NULL] comparator, whatever the other arguments and the
    outcome of the allocations. *)
Inductive tree_run (cmp : V → V → Z) : option ds_tree → heap V → Prop :=
  | trun_created h : tree_run cmp (ds_tree_create true) h
  | trun_insert T h new data c e T' h' :
      tree_run cmp T h →
      c = None ∨ c = Some cmp →
      (∀ a, new = Some a → h !! a = None) →
      ds_tree_insert new T data c h = Some (e, T', h') →
      tree_run cmp T' h'
  | trun_remove T h target c e T' h' :
      tree_run cmp T h →
      c = None ∨ c = Some cmp →
      ds_tree_remove T target c h = Some (e, T', h') →
      tree_run cmp T' h'.

End model.
End TreeExtra.

(** ** More of the logical model of the list *)
Module ListExtra.
Import DsList ListModel.
Section model.
Context {V : Type}.

(** The first payload of [vs] that the predicate [cmp _ target] matches
    (zero is a match), as the scans of list.c look for it. *)
Fixpoint first_match (cmp : V → V → Z) (target : V) (vs : list V) : option V :=
  match vs with
  | [] => None
  | x :: vs => if cmp x target =? 0 then Some x else first_match cmp target vs
  end.

(** A live list whose cached count is its number of nodes. *)
Definition list_live (h : lheap V) (L : ds_list) (xs : list (addr * V)) : Prop :=
  list_shape h L xs ∧ l_size L = cached (length xs).

(** The states a program reaches from a created list by calls of the four
    mutating operations of list.c, whatever their arguments and the outcome
    of the allocations. *)
Inductive list_run : option ds_list → lheap V → Prop :=
  | lrun_created h : list_run (ds_list_create true) h
  | lrun_push_front L h new data e L' h' :
      list_run L h →
      (∀ a, new = Some a → h !! a = None) →
      ds_list_push_front new L data h = (e, L', h') →
      list_run L' h'
  | lrun_push_back L h new data e L' h' :
      list_run L h →
      (∀ a, new = Some a → h !! a = None) →
      ds_list_push_back new L data h = Some (e, L', h') →
      list_run L' h'
  | lrun_pop_front L h d L' h' :
      list_run L h →
      ds_list_pop_front L h = Some (d, L', h') →
      list_run L' h'
  | lrun_remove L h data cmp e L' h' :
      list_run L h →
      ds_list_remove L data cmp h = Some (e, L', h') →
      list_run L' h'.

End model.
End ListExtra.
(** ** The chains of stack.c and queue.c, read as chains of list.c *)
Module StackExtra.
Import DsList DsStack ListModel.
Section model.
Context {V : Type}.

(** A node of list.c seen as a node of stack.c, and back: the two structs
    have the same two fields. *)
Definition l2s_node (n : ds_list_node V) : ds_stack_node V :=
  mk_snode (ln_data n) (ln_next n).

Definition s2l_node (n : ds_stack_node V) : ds_list_node V :=
  mk_lnode (sn_data n) (sn_next n).

(** A list handle seen as a stack handle: the tail pointer is forgotten. *)
Definition l2s (L : ds_list) : ds_stack := mk_stack (l_head L) (l_size L).

(** A stack handle seen as a list handle, given the tail pointer. *)
Definition s2l (tail : option addr) (S0 : ds_stack) : ds_list :=
  mk_list (s_top S0) tail (s_size S0).

(** A live stack: read as a list, its chain holds the nodes [xs], top
    first, and no node occurs twice. *)
Definition stack_shape (h : sheap V) (S0 : ds_stack) (xs : list (addr * V)) : Prop :=
  list_shape (s2l_node <$> h) (s2l (last xs.*1) S0) xs.

(** [ds_stack_push] for each payload of [ps] in turn, the allocation of
    each call returning the block paired with the payload; the statuses
    are collected. *)
Fixpoint stack_push_all (ps : list (addr * V)) (S0 : option ds_stack) (h : sheap V)
    : list ds_error_t * option ds_stack * sheap V :=
  match ps with
  | [] => ([], S0, h)
  | (a, d) :: ps =>
    let '(e, S0, h) := ds_stack_push (Some a) S0 (Some d) h in
    let '(es, S0, h) := stack_push_all ps S0 h in
    (e :: es, S0, h)
  end.

(** [ds_stack_pop] repeated until it returns [NULL]; the payloads returned
    before that, in order.  [None] when [fuel] calls did not reach the
    [NULL]. *)
Fixpoint stack_pop_all (fuel : nat) (S0 : option ds_stack) (h : sheap V)
    : option (list V * option ds_stack * sheap V) :=
  match fuel with
  | O => None
  | S fuel =>
    '(d, S0, h) ← ds_stack_pop S0 h;
    match d with
    | None => Some ([], S0, h)
    | Some v =>
      '(vs, S0, h) ← stack_pop_all fuel S0 h;
      Some (v :: vs, S0, h)
    end
  end.

(** The states a program reaches from a created stack by calls of
    [ds_stack_push] and [ds_stack_pop], whatever their arguments and the
    outcome of the allocations. *)
Inductive stack_run : option ds_stack → sheap V → Prop :=
  | srun_created h : stack_run (ds_stack_create true) h
  | srun_push S0 h new data e S' h' :
      stack_run S0 h →
      (∀ a, new = Some a → h !! a = None) →
      ds_stack_push new S0 data h = (e, S', h') →
      stack_run S' h'
  | srun_pop S0 h d S' h' :
      stack_run S0 h →
      ds_stack_pop S0 h = Some (d, S', h') →
      stack_run S' h'.

End model.
End StackExtra.

Module QueueExtra.
Import DsList DsQueue ListModel.
Section model.
Context {V : Type}.

(** A node and a handle of queue.c seen as those of list.c: the structs
    have the same fields, front for head and rear for tail. *)
Definition q2l_node (n : ds_queue_node V) : ds_list_node V :=
  mk_lnode (qn_data n) (qn_next n).

Definition q2l (Q : ds_queue) : ds_list :=
  mk_list (q_front Q) (q_rear Q) (q_size Q).

(** A live queue: read as a list, it is a live list of the nodes [xs],
    front first. *)
Definition queue_shape (h : qheap V) (Q : ds_queue) (xs : list (addr * V)) : Prop :=
  list_shape (q2l_node <$> h) (q2l Q) xs.

(** [ds_queue_enqueue] for each payload of [ps] in turn, the allocation of
    each call returning the block paired with the payload; the statuses
    are collected. *)
Fixpoint enqueue_all (ps : list (addr * V)) (Q : option ds_queue) (h : qheap V)
    : option (list ds_error_t * option ds_queue * qheap V) :=
  match ps with
  | [] => Some ([], Q, h)
  | (a, d) :: ps =>
    '(e, Q, h) ← ds_queue_enqueue (Some a) Q (Some d) h;
    '(es, Q, h) ← enqueue_all ps Q h;
    Some (e :: es, Q, h)
  end.

(** [ds_queue_dequeue] repeated until it returns [NULL]; the payloads
    returned before that, in order.  [None] when [fuel] calls did not
    reach the [NULL]. *)
Fixpoint dequeue_all (fuel : nat) (Q : option ds_queue) (h : qheap V)
    : option (list V * option ds_queue * qheap V) :=
  match fuel with
  | O => None
  | S fuel =>
    '(d, Q, h) ← ds_queue_dequeue Q h;
    match d with
    | None => Some ([], Q, h)
    | Some v =>
      '(vs, Q, h) ← dequeue_all fuel Q h;
      Some (v :: vs, Q, h)
    end
  end.

(** The states a program reaches from a created queue by calls of
    [ds_queue_enqueue] and [ds_queue_dequeue], whatever their arguments
    and the outcome of the allocations. *)
Inductive queue_run : option ds_queue → qheap V → Prop :=
  | qrun_created h : queue_run (ds_queue_create true) h
  | qrun_enqueue Q h new data e Q' h' :
      queue_run Q h →
      (∀ a, new = Some a → h !! a = None) →
      ds_queue_enqueue new Q data h = Some (e, Q', h') →
      queue_run Q' h'
  | qrun_dequeue Q h d Q' h' :
      queue_run Q h →
      ds_queue_dequeue Q h = Some (d, Q', h') →
      queue_run Q' h'.

End model.
End QueueExtra.
(** ** Small concrete states *)
Module Examples.
Import DsList DsStack DsQueue.

(** A list of the [int]s 50 and 30 in the blocks 21 and 22. *)
Definition L2 : ds_list := mk_list (Some 21%positive) (Some 22%positive) 2.

Definition lh2 : lheap addr :=
  <[21%positive := mk_lnode 1%positive (Some 22%positive)]>
  (<[22%positive := mk_lnode 2%positive None]> ∅).

Definition xs2 : list (addr * addr) := [(21, 1); (22, 2)]%positive.

(** A stack of the [int]s 50 and 30, 50 on top, in the blocks 31 and 32. *)
Definition S2 : ds_stack := mk_stack (Some 31%positive) 2.

Definition sh2 : sheap addr :=
  <[31%positive := mk_snode 1%positive (Some 32%positive)]>
  (<[32%positive := mk_snode 2%positive None]> ∅).

(** The states after one [ds_list_push_front], [ds_stack_push] and
    [ds_queue_enqueue] of the [int] 50 on a created container. *)
Definition lst1 : ds_list := mk_list (Some 21%positive) (Some 21%positive) 1.
Definition lst1_heap : lheap addr := {[ 21%positive := mk_lnode 1%positive None ]}.

Definition stk1 : ds_stack := mk_stack (Some 31%positive) 1.
Definition stk1_heap : sheap addr := {[ 31%positive := mk_snode 1%positive None ]}.

Definition que1 : ds_queue := mk_queue (Some 41%positive) (Some 41%positive) 1.
Definition que1_heap : qheap addr := {[ 41%positive := mk_qnode 1%positive None ]}.

End Examples.

(** ** Properties of the tree *)
Module TreeProofs.
Import DsTree TreeModel.
Section proofs.
Context {V : Type}.
Implicit Types (h : heap V) (t l r : tree V) (T : ds_tree) (cmp : V → V → Z).

Lemma nodup_node l a (d : V) r :
  NoDup (addrs (Node l a d r)) →
  NoDup (addrs l) ∧ NoDup (addrs r) ∧ (a ∉ addrs l) ∧ (a ∉ addrs r) ∧
  (∀ x, x ∈ addrs l → x ∉ addrs r).
Proof.
  simpl. rewrite NoDup_app, NoDup_cons.
  intros (Hl & Hd & Har & Hr). repeat split; auto.
  - intros Hin. apply (Hd a Hin). left.
  - intros x Hx Hxr. apply (Hd x Hx). by right.
Qed.

Lemma tree_repr_agree h h' t :
  (∀ a, a ∈ addrs t → h' !! a = h !! a) → tree_repr h t → tree_repr h' t.
Proof.
  induction t as [|l IHl a d r IHr]; simpl; [done|].
  intros Hag (Ha & Hl & Hr). split_and!.
  - rewrite Hag; [done|]. set_solver.
  - apply IHl; [|done]. intros b Hb. apply Hag. set_solver.
  - apply IHr; [|done]. intros b Hb. apply Hag. set_solver.
Qed.

Lemma tree_repr_insert h t a n :
  a ∉ addrs t → tree_repr h t → tree_repr (<[a := n]> h) t.
Proof.
  intros Ha. apply tree_repr_agree. intros b Hb.
  apply lookup_insert_ne. intros ->. done.
Qed.

Lemma tree_repr_delete h t a :
  a ∉ addrs t → tree_repr h t → tree_repr (delete a h) t.
Proof.
  intros Ha. apply tree_repr_agree. intros b Hb.
  apply lookup_delete_ne. intros ->. done.
Qed.

Lemma tree_repr_dom h t a : tree_repr h t → a ∈ addrs t → is_Some (h !! a).
Proof.
  induction t as [|l IHl b d r IHr]; simpl; [set_solver|].
  intros (Hb & Hl & Hr). rewrite elem_of_app, elem_of_cons.
  intros [?|[->|?]]; eauto.
Qed.

Lemma tree_repr_fresh h t a : tree_repr h t → h !! a = None → a ∉ addrs t.
Proof.
  intros Hr Hn Hin. destruct (tree_repr_dom h t a Hr Hin) as [n Hs]. congruence.
Qed.

Lemma height_le_count t : (height t ≤ length (addrs t))%nat.
Proof.
  induction t as [|l IHl a d r IHr]; simpl; [lia|].
  rewrite length_app. simpl. lia.
Qed.

Lemma count_le_size h t :
  tree_repr h t → NoDup (addrs t) → (length (addrs t) ≤ size h)%nat.
Proof.
  intros Hr Hnd.
  assert (addrs t ⊆+ (map_to_list h).*1) as Hsub.
  { apply NoDup_submseteq; [done|]. intros a Ha.
    destruct (tree_repr_dom h t a Hr Ha) as [n Hn].
    apply list_elem_of_fmap. exists (a, n). split; [done|].
    by apply elem_of_map_to_list. }
  apply submseteq_length in Hsub.
  rewrite length_fmap, length_map_to_list in Hsub. done.
Qed.

Lemma fuel_enough h t :
  tree_repr h t → NoDup (addrs t) → (height t < S (size h))%nat.
Proof.
  intros Hr Hnd. pose proof (height_le_count t).
  pose proof (count_le_size h t Hr Hnd). lia.
Qed.

Lemma ptr_of_tinsert cmp new (d : V) t :
  t ≠ Leaf → ptr_of (tinsert cmp new d t) = ptr_of t.
Proof.
  destruct t as [|l a x r]; [done|]. intros _. simpl.
  destruct (cmp d x <? 0); [done|]. by destruct (cmp d x >? 0).
Qed.

Lemma addrs_tinsert cmp new (d : V) t a :
  a ∈ addrs (tinsert cmp new d t) → a = new ∨ a ∈ addrs t.
Proof.
  induction t as [|l IHl b x r IHr]; simpl.
  - set_solver.
  - destruct (cmp d x <? 0); [|destruct (cmp d x >? 0)]; simpl; set_solver.
Qed.

Lemma nodup_tinsert cmp new (d : V) t :
  new ∉ addrs t → NoDup (addrs t) → NoDup (addrs (tinsert cmp new d t)).
Proof.
  induction t as [|l IHl b x r IHr]; simpl.
  - intros _ _. apply NoDup_singleton.
  - intros Hnew Hnd. destruct (nodup_node l b x r Hnd) as (Hl & Hr & Hbl & Hbr & Hd).
    assert ((new ∉ addrs l) ∧ new ≠ b ∧ (new ∉ addrs r)) as (Hnl & Hnb & Hnr) by set_solver.
    destruct (cmp d x <? 0); [|destruct (cmp d x >? 0)]; simpl; [| |done].
    + apply NoDup_app. split_and!; [by apply IHl| |by apply NoDup_cons].
      intros y Hy. destruct (addrs_tinsert _ _ _ _ _ Hy) as [->|Hyl]; set_solver.
    + apply NoDup_app. split_and!; [done| |].
      * intros y Hy. rewrite elem_of_cons. intros [->|Hyr]; [done|].
        destruct (addrs_tinsert _ _ _ _ _ Hyr) as [->|Hyr']; [done|]. by apply (Hd y).
      * apply NoDup_cons. split; [|by apply IHr].
        intros Hb. destruct (addrs_tinsert _ _ _ _ _ Hb) as [->|?]; done.
Qed.

Lemma link_new_ne cmp (d : V) new p pn h a :
  a ≠ p → link_new cmp d new p pn h !! a = h !! a.
Proof.
  intros Hne. unfold link_new.
  destruct (cmp d (n_data pn) <? 0); by rewrite lookup_insert_ne.
Qed.

Lemma thas_node cmp (target : V) l a d r :
  thas cmp target (Node l a d r) =
  if cmp target d <? 0 then thas cmp target l
  else if cmp target d >? 0 then thas cmp target r else true.
Proof.
  unfold thas. simpl.
  destruct (cmp target d <? 0); [done|]. by destruct (cmp target d >? 0).
Qed.

Lemma tinsert_has cmp new (d : V) t :
  thas cmp d t = true → tinsert cmp new d t = t.
Proof.
  induction t as [|l IHl b x r IHr]; [done|].
  rewrite thas_node. simpl.
  destruct (cmp d x <? 0); [|destruct (cmp d x >? 0)]; intros Hh; [| |done].
  - by rewrite IHl.
  - by rewrite IHr.
Qed.

(** The descent of [ds_tree_insert] below a represented subtree: it ends,
    on an equal key or at the node under which [tinsert] links. *)
Lemma insert_loop_spec cmp (d : V) h new t : ∀ fuel par,
  tree_repr h t → NoDup (addrs t) → new ∉ addrs t →
  h !! new = Some (mk_node d None None) →
  (height t < fuel)%nat →
  match insert_loop fuel cmp d h (ptr_of t) par with
  | None => False
  | Some InsertDup => thas cmp d t = true
  | Some (InsertAt p) =>
    thas cmp d t = false ∧
    match t with
    | Leaf => p = par
    | Node _ _ _ _ =>
      ∃ pa pn, p = Some pa ∧ pa ∈ addrs t ∧ h !! pa = Some pn ∧
        tree_repr (link_new cmp d new pa pn h) (tinsert cmp new d t)
    end
  end.
Proof.
  induction t as [|l IHl b x r IHr]; intros fuel par Hrep Hnd Hnew Hnn Hfuel.
  - destruct fuel; [simpl in Hfuel; lia|]. done.
  - destruct fuel as [|fuel]; [simpl in Hfuel; lia|].
    destruct Hrep as (Hb & Hl & Hr).
    destruct (nodup_node l b x r Hnd) as (Hndl & Hndr & Hbl & Hbr & Hdisj).
    assert ((new ∉ addrs l) ∧ new ≠ b ∧ (new ∉ addrs r)) as (Hnl & Hnb & Hnr)
      by (simpl in Hnew; set_solver).
    simpl in Hfuel. rewrite thas_node. simpl. rewrite Hb. simpl.
    destruct (cmp d x <? 0) eqn:Hlt; [|destruct (cmp d x >? 0) eqn:Hgt].
    + specialize (IHl fuel (Some b) Hl Hndl Hnl Hnn ltac:(lia)).
      destruct (insert_loop fuel cmp d h (ptr_of l) (Some b)) as [[|p]|]; [done| |done].
      destruct IHl as [Hhas IHl]. split; [done|].
      destruct l as [|ll la lx lr].
      * subst p. exists b, (mk_node x None (ptr_of r)).
        split_and!; [done|set_solver|done|].
        unfold link_new. simpl. rewrite Hlt. simpl.
        split; [by rewrite lookup_insert_eq|].
        split; [|by apply tree_repr_insert].
        rewrite lookup_insert_ne by done. done.
      * destruct IHl as (pa & pn & -> & Hpa & Hpn & Hrep').
        exists pa, pn. split_and!; [done|set_solver|done|].
        assert (pa ≠ b) by (intros ->; done).
        split_and!.
        -- rewrite link_new_ne by done. rewrite Hb.
           by rewrite ptr_of_tinsert.
        -- done.
        -- eapply tree_repr_agree; [|exact Hr]. intros a Ha.
           apply link_new_ne. intros ->. by apply (Hdisj pa).
    + specialize (IHr fuel (Some b) Hr Hndr Hnr Hnn ltac:(lia)).
      destruct (insert_loop fuel cmp d h (ptr_of r) (Some b)) as [[|p]|]; [done| |done].
      destruct IHr as [Hhas IHr]. split; [done|].
      destruct r as [|rl ra rx rr].
      * subst p. exists b, (mk_node x (ptr_of l) None).
        split_and!; [done|set_solver|done|].
        unfold link_new. simpl. rewrite Hlt. simpl.
        split; [by rewrite lookup_insert_eq|].
        split; [by apply tree_repr_insert|].
        rewrite lookup_insert_ne by done. done.
      * destruct IHr as (pa & pn & -> & Hpa & Hpn & Hrep').
        exists pa, pn. split_and!; [done|set_solver|done|].
        assert (pa ≠ b) by (intros ->; done).
        split_and!.
        -- rewrite link_new_ne by done. rewrite Hb.
           by rewrite ptr_of_tinsert.
        -- eapply tree_repr_agree; [|exact Hl]. intros a Ha.
           apply link_new_ne. intros ->. by apply (Hdisj pa).
        -- done.
    + done.
Qed.

(** [ds_tree_insert] with a fresh block on a live tree: it returns [DS_OK]
    and the heap stands for [tinsert]; when the descent meets an equal
    key, handle and heap are the ones before the call. *)
Lemma ds_tree_insert_shape cmp (d : V) h T t new :
  tree_shape h T t → h !! new = None →
  ∃ T' h',
    ds_tree_insert (Some new) (Some T) (Some d) (Some cmp) h
      = Some (DS_OK, Some T', h') ∧
    tree_shape h' T' (tinsert cmp new d t) ∧
    (if thas cmp d t then T' = T ∧ h' = h
     else t_size T' = size_incr (t_size T)).
Proof.
  intros [Hroot Hrep Hnd] Hfresh.
  pose proof (tree_repr_fresh _ _ _ Hrep Hfresh) as Hnew.
  unfold ds_tree_insert. cbv zeta. rewrite Hroot.
  set (h1 := <[new := mk_node d None None]> h).
  assert (tree_repr h1 t) as Hrep1 by by apply tree_repr_insert.
  assert (h1 !! new = Some (mk_node d None None)) as Hnn by apply lookup_insert_eq.
  destruct t as [|l b x r].
  - simpl. eexists _, _. split; [done|]. split; [|done].
    split; simpl; [done| |apply NoDup_singleton]. by rewrite Hnn.
  - set (t0 := Node l b x r) in *.
    assert (ptr_of t0 = Some b) as Hp by done. assert (t0 ≠ Leaf) as Hnl by done.
    clearbody t0. rewrite Hp.
    pose proof (insert_loop_spec cmp d h1 new t0 (S (size h1)) None
                  Hrep1 Hnd Hnew Hnn (fuel_enough _ _ Hrep1 Hnd)) as Hloop.
    rewrite Hp in Hloop.
    destruct (insert_loop (S (size h1)) cmp d h1 (Some b) None) as [[|p]|];
      [| |done]; simpl.
    + eexists _, _. split; [done|]. rewrite Hloop.
      rewrite tinsert_has by done.
      unfold h1. rewrite delete_insert_id by done. split; [by split|done].
    + destruct Hloop as (Hhas & Hloop). rewrite Hhas.
      pose proof (ptr_of_tinsert cmp new d t0 Hnl) as Hp'.
      pose proof (nodup_tinsert cmp new d t0 Hnew Hnd) as Hnd'.
      remember (tinsert cmp new d t0) as t1 eqn:Ht1.
      destruct t0 as [|l0 b0 x0 r0]; [done|].
      destruct Hloop as (pa & pn & -> & Hpa & Hpn & Hrep').
      simpl. rewrite Hpn. simpl. eexists _, _. split; [done|].
      split; [|done]. split; [by rewrite Hp', Hp|exact Hrep'|done].
Qed.

(** *** The ordering invariant on shapes *)

Lemma cmp_flip cmp (a b : V) : total_cmp cmp → 0 < cmp a b ↔ cmp b a < 0.
Proof.
  intros Htot. pose proof (cmp_antisym cmp Htot a b) as Hs.
  destruct (cmp a b), (cmp b a); simpl in Hs; lia.
Qed.

Lemma elems_tinsert cmp new (d : V) t x :
  x ∈ elems (tinsert cmp new d t) → x = d ∨ x ∈ elems t.
Proof.
  induction t as [|l IHl b y r IHr]; simpl.
  - set_solver.
  - destruct (cmp d y <? 0); [|destruct (cmp d y >? 0)]; simpl; set_solver.
Qed.

Lemma bst_tinsert cmp new (d : V) t : bst cmp t → bst cmp (tinsert cmp new d t).
Proof.
  induction t as [|l IHl b y r IHr]; simpl.
  - intros _. split_and!; constructor.
  - intros (Hl & Hr & Hbl & Hbr).
    destruct (cmp d y <? 0) eqn:Hlt; [|destruct (cmp d y >? 0) eqn:Hgt]; simpl.
    + split_and!; [|done|by apply IHl|done].
      apply Forall_forall. intros x Hx.
      destruct (elems_tinsert _ _ _ _ _ Hx) as [->|Hx']; [lia|].
      by eapply Forall_forall in Hl.
    + split_and!; [done| |done|by apply IHr].
      apply Forall_forall. intros x Hx.
      destruct (elems_tinsert _ _ _ _ _ Hx) as [->|Hx']; [lia|].
      by eapply Forall_forall in Hr.
    + done.
Qed.

Lemma bst_ascending cmp t : total_cmp cmp → bst cmp t → ascending cmp (elems t).
Proof.
  intros Htot. unfold ascending.
  induction t as [|l IHl b y r IHr]; simpl; [constructor|].
  intros (Hl & Hr & Hbl & Hbr).
  rewrite Forall_forall in Hl. rewrite Forall_forall in Hr.
  apply StronglySorted_app_2; [|auto|].
  - intros x1 x2 Hx1 Hx2. apply elem_of_cons in Hx2 as [->|Hx2].
    + by apply Hl.
    + eapply (cmp_trans cmp Htot); [by apply Hl|].
      apply cmp_flip; [done|]. by apply Hr.
  - apply StronglySorted_cons. split; [|auto].
    apply Forall_forall. intros x Hx. apply cmp_flip; [done|]. by apply Hr.
Qed.

Lemma ascending_bst cmp t : total_cmp cmp → ascending cmp (elems t) → bst cmp t.
Proof.
  intros Htot. unfold ascending.
  induction t as [|l IHl b y r IHr]; simpl; [done|].
  rewrite StronglySorted_app, StronglySorted_cons.
  intros (Hcross & Hl & Hy & Hr). split_and!; auto.
  - apply Forall_forall. intros x Hx. apply Hcross; [done|]. left.
  - rewrite Forall_forall in Hy. apply Forall_forall. intros x Hx.
    apply cmp_flip; [done|]. by apply Hy.
Qed.

Lemma ascending_drop cmp (l1 l2 : list V) x :
  ascending cmp (l1 ++ x :: l2) → ascending cmp (l1 ++ l2).
Proof.
  unfold ascending. rewrite !StronglySorted_app, StronglySorted_cons.
  intros (Hcross & Hl1 & _ & Hl2). split_and!; [|done|done].
  intros x1 x2 Hx1 Hx2. apply Hcross; [done|]. by right.
Qed.

Lemma ascending_lookup cmp (xs : list V) i j x y :
  ascending cmp xs → xs !! i = Some x → xs !! j = Some y → (i < j)%nat →
  cmp x y < 0.
Proof.
  unfold ascending. intros Hs. revert i j.
  induction Hs as [|z xs Hs IH Hz]; intros i j Hi Hj Hlt; [done|].
  destruct j as [|j]; [lia|]. destruct i as [|i].
  - simpl in Hi, Hj. injection Hi as ->.
    rewrite Forall_forall in Hz. apply Hz. by eapply list_elem_of_lookup_2.
  - simpl in Hi, Hj. apply (IH i j); [done|done|lia].
Qed.

(** *** Removal on shapes *)

Lemma tmin_spec t :
  t ≠ Leaf →
  ∃ sa (sd : V), tmin t = Some (sa, sd) ∧
    addrs t = sa :: addrs (tdelete_min t) ∧
    elems t = sd :: elems (tdelete_min t).
Proof.
  induction t as [|l IHl a d r _]; [done|]. intros _.
  destruct l as [|ll la ld lr].
  - exists a, d. done.
  - destruct IHl as (sa & sd & Hmin & Ha & He); [done|].
    exists sa, sd. split; [done|].
    change (addrs (Node (Node ll la ld lr) a d r))
      with (addrs (Node ll la ld lr) ++ a :: addrs r).
    change (elems (Node (Node ll la ld lr) a d r))
      with (elems (Node ll la ld lr) ++ d :: elems r).
    rewrite Ha, He. done.
Qed.

Lemma tremove_root_elems l a (d : V) r :
  elems (tremove_root (Node l a d r)) = elems l ++ elems r.
Proof.
  destruct l as [|ll la ld lr]; [done|].
  destruct r as [|rl ra rd rr]; [simpl; by rewrite app_nil_r|].
  destruct (tmin_spec (Node rl ra rd rr)) as (sa & sd & Hmin & Ha & He); [done|].
  unfold tremove_root. rewrite Hmin. rewrite He. done.
Qed.

(** The addresses of a shape after the removal at its root: one node is
    gone (the root, or the leftmost node of the right subtree), the others
    stay. *)
Lemma tremove_root_addrs l a (d : V) r :
  ∃ gone, gone ∈ addrs (Node l a d r) ∧
    addrs (Node l a d r) ≡ₚ gone :: addrs (tremove_root (Node l a d r)).
Proof.
  destruct l as [|ll la ld lr].
  { exists a. split; [set_solver|]. done. }
  destruct r as [|rl ra rd rr].
  { exists a. split; [set_solver|]. simpl.
    by rewrite <-Permutation_middle, app_nil_r. }
  destruct (tmin_spec (Node rl ra rd rr)) as (sa & sd & Hmin & Ha & He); [done|].
  exists sa. unfold tremove_root. rewrite Hmin.
  change (addrs (Node (Node ll la ld lr) a d (Node rl ra rd rr)))
    with (addrs (Node ll la ld lr) ++ a :: addrs (Node rl ra rd rr)).
  change (addrs (Node (Node ll la ld lr) a sd (tdelete_min (Node rl ra rd rr))))
    with (addrs (Node ll la ld lr) ++ a :: addrs (tdelete_min (Node rl ra rd rr))).
  rewrite Ha. split; [set_solver|].
  rewrite <-!Permutation_middle. apply perm_swap.
Qed.

Lemma tremove_absent cmp (target : V) t :
  thas cmp target t = false → tremove cmp target t = t.
Proof.
  induction t as [|l IHl a d r IHr]; [done|].
  rewrite thas_node. simpl.
  destruct (cmp target d <? 0); [|destruct (cmp target d >? 0)]; intros Hh; [| |done].
  - by rewrite IHl.
  - by rewrite IHr.
Qed.

Lemma tremove_elems cmp (target : V) t :
  thas cmp target t = true →
  ∃ xs1 x xs2, cmp target x = 0 ∧ elems t = xs1 ++ x :: xs2 ∧
    elems (tremove cmp target t) = xs1 ++ xs2.
Proof.
  induction t as [|l IHl a d r IHr]; [done|].
  rewrite thas_node. simpl.
  destruct (cmp target d <? 0) eqn:Hlt; [|destruct (cmp target d >? 0) eqn:Hgt];
    intros Hh.
  - destruct (IHl Hh) as (xs1 & x & xs2 & Hx & He & He').
    exists xs1, x, (xs2 ++ d :: elems r). split; [done|]. simpl.
    rewrite He, He'. by rewrite <-!app_assoc.
  - destruct (IHr Hh) as (xs1 & x & xs2 & Hx & He & He').
    exists (elems l ++ d :: xs1), x, xs2. split; [done|]. simpl.
    rewrite He, He'. by rewrite <-!app_assoc.
  - exists (elems l), d, (elems r). split; [lia|]. split; [done|].
    apply tremove_root_elems.
Qed.

Lemma tremove_addrs cmp (target : V) t :
  thas cmp target t = true →
  ∃ gone, gone ∈ addrs t ∧ addrs t ≡ₚ gone :: addrs (tremove cmp target t).
Proof.
  induction t as [|l IHl a d r IHr]; [done|].
  rewrite thas_node.
  change (tremove cmp target (Node l a d r)) with
    (if cmp target d <? 0 then Node (tremove cmp target l) a d r
     else if cmp target d >? 0 then Node l a d (tremove cmp target r)
     else tremove_root (Node l a d r)).
  destruct (cmp target d <? 0) eqn:Hlt; [|destruct (cmp target d >? 0) eqn:Hgt];
    intros Hh.
  - destruct (IHl Hh) as (g & Hg & Hp). exists g. simpl. split; [set_solver|].
    by rewrite Hp.
  - destruct (IHr Hh) as (g & Hg & Hp). exists g. simpl. split; [set_solver|].
    rewrite Hp. rewrite <-!Permutation_middle. apply perm_swap.
  - apply tremove_root_addrs.
Qed.

Lemma bst_tremove cmp (target : V) t :
  total_cmp cmp → bst cmp t → bst cmp (tremove cmp target t).
Proof.
  intros Htot Hbst. destruct (thas cmp target t) eqn:Hh.
  - destruct (tremove_elems cmp target t Hh) as (xs1 & x & xs2 & _ & He & He').
    apply ascending_bst; [done|]. rewrite He'. apply (ascending_drop cmp xs1 xs2 x).
    rewrite <-He. by apply bst_ascending.
  - by rewrite tremove_absent.
Qed.

(** *** Removal on the heap *)

Lemma slot_node_id (s : slot) (pn : ds_tree_node V) T h v :
  slot_ok T h s pn v → slot_node s pn v = pn.
Proof.
  destruct pn as [d lp rp]. destruct s; simpl; [done| |].
  - intros [_ <-]. done.
  - intros (_ & <- & _). done.
Qed.

Lemma replace_child_spec T h s pn c v :
  slot_ok T h s pn (Some c) →
  ∃ T' h1, replace_child T h (slot_parent s) c v = Some (T', h1) ∧
    slot_stored T T' h1 s pn v ∧
    (∀ a, Some a ≠ slot_parent s → h1 !! a = h !! a).
Proof.
  destruct s as [|p|p]; simpl.
  - intros _. eexists _, _. done.
  - intros [Hp Hl]. rewrite Hp. simpl. rewrite decide_True by done.
    eexists _, _. split; [done|]. split.
    + split; [done|]. by rewrite lookup_insert_eq.
    + intros a Ha. rewrite lookup_insert_ne; [done|]. congruence.
  - intros (Hp & Hr & Hne). rewrite Hp. simpl.
    rewrite decide_False by (apply Hne; done).
    eexists _, _. split; [done|]. split.
    + split; [done|]. by rewrite lookup_insert_eq.
    + intros a Ha. rewrite lookup_insert_ne; [done|]. congruence.
Qed.

Lemma successor_loop_spec h r : ∀ fuel par ra,
  ptr_of r = Some ra → tree_repr h r → (height r ≤ fuel)%nat →
  ∃ sa (sd : V), tmin r = Some (sa, sd) ∧
    successor_loop fuel h ra par = Some (sa, tmin_parent par r).
Proof.
  induction r as [|l IHl a d rr _]; [done|].
  intros fuel par ra [= <-] (Ha & Hl & Hrr) Hfuel.
  destruct fuel as [|fuel]; [simpl in Hfuel; lia|]. simpl in Hfuel.
  simpl. rewrite Ha. simpl. destruct l as [|ll la ld lr].
  - exists a, d. done.
  - apply (IHl fuel a la); [done|done|lia].
Qed.

Lemma unlink_ne h sp sa spn sn a : a ≠ sp → unlink h sp sa spn sn !! a = h !! a.
Proof.
  intros Hne. unfold unlink.
  destruct (decide (n_left spn = Some sa)); by rewrite lookup_insert_ne.
Qed.

(** Unlinking the leftmost node of a represented subtree [r] that hangs in
    the slot [s] of a parent [p] outside of it. *)
Lemma unlink_min_spec T h r : ∀ s p pn,
  r ≠ Leaf → slot_parent s = Some p →
  tree_repr h r → NoDup (addrs r) → slot_ok T h s pn (ptr_of r) →
  p ∉ addrs r →
  ∃ sa (sd : V) sn spn,
    tmin r = Some (sa, sd) ∧ h !! sa = Some sn ∧
    n_data sn = sd ∧ n_left sn = None ∧
    h !! tmin_parent p r = Some spn ∧
    tree_repr (unlink h (tmin_parent p r) sa spn sn) (tdelete_min r) ∧
    unlink h (tmin_parent p r) sa spn sn !! p
      = Some (slot_node s pn (ptr_of (tdelete_min r))) ∧
    (tmin_parent p r = p ∨ tmin_parent p r ∈ addrs r) ∧
    tmin_parent p r ≠ sa ∧
    (tmin_parent p r = p ∧ ptr_of r = Some sa ∨
     tmin_parent p r ≠ p ∧ n_left spn = Some sa).
Proof.
  induction r as [|l IHl a d rr _]; [done|].
  intros s p pn _ Hsp (Ha & Hl & Hrr) Hnd Hslot Hp.
  destruct (nodup_node l a d rr Hnd) as (Hndl & Hndr & Hal & Har & Hdisj).
  assert (p ≠ a) as Hpa by (simpl in Hp; set_solver).
  destruct l as [|ll la ld lr].
  - exists a, d, (mk_node d None (ptr_of rr)), pn. simpl.
    assert (h !! p = Some pn) as Hpn.
    { destruct s; simpl in Hsp, Hslot; simplify_eq; naive_solver. }
    split_and!; [done|done|done|done|done| | |by left|done|by left].
    + apply tree_repr_agree with h; [|done]. intros b Hb.
      apply unlink_ne. intros ->. simpl in Hp. set_solver.
    + unfold unlink. simpl. destruct s as [|p'|p']; simpl in Hsp, Hslot; [done| |].
      * simplify_eq. destruct Hslot as [_ Hlft]. rewrite decide_True by done.
        by rewrite lookup_insert_eq.
      * simplify_eq. destruct Hslot as (_ & _ & Hne).
        rewrite decide_False by (apply Hne; done).
        by rewrite lookup_insert_eq.
  - destruct (IHl (SLeft a) a (mk_node d (Some la) (ptr_of rr)))
      as (sa & sd & sn & spn & Hmin & Hsa & Hsd & Hsl & Hspn & Hrep' & Hpa' & Hin & Hne & Hdir);
      [done|done|done|done|done|done|].
    set (sp := tmin_parent a (Node ll la ld lr)) in *.
    assert (sp ∈ addrs (Node (Node ll la ld lr) a d rr)) as Hspin.
    { destruct Hin as [->|Hin]; simpl; set_solver. }
    exists sa, sd, sn, spn.
    change (tmin_parent p (Node (Node ll la ld lr) a d rr)) with sp.
    change (tdelete_min (Node (Node ll la ld lr) a d rr))
      with (Node (tdelete_min (Node ll la ld lr)) a d rr).
    change (tmin (Node (Node ll la ld lr) a d rr)) with (tmin (Node ll la ld lr)).
    assert (sp ≠ p) as Hspp by (intros ->; done).
    split_and!; [done|done|done|done|done| | |by right|done|].
    + split_and!; [exact Hpa'|done|].
      apply tree_repr_agree with h; [|done]. intros b Hb.
      apply unlink_ne. intros ->. destruct Hin as [Heq|Hin].
      * rewrite Heq in Hb. done.
      * by apply (Hdisj sp).
    + rewrite unlink_ne by done.
      rewrite (slot_node_id s pn T h) by done.
      destruct s; simpl in Hsp, Hslot; simplify_eq; naive_solver.
    + right. split; [done|]. destruct Hdir as [[Heq Hla]|[_ Hlft]]; [|done].
      rewrite Heq in Hspn. simplify_eq. done.
Qed.

(** Case 3 of [ds_tree_remove] at a represented node [b] with two
    children: the successor [sa] is the leftmost node of the right subtree,
    its payload reference is stored in [b], its right link is stored in the
    field of its parent that pointed to it, and its block is released. *)
Lemma remove_node_two T h par l b (x : V) r fuel :
  l ≠ Leaf → r ≠ Leaf →
  tree_repr h (Node l b x r) → NoDup (addrs (Node l b x r)) →
  (height (Node l b x r) < fuel)%nat →
  ∃ sa sd sn h',
    tmin r = Some (sa, sd) ∧ h !! sa = Some sn ∧ n_data sn = sd ∧
    n_left sn = None ∧
    remove_node fuel T h par b = Some (T, h') ∧
    h' !! b = Some (mk_node sd (ptr_of l) (ptr_of (tdelete_min r))) ∧
    h' !! sa = None ∧
    tree_repr h' (Node l b sd (tdelete_min r)) ∧
    (∀ a, a ∉ addrs (Node l b x r) → h' !! a = h !! a) ∧
    (ptr_of r = Some sa ∧ ptr_of (tdelete_min r) = n_right sn ∨
     ∃ sp spn, sp ∈ addrs r ∧ sp ≠ sa ∧ h !! sp = Some spn ∧
       n_left spn = Some sa ∧ h' !! sp = Some (set_left spn (n_right sn))).
Proof.
  intros Hl0 Hr0 (Hb & Hl & Hr) Hnd Hfuel.
  destruct (nodup_node l b x r Hnd) as (Hndl & Hndr & Hbl & Hbr & Hdisj).
  destruct (tmin_spec r Hr0) as (sa & sd & Hmin & Haddrs & Helems).
  assert (sa ∈ addrs r) as Hsa by (rewrite Haddrs; left).
  assert (sa ∉ addrs (tdelete_min r)) as Hsa'.
  { rewrite Haddrs in Hndr. by apply NoDup_cons in Hndr as [? _]. }
  assert (sa ≠ b) as Hsab by (intros ->; done).
  destruct (tree_repr_dom h r sa Hr Hsa) as [sn Hsn].
  set (cn1 := mk_node (n_data sn) (ptr_of l) (ptr_of r)).
  set (h1 := <[b := cn1]> h).
  assert (tree_repr h1 r) as Hr1 by by apply tree_repr_insert.
  assert (slot_ok T h1 (SRight b) cn1 (ptr_of r)) as Hslot.
  { simpl. split_and!; [apply lookup_insert_eq|done|].
    intros [ra Hra] Heq. destruct l as [|ll la ld lr]; [done|].
    simpl in Heq. rewrite Hra in Heq. simplify_eq.
    destruct r as [|rl ra' rd rr]; [done|]. simpl in Hra. simplify_eq.
    apply (Hdisj ra); simpl; set_solver. }
  destruct (unlink_min_spec T h1 r (SRight b) b cn1 Hr0 eq_refl Hr1 Hndr Hslot Hbr)
    as (sa' & sd' & sn' & spn & Hmin' & Hsn' & Hsd & Hsl & Hspn & Hrep' & Hstored
        & Hin & Hne & Hdir).
  rewrite Hmin in Hmin'. injection Hmin' as <- <-.
  unfold h1 in Hsn'. rewrite lookup_insert_ne in Hsn' by done.
  rewrite Hsn in Hsn'. injection Hsn' as <-.
  set (sp := tmin_parent b r) in *.
  set (h2 := unlink h1 sp sa spn sn) in *.
  assert (sp = b ∨ sp ∈ addrs r) as Hin' by done.
  exists sa, sd, sn, (delete sa h2).
  split_and!; [done|done|done|done| | | | | |].
  - assert (∃ la, ptr_of l = Some la) as [la Hla] by (destruct l; [done|eauto]).
    assert (∃ ra, ptr_of r = Some ra) as [ra Hra] by (destruct r; [done|eauto]).
    destruct (successor_loop_spec h r fuel b ra Hra Hr)
      as (sa2 & sd2 & Hmin2 & Hloop); [simpl in Hfuel; lia|].
    rewrite Hmin in Hmin2. injection Hmin2 as <- <-.
    unfold remove_node. rewrite Hb. simpl. rewrite Hla, Hra.
    rewrite Hloop. simpl. rewrite Hsn. simpl. fold sp.
    replace (<[b := set_data (mk_node x (Some la) (Some ra)) (n_data sn)]> h)
      with h1 by (unfold h1, cn1; rewrite Hla, Hra; done).
    rewrite Hspn. simpl. done.
  - rewrite lookup_delete_ne by done. rewrite Hstored. unfold cn1. simpl. by rewrite Hsd.
  - apply lookup_delete_eq.
  - split_and!.
    + rewrite lookup_delete_ne by done. rewrite Hstored. unfold cn1. simpl. by rewrite Hsd.
    + apply tree_repr_delete; [intros Hx; by apply (Hdisj sa)|].
      apply tree_repr_agree with h; [|done]. intros a Ha.
      unfold h2. rewrite unlink_ne.
      * unfold h1. apply lookup_insert_ne. intros ->. done.
      * intros ->. destruct Hin' as [->|Hin']; [done|]. by apply (Hdisj sp).
    + by apply tree_repr_delete.
  - intros a Ha. simpl in Ha.
    rewrite lookup_delete_ne by (intros ->; set_solver).
    unfold h2. rewrite unlink_ne.
    + unfold h1. apply lookup_insert_ne. intros ->. set_solver.
    + intros ->. destruct Hin' as [->|Hin']; set_solver.
  - destruct Hdir as [[Hsp Hptr]|[Hsp Hlft]].
    + left. split; [done|].
      assert (n_left cn1 ≠ Some sa) as Hnl.
      { simpl. intros Heq. destruct l as [|ll la ld lr]; [done|].
        simpl in Heq. injection Heq as ->. apply (Hdisj sa); [|done].
        simpl. set_solver. }
      unfold h2, unlink in Hstored. unfold sp in Hstored, Hspn, Hsp.
      rewrite Hsp in Hstored, Hspn.
      unfold h1 in Hspn. rewrite lookup_insert_eq in Hspn. injection Hspn as <-.
      rewrite decide_False in Hstored by done.
      rewrite lookup_insert_eq in Hstored. simpl in Hstored. by simplify_eq.
    + right. destruct Hin' as [->|Hin']; [done|].
      assert (sp ≠ b) as Hspb by done.
      exists sp, spn. split_and!; [done|done| |done|].
      * unfold h1 in Hspn. by rewrite lookup_insert_ne in Hspn.
      * rewrite lookup_delete_ne by done. unfold h2, unlink.
        rewrite decide_True by done. apply lookup_insert_eq.
Qed.

(** The code after the search loop, at a represented node [b] that hangs
    in the slot [s]: it returns, the heap stands for [tremove_root] with
    the slot pointing to it, the removed block is released and no block
    outside of the subtree and its parent is written. *)
Lemma remove_node_spec T h s pn l b (x : V) r fuel :
  tree_repr h (Node l b x r) → NoDup (addrs (Node l b x r)) →
  slot_ok T h s pn (Some b) →
  (∀ p, slot_parent s = Some p → p ∉ addrs (Node l b x r)) →
  (height (Node l b x r) < fuel)%nat →
  ∃ T' h', remove_node fuel T h (slot_parent s) b = Some (T', h') ∧
    tree_repr h' (tremove_root (Node l b x r)) ∧
    slot_stored T T' h' s pn (ptr_of (tremove_root (Node l b x r))) ∧
    (∀ a, a ∉ addrs (Node l b x r) → Some a ≠ slot_parent s → h' !! a = h !! a) ∧
    (∀ a, a ∈ addrs (Node l b x r) → a ∉ addrs (tremove_root (Node l b x r)) →
       h' !! a = None).
Proof.
  intros Hrep Hnd Hslot Hpar Hfuel.
  destruct (nodup_node l b x r Hnd) as (Hndl & Hndr & Hbl & Hbr & Hdisj).
  assert (∀ t', (∀ a, a ∈ addrs t' → a ∈ addrs l ∨ a ∈ addrs r) →
    tree_repr h t' →
    ∃ T' h', ('(T0, h0) ← replace_child T h (slot_parent s) b (ptr_of t');
              Some (T0, delete b h0)) = Some (T', h') ∧
      tree_repr h' t' ∧ slot_stored T T' h' s pn (ptr_of t') ∧
      (∀ a, a ∉ addrs (Node l b x r) → Some a ≠ slot_parent s → h' !! a = h !! a) ∧
      h' !! b = None) as Hsimple.
  { intros t' Hsub Hrep'.
    destruct (replace_child_spec T h s pn b (ptr_of t') Hslot)
      as (T' & h1 & Hrc & Hst & Hfr).
    rewrite Hrc. simpl. eexists _, _. split; [done|]. split_and!.
    - apply tree_repr_agree with h; [|done]. intros a Ha.
      assert (a ≠ b) by (intros ->; destruct (Hsub b Ha); done).
      rewrite lookup_delete_ne by done. apply Hfr. intros Heq.
      symmetry in Heq. apply Hpar in Heq. apply Heq. simpl.
      destruct (Hsub a Ha); set_solver.
    - destruct s as [|p|p]; simpl in Hst |- *; [done| |];
        (destruct Hst as [-> Hp]; split; [done|];
         rewrite lookup_delete_ne; [done|]; intros <-;
         apply (Hpar b eq_refl); simpl; set_solver).
    - intros a Ha Hne. rewrite lookup_delete_ne by (intros ->; simpl in Ha; set_solver).
      by apply Hfr.
    - apply lookup_delete_eq. }
  destruct Hrep as (Hb & Hl & Hr).
  destruct l as [|ll la ld lr]; [|destruct r as [|rl ra rd rr]].
  - (* no left child: case 1 or case 2 with the right child *)
    destruct (Hsimple r) as (T' & h' & Hrun & Hrep' & Hst & Hfr & Hgone);
      [auto|done|].
    exists T', h'. split_and!; [|done|done|done|].
    + unfold remove_node. rewrite Hb. simpl. by destruct r.
    + intros a Ha Ha'. simpl in Ha, Ha'. assert (a = b) as -> by set_solver. done.
  - (* only a left child: case 2 *)
    destruct (Hsimple (Node ll la ld lr)) as (T' & h' & Hrun & Hrep' & Hst & Hfr & Hgone);
      [auto|done|].
    exists T', h'. split_and!; [|done|done|done|].
    + unfold remove_node. rewrite Hb. simpl. done.
    + intros a Ha Ha'. simpl in Ha, Ha'. assert (a = b) as -> by set_solver. done.
  - (* two children: case 3 *)
    destruct (remove_node_two T h (slot_parent s) (Node ll la ld lr) b x
                (Node rl ra rd rr) fuel)
      as (sa & sd & sn & h' & Hmin & Hsn & Hsd & Hsl & Hrun & Hb' & Hsa & Hrep'
          & Hfr & _); [done|done|by split_and!|done|done|].
    destruct (tmin_spec (Node rl ra rd rr)) as (sa2 & sd2 & Hmin2 & Haddrs & _);
      [done|].
    rewrite Hmin in Hmin2. injection Hmin2 as <- <-.
    exists T, h'. unfold tremove_root. rewrite Hmin.
    split_and!; [done|done| | |].
    + destruct s as [|p|p]; simpl in Hslot |- *.
      * destruct T. simpl in Hslot. by subst.
      * split; [done|]. destruct Hslot as [Hp Hlft].
        rewrite Hfr by (apply Hpar; done). rewrite Hp.
        destruct pn. simpl in Hlft. by subst.
      * split; [done|]. destruct Hslot as (Hp & Hrgt & _).
        rewrite Hfr by (apply Hpar; done). rewrite Hp.
        destruct pn. simpl in Hrgt. by subst.
    + intros a Ha _. by apply Hfr.
    + intros a Ha Ha'.
      change (addrs (Node (Node ll la ld lr) b x (Node rl ra rd rr)))
        with (addrs (Node ll la ld lr) ++ b :: addrs (Node rl ra rd rr)) in Ha.
      change (addrs (Node (Node ll la ld lr) b sd (tdelete_min (Node rl ra rd rr))))
        with (addrs (Node ll la ld lr) ++ b :: addrs (tdelete_min (Node rl ra rd rr)))
        in Ha'.
      rewrite Haddrs in Ha. assert (a = sa) as -> by set_solver. done.
Qed.

Lemma ptr_of_in (t : tree V) a : ptr_of t = Some a → a ∈ addrs t.
Proof. destruct t; [done|]. intros [= ->]. simpl. set_solver. Qed.

Lemma slot_stored_same T h h' s pn b :
  slot_ok T h s pn (Some b) →
  (∀ p, slot_parent s = Some p → h' !! p = h !! p) →
  slot_stored T T h' s pn (Some b).
Proof.
  intros Hslot Hsame. pose proof (slot_node_id s pn T h (Some b) Hslot) as Hid.
  destruct s as [|p|p]; simpl in Hslot |- *.
  - destruct T. simpl in Hslot. by subst.
  - split; [done|]. simpl in Hid. rewrite Hid, Hsame by done. by destruct Hslot.
  - split; [done|]. simpl in Hid. rewrite Hid, Hsame by done. by destruct Hslot.
Qed.

(** The search loop of [ds_tree_remove] below a represented subtree that
    hangs in the slot [s], followed by the removal code at the node found:
    the loop ends at the node where the descent on the shape stops, and the
    removal leaves a heap that stands for [tremove]. *)
Lemma remove_spec cmp (target : V) fuel2 t : ∀ T h s pn fuel,
  tree_repr h t → NoDup (addrs t) → slot_ok T h s pn (ptr_of t) →
  (∀ p, slot_parent s = Some p → p ∉ addrs t) →
  (height t < fuel)%nat → (height t < fuel2)%nat →
  ∃ par,
    remove_loop fuel cmp target h (ptr_of t) (slot_parent s)
      = Some (ptr_of (tlookup cmp target t), par) ∧
    match ptr_of (tlookup cmp target t) with
    | None => True
    | Some c =>
      ∃ T' h', remove_node fuel2 T h par c = Some (T', h') ∧
        tree_repr h' (tremove cmp target t) ∧
        slot_stored T T' h' s pn (ptr_of (tremove cmp target t)) ∧
        (∀ a, a ∉ addrs t → Some a ≠ slot_parent s → h' !! a = h !! a) ∧
        (∀ a, a ∈ addrs t → a ∉ addrs (tremove cmp target t) → h' !! a = None)
    end.
Proof.
  induction t as [|l IHl b x r IHr]; intros T h s pn fuel Hrep Hnd Hslot Hpar Hf Hf2.
  { destruct fuel; [simpl in Hf; lia|]. exists (slot_parent s). done. }
  destruct fuel as [|fuel]; [simpl in Hf; lia|].
  pose proof Hrep as (Hb & Hl & Hr).
  destruct (nodup_node l b x r Hnd) as (Hndl & Hndr & Hbl & Hbr & Hdisj).
  set (bn := mk_node x (ptr_of l) (ptr_of r)) in *.
  change (tlookup cmp target (Node l b x r)) with
    (if cmp target x <? 0 then tlookup cmp target l
     else if cmp target x >? 0 then tlookup cmp target r else Node l b x r).
  change (tremove cmp target (Node l b x r)) with
    (if cmp target x <? 0 then Node (tremove cmp target l) b x r
     else if cmp target x >? 0 then Node l b x (tremove cmp target r)
     else tremove_root (Node l b x r)).
  cbn [remove_loop ptr_of]. rewrite Hb. cbn [mbind option_bind n_data n_left n_right bn].
  simpl in Hf, Hf2.
  assert (∀ p, slot_parent s = Some p → (p ∉ addrs l) ∧ p ≠ b ∧ (p ∉ addrs r)) as Hpar'.
  { intros p Hp. specialize (Hpar p Hp). simpl in Hpar. set_solver. }
  destruct (cmp target x <? 0) eqn:Hlt; [|destruct (cmp target x >? 0) eqn:Hgt].
  - destruct (IHl T h (SLeft b) bn fuel) as (par & Hloop & Hfound);
      [done|done|by split|by intros p [= <-]|lia|lia|].
    exists par. split; [exact Hloop|].
    destruct (ptr_of (tlookup cmp target l)) as [c|]; [|done].
    destruct Hfound as (T' & h' & Hrun & Hrep' & [-> Hb'] & Hfr & Hgone).
    exists T, h'. split; [done|]. split_and!.
    + split_and!; [exact Hb'|done|].
      apply tree_repr_agree with h; [|done]. intros a Ha. apply Hfr.
      * intros Hal. by apply (Hdisj a).
      * simpl. intros [= ->]. done.
    + apply slot_stored_same with h; [done|]. intros p Hp.
      destruct (Hpar' p Hp) as (? & ? & ?). apply Hfr; [done|].
      simpl. congruence.
    + intros a Ha Hne. simpl in Ha. apply Hfr; [set_solver|].
      simpl. intros [= ->]. set_solver.
    + intros a Ha Ha'. simpl in Ha, Ha'. apply Hgone; set_solver.
  - destruct (IHr T h (SRight b) bn fuel) as (par & Hloop & Hfound);
      [done|done| |by intros p [= <-]|lia|lia|].
    { split_and!; [done|done|]. intros [ra Hra]. simpl. rewrite Hra.
      intros Hla. apply ptr_of_in in Hla, Hra. by apply (Hdisj ra). }
    exists par. split; [exact Hloop|].
    destruct (ptr_of (tlookup cmp target r)) as [c|]; [|done].
    destruct Hfound as (T' & h' & Hrun & Hrep' & [-> Hb'] & Hfr & Hgone).
    exists T, h'. split; [done|]. split_and!.
    + split_and!; [exact Hb'| |done].
      apply tree_repr_agree with h; [|done]. intros a Ha. apply Hfr.
      * by apply Hdisj.
      * simpl. intros [= ->]. done.
    + apply slot_stored_same with h; [done|]. intros p Hp.
      destruct (Hpar' p Hp) as (? & ? & ?). apply Hfr; [done|].
      simpl. congruence.
    + intros a Ha Hne. simpl in Ha. apply Hfr; [set_solver|].
      simpl. intros [= ->]. set_solver.
    + intros a Ha Ha'. simpl in Ha, Ha'. apply Hgone; set_solver.
  - exists (slot_parent s). split; [done|]. cbn [ptr_of].
    apply remove_node_spec; [done|done|done|done|simpl; lia].
Qed.

Lemma nodup_tremove cmp (target : V) t :
  NoDup (addrs t) → NoDup (addrs (tremove cmp target t)).
Proof.
  intros Hnd. destruct (thas cmp target t) eqn:Hh.
  - destruct (tremove_addrs cmp target t Hh) as (g & _ & Hp).
    rewrite Hp in Hnd. by apply NoDup_cons in Hnd as [_ ?].
  - by rewrite tremove_absent.
Qed.

(** [ds_tree_remove] on a live tree: it returns; with no equal key on the
    descent path the status is [DS_ERR_NOTFOUND] and nothing changes;
    otherwise the status is [DS_OK], the heap stands for [tremove], the
    count is decremented, the block of the removed node is released and
    no block outside of the tree is written. *)
Lemma ds_tree_remove_shape cmp (target : V) h T t :
  tree_shape h T t →
  if thas cmp target t then
    ∃ T' h',
      ds_tree_remove (Some T) (Some target) (Some cmp) h
        = Some (DS_OK, Some T', h') ∧
      tree_shape h' T' (tremove cmp target t) ∧
      t_size T' = size_decr (t_size T) ∧
      (∀ a, a ∉ addrs t → h' !! a = h !! a) ∧
      (∀ a, a ∈ addrs t → a ∉ addrs (tremove cmp target t) → h' !! a = None) ∧
      (∃ c par, ptr_of (tlookup cmp target t) = Some c ∧
         remove_node (S (size h)) T h par c
           = Some (mk_tree (t_root T') (t_size T), h'))
  else
    ds_tree_remove (Some T) (Some target) (Some cmp) h
      = Some (DS_ERR_NOTFOUND, Some T, h).
Proof.
  intros [Hroot Hrep Hnd]. unfold ds_tree_remove. rewrite Hroot.
  destruct t as [|l b x r]; [done|].
  set (t := Node l b x r) in *.
  pose proof (fuel_enough h t Hrep Hnd) as Hfuel.
  destruct (remove_spec cmp target (S (size h)) t T h SRoot (mk_node x None None)
              (S (size h)) Hrep Hnd Hroot ltac:(done) Hfuel Hfuel)
    as (par & Hloop & Hfound).
  change (slot_parent SRoot) with (@None addr) in Hloop. rewrite Hloop.
  unfold thas. cbn [mbind option_bind].
  destruct (tlookup cmp target t) as [|fl c fx fr] eqn:Hlook; [done|].
  cbn [ptr_of] in *.
  destruct Hfound as (T' & h' & Hrun & Hrep' & Hst & Hfr & Hgone).
  rewrite Hrun. simpl in Hst. subst T'. cbn [mbind option_bind t_root t_size].
  eexists _, _. split; [done|]. split_and!; [|done| |done|].
  - split; [done|done|]. by apply nodup_tremove.
  - intros a Ha. by apply Hfr.
  - exists c, par. by split.
Qed.

(** *** Traversal and reachability *)

Lemma inorder_repr h t : ∀ fuel,
  tree_repr h t → (height t < fuel)%nat →
  inorder fuel h (ptr_of t) = Some (elems t).
Proof.
  induction t as [|l IHl b x r IHr]; intros fuel Hrep Hf.
  - destruct fuel; [simpl in Hf; lia|]. done.
  - destruct fuel as [|fuel]; [simpl in Hf; lia|]. simpl in Hf.
    destruct Hrep as (Hb & Hl & Hr). simpl. rewrite Hb. simpl.
    rewrite IHl by (done || lia). simpl. rewrite IHr by (done || lia). done.
Qed.

Lemma reachable_addrs h t a :
  tree_repr h t → reachable h (ptr_of t) a ↔ a ∈ addrs t.
Proof.
  intros Hrep. split.
  - intros Hreach. remember (ptr_of t) as p eqn:Hp.
    revert t Hrep Hp. induction Hreach as [a n Ha|a n b Ha Hreach IH|a n b Ha Hreach IH];
      intros t Hrep Hp.
    + symmetry in Hp. by apply ptr_of_in.
    + destruct t as [|l c x r]; [done|]. injection Hp as ->.
      destruct Hrep as (Hc & Hl & Hr). rewrite Hc in Ha. injection Ha as <-.
      simpl. apply elem_of_app. left. by apply (IH l).
    + destruct t as [|l c x r]; [done|]. injection Hp as ->.
      destruct Hrep as (Hc & Hl & Hr). rewrite Hc in Ha. injection Ha as <-.
      simpl. apply elem_of_app. right. right. by apply (IH r).
  - induction t as [|l IHl c x r IHr]; simpl; [set_solver|].
    destruct Hrep as (Hc & Hl & Hr).
    rewrite elem_of_app, elem_of_cons. intros [Hin|[->|Hin]].
    + eapply reach_left; [exact Hc|]. by apply IHl.
    + by eapply reach_here.
    + eapply reach_right; [exact Hc|]. by apply IHr.
Qed.

(** The two static helpers of tree.c on a represented subtree. *)
Lemma mod_add3 (m a b : Z) :
  (1 + a mod m + b mod m) mod m = (1 + a + b) mod m.
Proof.
  destruct (decide (m = 0)) as [->|Hm]; [by rewrite !Z.mod_0_r|].
  rewrite Z.add_mod_idemp_r by done.
  replace (1 + a mod m + b) with (1 + b + a mod m) by lia.
  rewrite Z.add_mod_idemp_r by done. f_equal. lia.
Qed.

Lemma count_nodes_repr h t : ∀ fuel,
  tree_repr h t → (height t < fuel)%nat →
  count_nodes fuel h (ptr_of t)
    = Some (Z.of_nat (length (addrs t)) mod 2 ^ SIZE_WIDTH).
Proof.
  induction t as [|l IHl b x r IHr]; intros fuel Hrep Hf.
  - destruct fuel; [simpl in Hf; lia|]. done.
  - destruct fuel as [|fuel]; [simpl in Hf; lia|]. simpl in Hf.
    destruct Hrep as (Hb & Hl & Hr). simpl count_nodes. rewrite Hb. simpl.
    rewrite IHl by (done || lia). simpl. rewrite IHr by (done || lia). simpl.
    f_equal. rewrite length_app, mod_add3. f_equal. simpl length. lia.
Qed.

Lemma find_min_repr h t : ∀ fuel,
  tree_repr h t → (height t < fuel)%nat →
  find_min fuel h (ptr_of t) = Some (fst <$> tmin t).
Proof.
  induction t as [|l IHl b x r _]; intros fuel Hrep Hf.
  - destruct fuel; [simpl in Hf; lia|]. done.
  - destruct fuel as [|fuel]; [simpl in Hf; lia|]. simpl in Hf.
    destruct Hrep as (Hb & Hl & Hr). simpl find_min. rewrite Hb. simpl.
    destruct l as [|ll la ld lr]; [done|].
    apply (IHl fuel Hl). simpl in Hf |- *. lia.
Qed.

(** *** Subtrees *)

Lemma subtree_repr h (s t : tree V) : subtree s t → tree_repr h t → tree_repr h s.
Proof.
  induction t as [|l IHl b x r IHr]; simpl.
  - intros [->|[]]. done.
  - intros [->|[Hs|Hs]] (Hb & Hl & Hr); [done|auto|auto].
Qed.

Lemma subtree_addrs (s t : tree V) a : subtree s t → a ∈ addrs s → a ∈ addrs t.
Proof.
  induction t as [|l IHl b x r IHr]; simpl.
  - intros [->|[]]. done.
  - intros [->|[Hs|Hs]] Ha; [done| |]; set_solver.
Qed.

Lemma subtree_elems (s t : tree V) x : subtree s t → x ∈ elems s → x ∈ elems t.
Proof.
  induction t as [|l IHl b y r IHr]; simpl.
  - intros [->|[]]. done.
  - intros [->|[Hs|Hs]] Hx; [done| |]; set_solver.
Qed.

Lemma subtree_nodup (s t : tree V) : subtree s t → NoDup (addrs t) → NoDup (addrs s).
Proof.
  induction t as [|l IHl b x r IHr].
  - intros [->|[]]. done.
  - intros [->|[Hs|Hs]] Hnd; [done| |];
      destruct (nodup_node l b x r Hnd) as (? & ? & _); auto.
Qed.

Lemma subtree_height (s t : tree V) : subtree s t → (height s ≤ height t)%nat.
Proof.
  induction t as [|l IHl b x r IHr]; simpl.
  - intros [->|[]]. done.
  - intros [->|[Hs|Hs]]; [done| |].
    + specialize (IHl Hs). lia.
    + specialize (IHr Hs). lia.
Qed.

(** In a search tree the descent for a key stops at any node that holds an
    equal key. *)
Lemma tlookup_subtree cmp (target : V) t l c x r :
  total_cmp cmp → bst cmp t →
  subtree (Node l c x r) t → cmp target x = 0 →
  tlookup cmp target t = Node l c x r.
Proof.
  intros Htot. induction t as [|tl IHl b y tr IHr].
  - intros _ [?|[]]. done.
  - intros (Hl & Hr & Hbl & Hbr) Hsub Heq.
    rewrite Forall_forall in Hl. rewrite Forall_forall in Hr.
    pose proof (cmp_eq_compat cmp Htot target x y Heq) as Hsgn.
    destruct Hsub as [Hs|[Hs|Hs]].
    + injection Hs as <- <- <- <-. simpl.
      replace (cmp target x <? 0) with false by lia.
      replace (cmp target x >? 0) with false by lia. done.
    + assert (cmp x y < 0) as Hxy.
      { apply Hl. eapply subtree_elems; [exact Hs|]. simpl. set_solver. }
      assert (cmp target y < 0) as Hty
        by (destruct (cmp target y), (cmp x y); simpl in Hsgn; lia).
      simpl. replace (cmp target y <? 0) with true by lia. auto.
    + assert (0 < cmp x y) as Hxy.
      { apply Hr. eapply subtree_elems; [exact Hs|]. simpl. set_solver. }
      assert (0 < cmp target y) as Hty
        by (destruct (cmp target y), (cmp x y); simpl in Hsgn; lia).
      simpl. replace (cmp target y <? 0) with false by lia.
      replace (cmp target y >? 0) with true by lia. auto.
Qed.

(** With no equal key in the tree the descent reaches a [NULL] link. *)
Lemma thas_absent cmp (target : V) t :
  (∀ x, x ∈ elems t → cmp target x ≠ 0) → thas cmp target t = false.
Proof.
  induction t as [|l IHl b y r IHr]; [done|].
  intros Hne. rewrite thas_node. simpl in Hne.
  destruct (cmp target y <? 0) eqn:Hlt; [|destruct (cmp target y >? 0) eqn:Hgt].
  - apply IHl. intros x Hx. apply Hne. set_solver.
  - apply IHr. intros x Hx. apply Hne. set_solver.
  - exfalso. apply (Hne y); [set_solver|lia].
Qed.

(** In a search tree the descent finds any key that has an equal in it. *)
Lemma thas_present cmp (target : V) t x :
  total_cmp cmp → bst cmp t → x ∈ elems t → cmp target x = 0 →
  thas cmp target t = true.
Proof.
  intros Htot. induction t as [|l IHl b y r IHr]; [set_solver|].
  intros (Hl & Hr & Hbl & Hbr) Hx Heq. rewrite thas_node.
  rewrite Forall_forall in Hl. rewrite Forall_forall in Hr.
  pose proof (cmp_eq_compat cmp Htot target x y Heq) as Hsgn.
  simpl in Hx. apply elem_of_app in Hx as [Hx|Hx]; [|apply elem_of_cons in Hx as [->|Hx]].
  - specialize (Hl x Hx).
    assert (cmp target y < 0) as Hty
      by (destruct (cmp target y), (cmp x y); simpl in Hsgn; lia).
    replace (cmp target y <? 0) with true by lia. auto.
  - replace (cmp target y <? 0) with false by lia.
    replace (cmp target y >? 0) with false by lia. done.
  - specialize (Hr x Hx).
    assert (0 < cmp target y) as Hty
      by (destruct (cmp target y), (cmp x y); simpl in Hsgn; lia).
    replace (cmp target y <? 0) with false by lia.
    replace (cmp target y >? 0) with true by lia. auto.
Qed.

Lemma size_decr_count (n : nat) :
  Z.of_nat (S n) < 2 ^ SIZE_WIDTH →
  size_decr (Z.of_nat (S n)) = Z.of_nat (S n) - 1.
Proof.
  intros Hlt. unfold size_decr. apply Z.mod_small. lia.
Qed.

(** The run of [ds_tree_remove] for a key held by a node [c] with two
    children, in full. *)
Lemma remove_two_children_run cmp (target : V) h T t l c x r :
  total_cmp cmp → tree_shape h T t → bst cmp t →
  subtree (Node l c x r) t → cmp target x = 0 → l ≠ Leaf → r ≠ Leaf →
  ∃ sa sd sn T' h',
    tmin r = Some (sa, sd) ∧ h !! sa = Some sn ∧ n_data sn = sd ∧
    n_left sn = None ∧ sa ∈ addrs t ∧
    ds_tree_remove (Some T) (Some target) (Some cmp) h
      = Some (DS_OK, Some T', h') ∧
    tree_shape h' T' (tremove cmp target t) ∧
    t_size T' = size_decr (t_size T) ∧
    h' !! c = Some (mk_node sd (ptr_of l) (ptr_of (tdelete_min r))) ∧
    h' !! sa = None ∧
    addrs t ≡ₚ sa :: addrs (tremove cmp target t) ∧
    (ptr_of r = Some sa ∧ ptr_of (tdelete_min r) = n_right sn ∨
     ∃ sp spn, sp ∈ addrs r ∧ sp ≠ sa ∧ h !! sp = Some spn ∧
       n_left spn = Some sa ∧ h' !! sp = Some (set_left spn (n_right sn))).
Proof.
  intros Htot Hshape Hbst Hsub Heq Hl0 Hr0.
  pose proof (tlookup_subtree cmp target t l c x r Htot Hbst Hsub Heq) as Hlook.
  pose proof (ds_tree_remove_shape cmp target h T t Hshape) as Hrem.
  assert (thas cmp target t = true) as Hhas by (unfold thas; by rewrite Hlook).
  rewrite Hhas in Hrem.
  destruct Hrem as (T' & h' & Hrun & Hshape' & Hsize & Hfr & Hgone & c' & par & Hc & Hnode).
  rewrite Hlook in Hc. injection Hc as <-.
  destruct Hshape as [Hroot Hrep Hnd].
  destruct (remove_node_two T h par l c x r (S (size h)))
    as (sa & sd & sn & h2 & Hmin & Hsn & Hsd & Hsl & Hnode2 & Hc2 & Hsa2 & _ & _ & Hdir);
    [done|done|by eapply subtree_repr|by eapply subtree_nodup| |].
  { pose proof (subtree_height _ _ Hsub). pose proof (fuel_enough h t Hrep Hnd). lia. }
  rewrite Hnode in Hnode2. injection Hnode2 as HT <-.
  destruct (tmin_spec r Hr0) as (sa' & sd' & Hmin' & Haddrs & _).
  rewrite Hmin in Hmin'. injection Hmin' as <- <-.
  assert (sa ∈ addrs t) as Hsat.
  { eapply subtree_addrs; [exact Hsub|]. simpl. rewrite Haddrs. set_solver. }
  exists sa, sd, sn, T', h'.
  split_and!; [done|done|done|done|done|done|done|done|done|done| |done].
  destruct (tremove_addrs cmp target t Hhas) as (g & Hg & Hperm).
  destruct (decide (g = sa)) as [->|Hne]; [done|]. exfalso.
  assert (sa ∈ addrs (tremove cmp target t)) as Hin.
  { rewrite Hperm in Hsat. set_solver. }
  destruct (tree_repr_dom h' _ sa (shape_repr _ _ _ Hshape') Hin) as [n Hn].
  congruence.
Qed.

Lemma repr_child_in h (t : tree V) a n c :
  tree_repr h t → a ∈ addrs t → h !! a = Some n →
  n_left n = Some c ∨ n_right n = Some c → c ∈ addrs t.
Proof.
  induction t as [|l IHl b x r IHr]; simpl; [set_solver|].
  intros (Hb & Hl & Hr) Ha Hn Hc.
  rewrite elem_of_app, elem_of_cons in Ha. rewrite elem_of_app, elem_of_cons.
  destruct Ha as [Ha|[->|Ha]]; [left; by apply IHl| |right; right; by apply IHr].
  rewrite Hb in Hn. injection Hn as <-. simpl in Hc.
  destruct Hc as [Hc|Hc]; apply ptr_of_in in Hc; auto.
Qed.

(** The states reached by insertions are live search trees. *)
Lemma insert_run_invariant cmp (T : option ds_tree) h :
  insert_run cmp T h →
  ∃ T0 t, T = Some T0 ∧ tree_shape h T0 t ∧ bst cmp t.
Proof.
  induction 1 as [h|T h new data e T' h' Hrun IH Hfresh Hcall].
  - exists (mk_tree None 0), Leaf. split; [done|]. split; [|done].
    split; [done|done|constructor].
  - destruct IH as (T0 & t & -> & Hshape & Hbst).
    destruct data as [d|]; [|simpl in Hcall; simplify_eq; eauto].
    destruct new as [a|]; [|simpl in Hcall; simplify_eq; eauto].
    destruct (ds_tree_insert_shape cmp d h T0 t a Hshape (Hfresh a eq_refl))
      as (T1 & h1 & Hcall' & Hshape' & _).
    rewrite Hcall in Hcall'. injection Hcall' as -> -> ->.
    exists T1, (tinsert cmp a d t). split; [done|]. split; [done|].
    by apply bst_tinsert.
Qed.

End proofs.
End TreeProofs.

(** ** Properties of the list *)
Module ListProofs.
Import DsList ListModel.
Section proofs.
Context {V : Type}.
Implicit Types (h : lheap V) (L : ds_list) (xs ps : list (addr * V)).

Lemma list_repr_agree h h' xs :
  (∀ a, a ∈ xs.*1 → h' !! a = h !! a) → list_repr h xs → list_repr h' xs.
Proof.
  induction xs as [|[a d] xs IH]; simpl; [done|].
  intros Hag [Ha Hxs]. split.
  - rewrite Hag; [done|]. left.
  - apply IH; [|done]. intros b Hb. apply Hag. by right.
Qed.

Lemma lptr_app xs ys : xs ≠ [] → lptr (xs ++ ys) = lptr xs.
Proof. by destruct xs as [|[a d] xs]. Qed.

(** The two stores of [ds_list_push_back] on a non-empty chain. *)
Lemma push_back_repr h a (d : V) : ∀ xs t,
  list_repr h xs → NoDup xs.*1 → a ∉ xs.*1 → last xs.*1 = Some t →
  ∃ tn, <[a := mk_lnode d None]> h !! t = Some tn ∧
    list_repr (<[t := set_next tn (Some a)]> (<[a := mk_lnode d None]> h))
      (xs ++ [(a, d)]).
Proof.
  induction xs as [|[b e] xs IH]; [done|].
  intros t [Hb Hxs] Hnd Ha Hlast.
  apply NoDup_cons in Hnd as [Hbxs Hnd].
  assert (a ≠ b ∧ a ∉ xs.*1) as [Hab Haxs] by (simpl in Ha; set_solver).
  destruct xs as [|[c f] xs'].
  - simpl in Hlast. injection Hlast as <-.
    exists (mk_lnode e None). split.
    + rewrite lookup_insert_ne by done. done.
    + simpl. split; [by rewrite lookup_insert_eq|]. split; [|done].
      rewrite lookup_insert_ne by done. by rewrite lookup_insert_eq.
  - assert (last ((c, f) :: xs').*1 = Some t) as Hlast' by done.
    destruct (IH t Hxs Hnd Haxs Hlast') as (tn & Htn & Hrep).
    assert (t ∈ ((c, f) :: xs').*1) as Htin by by apply last_Some_elem_of.
    assert (b ≠ t) as Hbt by (intros ->; done).
    exists tn. split; [done|].
    change (((b, e) :: (c, f) :: xs') ++ [(a, d)])
      with ((b, e) :: (((c, f) :: xs') ++ [(a, d)])).
    split; [|done].
    rewrite lookup_insert_ne by done. rewrite lookup_insert_ne by done.
    rewrite lptr_app by done. done.
Qed.

(** [ds_list_push_back] with a fresh block on a live list appends a node. *)
Lemma ds_list_push_back_shape h L xs a (d : V) :
  list_shape h L xs → h !! a = None →
  ∃ L' h',
    ds_list_push_back (Some a) (Some L) (Some d) h = Some (DS_OK, Some L', h') ∧
    list_shape h' L' (xs ++ [(a, d)]) ∧
    (∀ b, h !! b = None → b ≠ a → h' !! b = None).
Proof.
  intros [Hhead Htail Hrep Hnd] Hfresh.
  assert (a ∉ xs.*1) as Ha.
  { intros Hin. clear -Hrep Hfresh Hin. induction xs as [|[b e] xs IH]; [set_solver|].
    destruct Hrep as [Hb Hxs]. simpl in Hin. apply elem_of_cons in Hin as [->|Hin].
    - congruence.
    - by apply IH. }
  assert (NoDup (xs ++ [(a, d)]).*1) as Hnd'.
  { rewrite fmap_app. apply NoDup_app. split_and!; [done| |apply NoDup_singleton].
    intros b Hb. simpl. set_solver. }
  unfold ds_list_push_back. cbv zeta. rewrite Htail.
  destruct (last xs.*1) as [t|] eqn:Hlast.
  - destruct (push_back_repr h a d xs t Hrep Hnd Ha Hlast) as (tn & Htn & Hrep').
    rewrite Htn. simpl. eexists _, _. split; [done|]. split.
    + split; simpl.
      * rewrite Hhead. rewrite lptr_app; [done|]. by intros ->.
      * rewrite fmap_app. simpl. by rewrite last_snoc.
      * done.
      * done.
    + intros b Hb Hba. rewrite lookup_insert_ne.
      * rewrite lookup_insert_ne by done. done.
      * intros ->. rewrite lookup_insert_ne in Htn by done. congruence.
  - assert (xs = []) as ->.
    { destruct xs as [|p xs]; [done|]. apply last_None in Hlast. done. }
    eexists _, _. split; [done|]. split.
    + split; simpl; [done|done| |done]. split; [|done]. by rewrite lookup_insert_eq.
    + intros b Hb Hba. by rewrite lookup_insert_ne.
Qed.

(** [ds_list_pop_front] on a live non-empty list detaches the first node
    and returns its payload. *)
Lemma ds_list_pop_front_shape h L a (d : V) xs :
  list_shape h L ((a, d) :: xs) →
  ∃ L',
    ds_list_pop_front (Some L) h = Some (Some d, Some L', delete a h) ∧
    list_shape (delete a h) L' xs ∧
    l_size L' = size_decr (l_size L).
Proof.
  intros [Hhead Htail [Ha Hrep] Hnd]. apply NoDup_cons in Hnd as [Haxs Hnd].
  unfold ds_list_pop_front. rewrite Hhead. simpl. rewrite Ha. simpl.
  eexists. split; [done|]. split; [|done]. split; simpl.
  - done.
  - destruct xs as [|[b e] xs]; [done|]. simpl. rewrite Htail. done.
  - apply list_repr_agree with h; [|done]. intros b Hb.
    apply lookup_delete_ne. intros ->. done.
  - done.
Qed.

(** On a live empty list [ds_list_pop_front] returns [NULL] and changes
    nothing. *)
Lemma ds_list_pop_front_empty h L :
  list_shape h L [] → ds_list_pop_front (Some L) h = Some (None, Some L, h).
Proof. intros [Hhead _ _ _]. unfold ds_list_pop_front. by rewrite Hhead. Qed.

Lemma push_all_cons a (d : V) ps (L : option ds_list) h :
  push_all ((a, d) :: ps) L h =
  '(e, L, h) ← ds_list_push_back (Some a) L (Some d) h;
  '(es, L, h) ← push_all ps L h;
  Some (e :: es, L, h).
Proof. done. Qed.

Lemma pop_all_S fuel (L : option ds_list) h :
  pop_all (S fuel) L h =
  '(d, L, h) ← ds_list_pop_front L h;
  match d with
  | None => Some ([], L, h)
  | Some v => '(vs, L, h) ← pop_all fuel L h; Some (v :: vs, L, h)
  end.
Proof. done. Qed.

Lemma push_all_shape : ∀ ps h L xs,
  list_shape h L xs → NoDup ps.*1 → (∀ a, a ∈ ps.*1 → h !! a = None) →
  ∃ L' h',
    push_all ps (Some L) h = Some (replicate (length ps) DS_OK, Some L', h') ∧
    list_shape h' L' (xs ++ ps).
Proof.
  induction ps as [|[a d] ps IH]; intros h L xs Hshape Hnd Hfresh.
  - exists L, h. split; [done|]. by rewrite app_nil_r.
  - apply NoDup_cons in Hnd as [Haps Hnd].
    destruct (ds_list_push_back_shape h L xs a d Hshape) as (L1 & h1 & Hrun & Hshape1 & Hfr).
    { apply Hfresh. left. }
    destruct (IH h1 L1 (xs ++ [(a, d)]) Hshape1 Hnd) as (L2 & h2 & Hrun2 & Hshape2).
    { intros b Hb. apply Hfr; [apply Hfresh; by right|]. intros ->. done. }
    exists L2, h2. rewrite push_all_cons, Hrun. simpl. rewrite Hrun2. simpl.
    split; [done|]. by rewrite <-app_assoc in Hshape2.
Qed.

Lemma pop_all_shape : ∀ xs fuel h L,
  list_shape h L xs → (length xs < fuel)%nat →
  ∃ L' h',
    pop_all fuel (Some L) h = Some (xs.*2, Some L', h') ∧ list_shape h' L' [].
Proof.
  induction xs as [|[a d] xs IH]; intros fuel h L Hshape Hfuel;
    (destruct fuel as [|fuel]; [simpl in Hfuel; lia|]).
  - exists L, h. rewrite pop_all_S, (ds_list_pop_front_empty h L Hshape). done.
  - destruct (ds_list_pop_front_shape h L a d xs Hshape) as (L1 & Hrun & Hshape1 & _).
    destruct (IH fuel (delete a h) L1 Hshape1) as (L2 & h2 & Hrun2 & Hshape2).
    { simpl in Hfuel. lia. }
    exists L2, h2. rewrite pop_all_S, Hrun. simpl. rewrite Hrun2. done.
Qed.

End proofs.
End ListProofs.

(** ** The caller's comparator and states *)
Module ScenarioProofs.
Import DsTree TreeModel TreeProofs Scenario.

Lemma wrap_int_small x : - 2 ^ 31 ≤ x < 2 ^ 31 → wrap_int x = x.
Proof. intros Hx. unfold wrap_int. rewrite Z.mod_small; lia. Qed.

Lemma int_at_bound p : 0 ≤ int_at p ≤ 70.
Proof.
  unfold int_at.
  destruct p as [[[?|?|]|[?|?|]|]|[[?|?|]|[[?|?|]|[?|?|]|]|]|]; lia.
Qed.

Lemma cmp50_sub a b : cmp50 a b = int_at a - int_at b.
Proof.
  unfold cmp50, cmp_int. apply wrap_int_small.
  pose proof (int_at_bound a). pose proof (int_at_bound b). lia.
Qed.

Lemma cmp50_total : total_cmp cmp50.
Proof.
  split; intros; rewrite ?cmp50_sub in *.
  - destruct (int_at a - int_at b) eqn:H1, (int_at b - int_at a) eqn:H2; simpl; lia.
  - lia.
  - assert (int_at a = int_at b) as -> by lia. done.
Qed.

Lemma scenario_inserted_eq : scenario_inserted = Some (Some T5, h5).
Proof. vm_compute. reflexivity. Qed.

Lemma shape5 : tree_shape h5 T5 t5.
Proof.
  split; [done| |].
  - repeat split; vm_compute; reflexivity.
  - apply (bool_decide_unpack _). vm_compute. exact I.
Qed.

Lemma bst5 : bst cmp50 t5.
Proof.
  simpl. repeat split; repeat constructor; rewrite cmp50_sub; simpl; lia.
Qed.

Lemma shape6 : tree_shape h6 T6 t6.
Proof.
  split; [done| |].
  - repeat split; vm_compute; reflexivity.
  - apply (bool_decide_unpack _). vm_compute. exact I.
Qed.

Lemma bst6 : bst cmp50 t6.
Proof.
  simpl. repeat split; repeat constructor; rewrite cmp50_sub; simpl; lia.
Qed.

End ScenarioProofs.

(** ** The tree: scenario, insertion, removal *)
Module TreeClaims.
Import DsTree TreeModel TreeProofs Scenario ScenarioProofs.

(** C1, as the code behaves.  Insert 50, 30, 70, 20, 40 into an empty tree
    with the integer comparator, then remove 50: the removal returns
    [DS_OK], the root node holds the payload 70 (the leftmost node of the
    right subtree of 50, its in-order successor), the size is 4 and the
    in-order traversal yields 20, 30, 40, 70. *)
Theorem tree_scenario_observed :
  scenario_observed = Some (DS_OK, Some 70, 4, Some [20; 30; 40; 70]).
Proof. vm_compute. reflexivity. Qed.

(** C1 as stated does not hold: after the scenario the root payload is
    not 40. *)
Lemma tree_scenario_root_not_40 :
  scenario_observed ≠ Some (DS_OK, Some 40, 4, Some [20; 30; 40; 70]).
Proof. vm_compute. discriminate. Qed.

Section generic.
Context {V : Type}.
Implicit Types (h : heap V) (t l r : tree V) (T : ds_tree) (cmp : V → V → Z).

(** C2.  On a live tree, (1) when the tree is a search tree whose cached
    count is its node count and the target compares equal to the key of a
    node [c] with two non-empty children, [ds_tree_remove] returns [DS_OK];
    the successor [sa] is the leftmost node of the right subtree of [c] and
    has no left child; afterwards [c] holds the payload reference of [sa]
    and its old left link, the block of [sa] is released and unreachable,
    the tree is a live search tree again and the size is one less;
    (2) when no key compares equal to the target, [ds_tree_remove] returns
    [DS_ERR_NOTFOUND] and handle and heap are unchanged. *)
Theorem remove_two_children_or_absent cmp (target : V) h T t :
  tree_shape h T t →
  (total_cmp cmp → bst cmp t → size_ok T t →
   ∀ l c x r,
     subtree (Node l c x r) t → cmp target x = 0 → l ≠ Leaf → r ≠ Leaf →
     ∃ sa sn T' h' t',
       tmin r = Some (sa, n_data sn) ∧ h !! sa = Some sn ∧ n_left sn = None ∧
       ds_tree_remove (Some T) (Some target) (Some cmp) h
         = Some (DS_OK, Some T', h') ∧
       (∃ rp, h' !! c = Some (mk_node (n_data sn) (ptr_of l) rp)) ∧
       h' !! sa = None ∧ ¬ reachable h' (t_root T') sa ∧
       tree_shape h' T' t' ∧ bst cmp t' ∧
       t_size T' = t_size T - 1 ∧ size_ok T' t') ∧
  ((∀ x, x ∈ elems t → cmp target x ≠ 0) →
   ds_tree_remove (Some T) (Some target) (Some cmp) h
     = Some (DS_ERR_NOTFOUND, Some T, h)).
Proof.
  intros Hshape. split.
  - intros Htot Hbst [Hsize Hbound] l c x r Hsub Heq Hl0 Hr0.
    destruct (remove_two_children_run cmp target h T t l c x r
                Htot Hshape Hbst Hsub Heq Hl0 Hr0)
      as (sa & sd & sn & T' & h' & Hmin & Hsn & Hsd & Hsl & Hsat & Hrun & Hshape'
          & Hsize' & Hc & Hsa & Hperm & _).
    exists sa, sn, T', h', (tremove cmp target t). subst sd.
    assert (length (addrs t) = S (length (addrs (tremove cmp target t)))) as Hcount
      by by rewrite Hperm.
    split_and!; [done|done|done|done|by eexists|done| |done|by apply bst_tremove| |].
    + rewrite (shape_root _ _ _ Hshape').
      rewrite (reachable_addrs h' _ sa (shape_repr _ _ _ Hshape')).
      intros Hin.
      destruct (tree_repr_dom h' _ sa (shape_repr _ _ _ Hshape') Hin) as [n Hn].
      congruence.
    + rewrite Hsize', Hsize, Hcount. rewrite size_decr_count; [lia|].
      rewrite <-Hcount. done.
    + split; [|lia]. rewrite Hsize', Hsize, Hcount.
      rewrite size_decr_count; [lia|]. rewrite <-Hcount. done.
  - intros Habs.
    pose proof (ds_tree_remove_shape cmp target h T t Hshape) as Hrem.
    by rewrite (thas_absent cmp target t Habs) in Hrem.
Qed.

(** C3.  In every state reached from an empty tree by calls of
    [ds_tree_insert] with a total comparator, the in-order traversal of the
    tree returns a sequence in which each key compares at most equal to
    every later one, and no two keys at different positions compare equal;
    and every further call of [ds_tree_insert] returns. *)
Theorem insert_run_inorder_ascending cmp (T : option ds_tree) h :
  total_cmp cmp → insert_run cmp T h →
  ∃ T0 xs,
    T = Some T0 ∧ inorder (S (size h)) h (t_root T0) = Some xs ∧
    (∀ i j x y, xs !! i = Some x → xs !! j = Some y → (i < j)%nat →
       cmp x y ≤ 0) ∧
    (∀ i j x y, xs !! i = Some x → xs !! j = Some y → i ≠ j → cmp x y ≠ 0) ∧
    (∀ new data, (∀ a, new = Some a → h !! a = None) →
       ∃ e (T' : option ds_tree) h',
         ds_tree_insert new T data (Some cmp) h = Some (e, T', h')).
Proof.
  intros Htot Hrun.
  destruct (insert_run_invariant cmp T h Hrun) as (T0 & t & -> & Hshape & Hbst).
  pose proof (bst_ascending cmp t Htot Hbst) as Hasc.
  pose proof Hshape as [Hroot Hrep Hnd].
  exists T0, (elems t). split_and!; [done| | | |].
  - rewrite Hroot. apply inorder_repr; [done|]. by apply fuel_enough.
  - intros i j x y Hi Hj Hij.
    pose proof (ascending_lookup cmp (elems t) i j x y Hasc Hi Hj Hij). lia.
  - intros i j x y Hi Hj Hij.
    destruct (decide (i < j)%nat) as [Hlt|Hge].
    + pose proof (ascending_lookup cmp (elems t) i j x y Hasc Hi Hj Hlt). lia.
    + pose proof (ascending_lookup cmp (elems t) j i y x Hasc Hj Hi ltac:(lia)) as Hyx.
      apply (cmp_flip cmp x y Htot) in Hyx. lia.
  - intros new data Hfresh.
    destruct data as [d|]; [|simpl; eauto]. destruct new as [a|]; [|simpl; eauto].
    destruct (ds_tree_insert_shape cmp d h T0 t a Hshape (Hfresh a eq_refl))
      as (T1 & h1 & Hcall & _).
    eauto.
Qed.

(** C6, as the code behaves.  On a live search tree, for a key that
    compares equal to a key in the tree, [ds_tree_insert] leaves handle
    (with its size) and heap exactly as they were; it returns [DS_OK] when
    the allocation it performs first succeeds and [DS_ERR_OOM] when that
    allocation fails. *)
Theorem duplicate_insert_unchanged cmp (d : V) h T t x (new : option addr) :
  total_cmp cmp → tree_shape h T t → bst cmp t →
  x ∈ elems t → cmp d x = 0 →
  (∀ a, new = Some a → h !! a = None) →
  ds_tree_insert new (Some T) (Some d) (Some cmp) h
    = Some (match new with Some _ => DS_OK | None => DS_ERR_OOM end, Some T, h).
Proof.
  intros Htot Hshape Hbst Hx Heq Hfresh. destruct new as [a|]; [|done].
  destruct (ds_tree_insert_shape cmp d h T t a Hshape (Hfresh a eq_refl))
    as (T' & h' & Hcall & _ & Hsame).
  rewrite (thas_present cmp d t x Htot Hbst Hx Heq) in Hsame.
  destruct Hsame as [-> ->]. done.
Qed.

(** C10.  In the two-children case of [ds_tree_remove], with [sa] the
    successor: the field of its parent that pointed to [sa] (the right
    field of the found node [c], or the left field of a node below) holds
    the right link of [sa] afterwards; every node reachable from the root
    before the call, other than [sa], is reachable after it, the right
    child of [sa] among them; and [sa] is not reachable any more. *)
Theorem successor_right_spliced cmp (target : V) h T t l c x r :
  total_cmp cmp → tree_shape h T t → bst cmp t →
  subtree (Node l c x r) t → cmp target x = 0 → l ≠ Leaf → r ≠ Leaf →
  ∃ sa sn T' h',
    tmin r = Some (sa, n_data sn) ∧ h !! sa = Some sn ∧
    ds_tree_remove (Some T) (Some target) (Some cmp) h
      = Some (DS_OK, Some T', h') ∧
    (∃ sp spn spn',
       h !! sp = Some spn ∧ h' !! sp = Some spn' ∧
       (sp = c ∧ n_right spn = Some sa ∧ n_right spn' = n_right sn ∨
        sp ≠ c ∧ n_left spn = Some sa ∧ n_left spn' = n_right sn)) ∧
    (∀ a, reachable h (t_root T) a → a ≠ sa → reachable h' (t_root T') a) ∧
    (∀ rc, n_right sn = Some rc → reachable h' (t_root T') rc) ∧
    ¬ reachable h' (t_root T') sa.
Proof.
  intros Htot Hshape Hbst Hsub Heq Hl0 Hr0.
  destruct (remove_two_children_run cmp target h T t l c x r
              Htot Hshape Hbst Hsub Heq Hl0 Hr0)
    as (sa & sd & sn & T' & h' & Hmin & Hsn & Hsd & Hsl & Hsat & Hrun & Hshape'
        & Hsize' & Hc & Hsa & Hperm & Hdir).
  subst sd. destruct Hshape as [Hroot Hrep Hnd].
  pose proof Hshape' as [Hroot' Hrep' Hnd'].
  assert (∀ a, a ∈ addrs t → a ≠ sa → a ∈ addrs (tremove cmp target t)) as Hkeep.
  { intros a Ha Hne. rewrite Hperm in Ha. set_solver. }
  assert (tree_repr h (Node l c x r)) as (Hch & _ & Hrr) by by eapply subtree_repr.
  assert (c ∈ addrs t) as Hct.
  { eapply subtree_addrs; [exact Hsub|]. simpl. set_solver. }
  assert (c ≠ sa) as Hcsa by (intros ->; congruence).
  exists sa, sn, T', h'. split_and!; [done|done|done| | | |].
  - destruct Hdir as [[Hptr Hptr']|(sp & spn & Hsp & Hne & Hspn & Hlft & Hsp')].
    + eexists c, _, _. split_and!; [exact Hch|exact Hc|].
      left. simpl. done.
    + eexists sp, spn, _. split_and!; [done|exact Hsp'|].
      right. split_and!; [|done|done].
      intros ->. destruct (nodup_node l c x r) as (_ & _ & _ & Hcr & _); [|done].
      by eapply subtree_nodup.
  - intros a Ha Hne. rewrite Hroot in Ha. rewrite Hroot'.
    apply (reachable_addrs h' _ a Hrep'). apply Hkeep; [|done].
    by apply (reachable_addrs h t a Hrep).
  - intros rc Hrc. rewrite Hroot'. apply (reachable_addrs h' _ rc Hrep').
    destruct Hdir as [[Hptr Hptr']|(sp & spn & Hsp & Hne & Hspn & Hlft & Hsp')].
    + apply (repr_child_in h' _ c _ rc Hrep' (Hkeep c Hct Hcsa) Hc).
      right. simpl. congruence.
    + assert (sp ∈ addrs t) as Hspt.
      { eapply subtree_addrs; [exact Hsub|]. simpl. set_solver. }
      apply (repr_child_in h' _ sp _ rc Hrep' (Hkeep sp Hspt Hne) Hsp').
      left. done.
  - rewrite Hroot'. rewrite (reachable_addrs h' _ sa Hrep'). intros Hin.
    destruct (tree_repr_dom h' _ sa Hrep' Hin) as [n Hn]. congruence.
Qed.

End generic.
End TreeClaims.

(** ** Arguments, allocation failure and null handles *)
Module ContractClaims.
Import DsTree DsList DsStack DsQueue TreeModel TreeProofs ListModel ListProofs
  StackModel.

Section generic.
Context {V W : Type}.

(** A failed scan of [ds_list_remove] leaves list and heap as they were. *)
Lemma list_remove_loop_failure (cmp : V → V → Z) (data : V) L h : ∀ fuel cur prev e L' h',
  list_remove_loop fuel cmp data L h cur prev = Some (e, L', h') →
  e ≠ DS_OK → e = DS_ERR_NOTFOUND ∧ L' = L ∧ h' = h.
Proof.
  induction fuel as [|fuel IH]; intros cur prev e L' h' Hrun Hne; [done|].
  simpl in Hrun. destruct cur as [c|]; [|by simplify_eq].
  destruct (h !! c) as [n|]; [|done]. simpl in Hrun.
  destruct (cmp (ln_data n) data =? 0).
  - destruct prev as [p|].
    + destruct (h !! p); simpl in Hrun; by simplify_eq.
    + by simplify_eq.
  - by eapply IH.
Qed.

(** C4, as the code behaves.  An absent comparator is reported like an
    absent handle or an absent payload, with [DS_ERR_NULLARG], by
    [ds_list_remove], [ds_tree_insert] and [ds_tree_remove], and nothing
    is changed; [ds_list_find] and [ds_tree_find] return [NULL] in all
    three cases. *)
Theorem absent_argument_is_nullarg :
  (∀ (L : option ds_list) (d : option V) (h : lheap V),
     ds_list_remove L d None h = Some (DS_ERR_NULLARG, L, h)) ∧
  (∀ (d : option V) cmp (h : lheap V),
     ds_list_remove None d cmp h = Some (DS_ERR_NULLARG, None, h)) ∧
  (∀ (L : option ds_list) cmp (h : lheap V),
     ds_list_remove L None cmp h = Some (DS_ERR_NULLARG, L, h)) ∧
  (∀ new (T : option ds_tree) (d : option V) (h : heap V),
     ds_tree_insert new T d None h = Some (DS_ERR_NULLARG, T, h)) ∧
  (∀ new (d : option V) cmp (h : heap V),
     ds_tree_insert new None d cmp h = Some (DS_ERR_NULLARG, None, h)) ∧
  (∀ new (T : option ds_tree) cmp (h : heap V),
     ds_tree_insert new T None cmp h = Some (DS_ERR_NULLARG, T, h)) ∧
  (∀ (T : option ds_tree) (d : option V) (h : heap V),
     ds_tree_remove T d None h = Some (DS_ERR_NULLARG, T, h)) ∧
  (∀ (d : option V) cmp (h : heap V),
     ds_tree_remove None d cmp h = Some (DS_ERR_NULLARG, None, h)) ∧
  (∀ (T : option ds_tree) cmp (h : heap V),
     ds_tree_remove T None cmp h = Some (DS_ERR_NULLARG, T, h)) ∧
  (∀ (L : option ds_list) (d : option V) cmp (h : lheap V),
     L = None ∨ d = None ∨ cmp = None → ds_list_find L d cmp h = Some None) ∧
  (∀ (T : option ds_tree) (d : option V) cmp (h : heap V),
     T = None ∨ d = None ∨ cmp = None → ds_tree_find T d cmp h = Some None).
Proof.
  split_and!.
  - by intros [L|] [d|] h.
  - done.
  - by intros [L|] cmp h.
  - by intros new [T|] [d|] h.
  - done.
  - by intros new [T|] cmp h.
  - by intros [T|] [d|] h.
  - done.
  - by intros [T|] cmp h.
  - intros L d cmp h [-> | [-> | ->]]; [done|by destruct L|by destruct L, d].
  - intros T d cmp h [-> | [-> | ->]]; [done|by destruct T|by destruct T, d].
Qed.

(** C5.  With a live container and a payload (and, for the tree, a
    comparator), a failed node allocation makes [ds_list_push_front],
    [ds_list_push_back], [ds_stack_push], [ds_queue_enqueue] and
    [ds_tree_insert] return [DS_ERR_OOM] with handle and heap exactly as
    before; whenever one of these operations, [ds_list_remove] or
    [ds_tree_remove] returns another status than [DS_OK], handle and heap
    are exactly as before the call; and so they are when
    [ds_list_pop_front], [ds_stack_pop] or [ds_queue_dequeue] returns
    [NULL]. *)
Theorem failure_leaves_state_unchanged :
  (∀ (L : ds_list) (d : V) (h : lheap V),
     ds_list_push_front None (Some L) (Some d) h = (DS_ERR_OOM, Some L, h)) ∧
  (∀ (L : ds_list) (d : V) (h : lheap V),
     ds_list_push_back None (Some L) (Some d) h = Some (DS_ERR_OOM, Some L, h)) ∧
  (∀ (S0 : ds_stack) (d : V) (h : sheap V),
     ds_stack_push None (Some S0) (Some d) h = (DS_ERR_OOM, Some S0, h)) ∧
  (∀ (Q : ds_queue) (d : V) (h : qheap V),
     ds_queue_enqueue None (Some Q) (Some d) h = Some (DS_ERR_OOM, Some Q, h)) ∧
  (∀ (T : ds_tree) (d : V) cmp (h : heap V),
     ds_tree_insert None (Some T) (Some d) (Some cmp) h
       = Some (DS_ERR_OOM, Some T, h)) ∧
  (∀ new (L : option ds_list) (d : option V) (h : lheap V) e L' h',
     ds_list_push_front new L d h = (e, L', h') → e ≠ DS_OK → L' = L ∧ h' = h) ∧
  (∀ new (L : option ds_list) (d : option V) (h : lheap V) e L' h',
     ds_list_push_back new L d h = Some (e, L', h') → e ≠ DS_OK →
     L' = L ∧ h' = h) ∧
  (∀ (L : option ds_list) (d : option V) cmp (h : lheap V) e L' h',
     ds_list_remove L d cmp h = Some (e, L', h') → e ≠ DS_OK →
     L' = L ∧ h' = h) ∧
  (∀ new (S0 : option ds_stack) (d : option V) (h : sheap V) e S' h',
     ds_stack_push new S0 d h = (e, S', h') → e ≠ DS_OK → S' = S0 ∧ h' = h) ∧
  (∀ new (Q : option ds_queue) (d : option V) (h : qheap V) e Q' h',
     ds_queue_enqueue new Q d h = Some (e, Q', h') → e ≠ DS_OK →
     Q' = Q ∧ h' = h) ∧
  (∀ new (T : option ds_tree) (d : option V) cmp (h : heap V) e T' h',
     ds_tree_insert new T d cmp h = Some (e, T', h') → e ≠ DS_OK →
     T' = T ∧ h' = h) ∧
  (∀ (T : option ds_tree) (d : option V) cmp (h : heap V) e T' h',
     ds_tree_remove T d cmp h = Some (e, T', h') → e ≠ DS_OK →
     T' = T ∧ h' = h) ∧
  (∀ (L : option ds_list) (h : lheap V) L' h',
     ds_list_pop_front L h = Some (None, L', h') → L' = L ∧ h' = h) ∧
  (∀ (S0 : option ds_stack) (h : sheap V) S' h',
     ds_stack_pop S0 h = Some (None, S', h') → S' = S0 ∧ h' = h) ∧
  (∀ (Q : option ds_queue) (h : qheap V) Q' h',
     ds_queue_dequeue Q h = Some (None, Q', h') → Q' = Q ∧ h' = h).
Proof.
  split_and!; try done.
  - intros new [L|] [d|] h e L' h' Hrun Hne; simpl in Hrun; try by simplify_eq.
    destruct new; by simplify_eq.
  - intros new [L|] [d|] h e L' h' Hrun Hne; simpl in Hrun; try by simplify_eq.
    destruct new as [a|]; [|by simplify_eq].
    destruct (l_tail L) as [t|]; [|by simplify_eq].
    destruct (_ !! t); simpl in Hrun; by simplify_eq.
  - intros [L|] [d|] [cmp|] h e L' h' Hrun Hne; unfold ds_list_remove in Hrun;
      try by simplify_eq.
    destruct (list_remove_loop _ _ _ _ _ _ _) as [[[e1 L1] h1]|] eqn:Hloop;
      simpl in Hrun; [|done].
    injection Hrun as <- <- <-.
    destruct (list_remove_loop_failure _ _ _ _ _ _ _ _ _ _ Hloop Hne) as (_ & -> & ->).
    done.
  - intros new [S0|] [d|] h e S' h' Hrun Hne; simpl in Hrun; try by simplify_eq.
    destruct new; by simplify_eq.
  - intros new [Q|] [d|] h e Q' h' Hrun Hne; simpl in Hrun; try by simplify_eq.
    destruct new as [a|]; [|by simplify_eq].
    destruct (q_rear Q) as [t|]; [|by simplify_eq].
    destruct (_ !! t); simpl in Hrun; by simplify_eq.
  - intros new [T|] [d|] [cmp|] h e T' h' Hrun Hne; unfold ds_tree_insert in Hrun;
      try by simplify_eq.
    destruct new as [a|]; [|by simplify_eq]. cbv zeta in Hrun.
    destruct (t_root T) as [r|]; [|by simplify_eq].
    destruct (insert_loop _ _ _ _ _ _) as [[|[p|]]|]; simpl in Hrun;
      try by simplify_eq.
    destruct (_ !! p); simpl in Hrun; by simplify_eq.
  - intros [T|] [d|] [cmp|] h e T' h' Hrun Hne; unfold ds_tree_remove in Hrun;
      try by simplify_eq.
    destruct (remove_loop _ _ _ _ _ _) as [[[c|] par]|]; simpl in Hrun;
      [|by simplify_eq|done].
    destruct (remove_node _ _ _ _ _) as [[T1 h1]|]; simpl in Hrun; by simplify_eq.
  - intros [L|] h L' h' Hrun; simpl in Hrun; [|by simplify_eq].
    destruct (l_head L) as [c|]; [|by simplify_eq].
    destruct (h !! c); simpl in Hrun; by simplify_eq.
  - intros [S0|] h S' h' Hrun; simpl in Hrun; [|by simplify_eq].
    destruct (s_top S0) as [c|]; [|by simplify_eq].
    destruct (h !! c); simpl in Hrun; by simplify_eq.
  - intros [Q|] h Q' h' Hrun; simpl in Hrun; [|by simplify_eq].
    destruct (q_front Q) as [c|]; [|by simplify_eq].
    destruct (h !! c); simpl in Hrun; by simplify_eq.
Qed.

(** C7.  On a [NULL] handle every operation of the four containers
    returns its sentinel and leaves the heap and the caller's world as
    they are: the releases and the status-returning mutations return
    [DS_ERR_NULLARG], pop, dequeue, peek and find return [NULL], size
    returns 0 and is-empty returns 1. *)
Theorem null_handle_sentinels :
  (∀ fd (h : lheap V) (w : W), ds_list_free None fd h w = Some (DS_ERR_NULLARG, h, w)) ∧
  (∀ new (d : option V) (h : lheap V),
     ds_list_push_front new None d h = (DS_ERR_NULLARG, None, h)) ∧
  (∀ new (d : option V) (h : lheap V),
     ds_list_push_back new None d h = Some (DS_ERR_NULLARG, None, h)) ∧
  (∀ (h : lheap V), ds_list_pop_front None h = Some (None, None, h)) ∧
  (∀ (d : option V) cmp (h : lheap V),
     ds_list_remove None d cmp h = Some (DS_ERR_NULLARG, None, h)) ∧
  (∀ (d : option V) cmp (h : lheap V), ds_list_find None d cmp h = Some None) ∧
  ds_list_size None = 0 ∧
  (∀ fd (h : sheap V) (w : W), ds_stack_free None fd h w = Some (DS_ERR_NULLARG, h, w)) ∧
  (∀ new (d : option V) (h : sheap V),
     ds_stack_push new None d h = (DS_ERR_NULLARG, None, h)) ∧
  (∀ (h : sheap V), ds_stack_pop None h = Some (None, None, h)) ∧
  (∀ (h : sheap V), ds_stack_peek None h = Some None) ∧
  ds_stack_is_empty None = 1 ∧
  ds_stack_size None = 0 ∧
  (∀ fd (h : qheap V) (w : W), ds_queue_free None fd h w = Some (DS_ERR_NULLARG, h, w)) ∧
  (∀ new (d : option V) (h : qheap V),
     ds_queue_enqueue new None d h = Some (DS_ERR_NULLARG, None, h)) ∧
  (∀ (h : qheap V), ds_queue_dequeue None h = Some (None, None, h)) ∧
  (∀ (h : qheap V), ds_queue_peek None h = Some None) ∧
  ds_queue_is_empty None = 1 ∧
  ds_queue_size None = 0 ∧
  (∀ fd (h : heap V) (w : W), ds_tree_free None fd h w = Some (DS_ERR_NULLARG, h, w)) ∧
  (∀ new (d : option V) cmp (h : heap V),
     ds_tree_insert new None d cmp h = Some (DS_ERR_NULLARG, None, h)) ∧
  (∀ (d : option V) cmp (h : heap V), ds_tree_find None d cmp h = Some None) ∧
  (∀ (d : option V) cmp (h : heap V),
     ds_tree_remove None d cmp h = Some (DS_ERR_NULLARG, None, h)) ∧
  ds_tree_size None = 0 ∧
  ds_tree_is_empty None = 1.
Proof. split_and!; done. Qed.

(** C8.  Push the payloads of [ps] with [ds_list_push_back] onto a created
    list, each allocation returning a fresh block: every push returns
    [DS_OK], and [ds_list_pop_front], called until it returns [NULL],
    returns exactly these payloads in the order of the pushes; one call
    more than there are payloads reaches the [NULL]. *)
Theorem push_back_pop_front_fifo (ps : list (addr * V)) (h0 : lheap V) :
  NoDup ps.*1 → (∀ a, a ∈ ps.*1 → h0 !! a = None) →
  ∃ L h L' h',
    push_all ps (ds_list_create true) h0
      = Some (replicate (length ps) DS_OK, L, h) ∧
    pop_all (S (length ps)) L h = Some (ps.*2, L', h') ∧
    ds_list_pop_front L' h' = Some (None, L', h').
Proof.
  intros Hnd Hfresh.
  assert (list_shape h0 (mk_list None None 0) []) as Hshape0.
  { split; [done|done|done|constructor]. }
  destruct (push_all_shape ps h0 _ [] Hshape0 Hnd Hfresh) as (L & h & Hpush & Hshape).
  destruct (pop_all_shape ps (S (length ps)) h L Hshape ltac:(lia))
    as (L' & h' & Hpop & Hshape').
  exists (Some L), h, (Some L'), h'. split_and!; [done|done|].
  by apply ds_list_pop_front_empty.
Qed.

(** C9.  [ds_stack_is_empty] and [ds_tree_is_empty] are functions of the
    handle alone and return 1 or 0: 1 for a [NULL] handle; for a live
    stack, 1 exactly when it holds no element; for a live tree, 1 exactly
    when it holds no node. *)
Theorem is_empty_stack_and_tree :
  (∀ S0 : option ds_stack,
     ds_stack_is_empty S0 = 1 ∨ ds_stack_is_empty S0 = 0) ∧
  ds_stack_is_empty None = 1 ∧
  (∀ (S0 : ds_stack) (h : sheap V) (xs : list V),
     stack_repr h (s_top S0) xs →
     ds_stack_is_empty (Some S0) = 1 ↔ xs = []) ∧
  (∀ T : option ds_tree, ds_tree_is_empty T = 1 ∨ ds_tree_is_empty T = 0) ∧
  ds_tree_is_empty None = 1 ∧
  (∀ (T : ds_tree) (h : heap V) (t : tree V),
     tree_shape h T t →
     ds_tree_is_empty (Some T) = 1 ↔ elems t = []).
Proof.
  split_and!; [|done| | |done|].
  - intros [S0|]; [|by left]. simpl. destruct (s_top S0); auto.
  - intros S0 h xs Hrep. simpl. destruct xs as [|d xs]; simpl in Hrep.
    + by rewrite Hrep.
    + destruct Hrep as (a & nx & -> & _). split; intros; done.
  - intros [T|]; [|by left]. simpl. destruct (t_root T); auto.
  - intros T h t [Hroot _ _]. simpl. rewrite Hroot.
    destruct t as [|l a d r]; simpl; [done|].
    split; [done|]. intros Happ. by destruct (elems l).
Qed.

End generic.
End ContractClaims.

(** ** The theorems at the caller's states *)
Module Instances.
Import DsTree DsList TreeModel TreeProofs ListModel Scenario ScenarioProofs
  TreeClaims ContractClaims.

(** C2 at the tree 50(30, 70(60(-, 65), -)): removing the key 50 returns
    [DS_OK], the root node then holds the payload 60 of the successor, the
    successor's block 14 is released and the size is 4; removing an absent
    key returns [DS_ERR_NOTFOUND] and changes nothing. *)
Lemma remove_two_children_or_absent_witness :
  (∃ T' h',
     ds_tree_remove (Some T6) (Some 6%positive) (Some cmp50) h6
       = Some (DS_OK, Some T', h') ∧
     n_data <$> h' !! 11%positive = Some 7%positive ∧
     h' !! 14%positive = None ∧ t_size T' = 4) ∧
  ds_tree_remove (Some T6) (Some 9%positive) (Some cmp50) h6
    = Some (DS_ERR_NOTFOUND, Some T6, h6).
Proof.
  split.
  - destruct (remove_two_children_or_absent cmp50 6%positive h6 T6 t6 shape6)
      as [Hfound _].
    destruct (Hfound cmp50_total bst6 ltac:(split; reflexivity)
                (Node Leaf 12 2 Leaf)%positive 11%positive 1%positive
                (Node (Node Leaf 14 7 (Node Leaf 15 8 Leaf)) 13 3 Leaf)%positive
                ltac:(left; reflexivity) ltac:(reflexivity)
                ltac:(discriminate) ltac:(discriminate))
      as (sa & sn & T' & h' & t' & Hmin & Hsn & Hsl & Hrun & [rp Hc] & Hsa & _ & _
          & _ & Hsize & _).
    vm_compute in Hmin. injection Hmin as <- Hdata.
    exists T', h'. split_and!; [exact Hrun| |exact Hsa|exact Hsize].
    rewrite Hc. simpl. f_equal. symmetry. exact Hdata.
  - destruct (remove_two_children_or_absent cmp50 9%positive h6 T6 t6 shape6)
      as [_ Habsent].
    apply Habsent. intros x Hx. simpl in Hx.
    repeat (apply elem_of_cons in Hx as [->|Hx]; [vm_compute; discriminate|]).
    by apply elem_of_nil in Hx.
Defined.

(** The five insertions of the tree scenario, one call of
    [ds_tree_insert] after the other: 50, 30, 70, 20 and 40 into the
    blocks 11 to 15. *)
Lemma run_T5 : insert_run cmp50 (Some T5) h5.
Proof.
  pose (g1 := h1).
  pose (g2 := (<[11%positive := mk_node 1%positive (Some 12%positive) None]>
               (<[12%positive := mk_node 2%positive None None]> ∅)) : heap addr).
  pose (g3 := (<[11%positive := mk_node 1%positive (Some 12%positive) (Some 13%positive)]>
               (<[12%positive := mk_node 2%positive None None]>
               (<[13%positive := mk_node 3%positive None None]> ∅))) : heap addr).
  pose (g4 := (<[11%positive := mk_node 1%positive (Some 12%positive) (Some 13%positive)]>
               (<[12%positive := mk_node 2%positive (Some 14%positive) None]>
               (<[13%positive := mk_node 3%positive None None]>
               (<[14%positive := mk_node 4%positive None None]> ∅)))) : heap addr).
  assert (insert_run cmp50 (Some T1) g1) as Hrun1.
  { apply (run_insert cmp50 (ds_tree_create true) ∅ (Some 11%positive)
             (Some 1%positive) DS_OK (Some T1) g1).
    - apply run_created.
    - intros a _. apply lookup_empty.
    - vm_compute. reflexivity. }
  assert (insert_run cmp50 (Some (mk_tree (Some 11%positive) 2)) g2) as Hrun2.
  { apply (run_insert cmp50 (Some T1) g1 (Some 12%positive)
             (Some 2%positive) DS_OK _ g2 Hrun1).
    - intros a [= <-]. vm_compute. reflexivity.
    - vm_compute. reflexivity. }
  assert (insert_run cmp50 (Some (mk_tree (Some 11%positive) 3)) g3) as Hrun3.
  { apply (run_insert cmp50 _ g2 (Some 13%positive)
             (Some 3%positive) DS_OK _ g3 Hrun2).
    - intros a [= <-]. vm_compute. reflexivity.
    - vm_compute. reflexivity. }
  assert (insert_run cmp50 (Some (mk_tree (Some 11%positive) 4)) g4) as Hrun4.
  { apply (run_insert cmp50 _ g3 (Some 14%positive)
             (Some 4%positive) DS_OK _ g4 Hrun3).
    - intros a [= <-]. vm_compute. reflexivity.
    - vm_compute. reflexivity. }
  apply (run_insert cmp50 _ g4 (Some 15%positive)
           (Some 5%positive) DS_OK (Some T5) h5 Hrun4).
  - intros a [= <-]. vm_compute. reflexivity.
  - vm_compute. reflexivity.
Qed.

(** C3 at the state reached by the five insertions of 50, 30, 70, 20 and
    40 into an empty tree: the in-order traversal returns the payloads of
    20, 30, 40, 50, 70 in this order, each compares at most equal to every
    later one and no two of them compare equal. *)
Lemma insert_run_inorder_ascending_witness :
  insert_run cmp50 (Some T5) h5 ∧
  inorder (S (size h5)) h5 (t_root T5) = Some [4; 2; 5; 1; 3]%positive ∧
  (∀ i j x y,
     [4; 2; 5; 1; 3]%positive !! i = Some x →
     [4; 2; 5; 1; 3]%positive !! j = Some y → (i < j)%nat → cmp50 x y ≤ 0) ∧
  (∀ i j x y,
     [4; 2; 5; 1; 3]%positive !! i = Some x →
     [4; 2; 5; 1; 3]%positive !! j = Some y → i ≠ j → cmp50 x y ≠ 0) ∧
  (∃ e (T' : option ds_tree) h',
     ds_tree_insert (Some 16%positive) (Some T5) (Some 7%positive) (Some cmp50) h5
       = Some (e, T', h')).
Proof.
  split; [exact run_T5|].
  destruct (insert_run_inorder_ascending cmp50 (Some T5) h5 cmp50_total run_T5)
    as (T0 & xs & HT & Hin & Hle & Hne & Hret).
  injection HT as <-. vm_compute in Hin. injection Hin as <-.
  split_and!; [reflexivity|exact Hle|exact Hne|].
  apply Hret. intros a [= <-]. vm_compute. reflexivity.
Defined.

(** C6 as stated does not hold: at the tree of 50, 30, 70, 20, 40 an
    insertion of a key equal to 50 whose allocation fails returns
    [DS_ERR_OOM], not [DS_OK]. *)
Lemma duplicate_insert_oom_counterexample :
  (1%positive ∈ elems t5 ∧ cmp50 6%positive 1%positive = 0) ∧
  ds_tree_insert None (Some T5) (Some 6%positive) (Some cmp50) h5
    = Some (DS_ERR_OOM, Some T5, h5) ∧
  ds_tree_insert None (Some T5) (Some 6%positive) (Some cmp50) h5
    ≠ Some (DS_OK, Some T5, h5).
Proof.
  split_and!; [|reflexivity|reflexivity|discriminate].
  apply (bool_decide_unpack _). vm_compute. exact I.
Qed.

(** C6 at the same tree with a successful allocation of the block 16. *)
Lemma duplicate_insert_unchanged_witness :
  ds_tree_insert (Some 16%positive) (Some T5) (Some 6%positive) (Some cmp50) h5
    = Some (DS_OK, Some T5, h5).
Proof.
  apply (duplicate_insert_unchanged cmp50 6%positive h5 T5 t5 1%positive
           (Some 16%positive) cmp50_total shape5 bst5).
  - apply (bool_decide_unpack _). vm_compute. exact I.
  - reflexivity.
  - intros a [= <-]. vm_compute. reflexivity.
Defined.

(** C4 as stated does not hold: [ds_tree_insert] and [ds_list_remove] on a
    live container with a payload and a [NULL] comparator return
    [DS_ERR_NULLARG], not [DS_ERR_INVALID]. *)
Lemma null_comparator_counterexample :
  ds_tree_insert (Some 16%positive) (Some T5) (Some 6%positive) None h5
    = Some (DS_ERR_NULLARG, Some T5, h5) ∧
  ds_tree_insert (Some 16%positive) (Some T5) (Some 6%positive) None h5
    ≠ Some (DS_ERR_INVALID, Some T5, h5) ∧
  ds_list_remove (Some (mk_list None None 0)) (Some 6%positive) None
      (∅ : lheap addr)
    = Some (DS_ERR_NULLARG, Some (mk_list None None 0), ∅).
Proof. split_and!; [reflexivity|discriminate|reflexivity]. Qed.

(** C8 for three payloads pushed into the blocks 21, 22, 23. *)
Lemma push_back_pop_front_fifo_witness :
  ∃ L h L' h',
    push_all [(21, 1); (22, 2); (23, 3)]%positive (ds_list_create true)
        (∅ : lheap addr)
      = Some ([DS_OK; DS_OK; DS_OK], L, h) ∧
    pop_all 4 L h = Some ([1; 2; 3]%positive, L', h') ∧
    ds_list_pop_front L' h' = Some (None, L', h').
Proof.
  apply (push_back_pop_front_fifo [(21, 1); (22, 2); (23, 3)]%positive ∅).
  - apply (bool_decide_unpack _). vm_compute. exact I.
  - intros a _. apply lookup_empty.
Defined.

(** C10 at the tree 50(30, 70(60(-, 65), -)): after removing 50 the node
    65 in the block 15, the right child of the successor, is reachable,
    and the block 14 of the successor is not. *)
Lemma successor_right_spliced_witness :
  ∃ T' h',
    ds_tree_remove (Some T6) (Some 6%positive) (Some cmp50) h6
      = Some (DS_OK, Some T', h') ∧
    reachable h' (t_root T') 15%positive ∧
    ¬ reachable h' (t_root T') 14%positive.
Proof.
  destruct (successor_right_spliced cmp50 6%positive h6 T6 t6
              (Node Leaf 12 2 Leaf)%positive 11%positive 1%positive
              (Node (Node Leaf 14 7 (Node Leaf 15 8 Leaf)) 13 3 Leaf)%positive
              cmp50_total shape6 bst6
              ltac:(left; reflexivity) ltac:(reflexivity)
              ltac:(discriminate) ltac:(discriminate))
    as (sa & sn & T' & h' & Hmin & Hsn & Hrun & _ & _ & Hright & Hgone).
  vm_compute in Hmin. injection Hmin as <- _.
  vm_compute in Hsn. injection Hsn as <-.
  exists T', h'. split_and!; [exact Hrun| |exact Hgone].
  apply Hright. reflexivity.
Defined.

End Instances.

(** ** More properties of the tree *)
Module TreeExtraProofs.
Import DsTree TreeModel TreeProofs TreeExtra.
Section proofs.
Context {V : Type}.
Implicit Types (h : heap V) (t l r : tree V) (T : ds_tree) (cmp : V → V → Z).

Lemma nodes_addrs t : (nodes t).*1 = addrs t.
Proof.
  induction t as [|l IHl a d r IHr]; [done|].
  simpl. by rewrite fmap_app, fmap_cons, IHl, IHr.
Qed.

Lemma nodes_elems t : (nodes t).*2 = elems t.
Proof.
  induction t as [|l IHl a d r IHr]; [done|].
  simpl. by rewrite fmap_app, fmap_cons, IHl, IHr.
Qed.

Lemma nodes_tinsert cmp a (d : V) t :
  thas cmp d t = false → nodes (tinsert cmp a d t) ≡ₚ (a, d) :: nodes t.
Proof.
  induction t as [|l IHl b x r IHr]; [done|].
  rewrite thas_node. simpl.
  destruct (cmp d x <? 0); [|destruct (cmp d x >? 0)]; intros Hh; [| |done]; simpl.
  - by rewrite IHl.
  - rewrite IHr by done. rewrite <-!Permutation_middle. apply perm_swap.
Qed.

Lemma tree_repr_nodes h t b (x : V) :
  tree_repr h t → (b, x) ∈ nodes t → n_data <$> h !! b = Some x.
Proof.
  induction t as [|l IHl a d r IHr]; simpl; [set_solver|].
  intros (Ha & Hl & Hr). rewrite elem_of_app, elem_of_cons.
  intros [Hin|[[= -> ->]|Hin]]; [auto| |auto]. by rewrite Ha.
Qed.

Lemma elems_subtree (x : V) t :
  x ∈ elems t → ∃ l c r, subtree (Node l c x r) t.
Proof.
  induction t as [|l IHl a d r IHr]; simpl; [set_solver|].
  rewrite elem_of_app, elem_of_cons. intros [Hin|[->|Hin]].
  - destruct (IHl Hin) as (l' & c & r' & Hs). exists l', c, r'. auto.
  - exists l, a, r. by left.
  - destruct (IHr Hin) as (l' & c & r' & Hs). exists l', c, r'. auto.
Qed.

(** The search loop of [ds_tree_find] below a represented subtree ends at
    the node where the descent on the shape stops. *)
Lemma find_loop_spec cmp (target : V) h t : ∀ fuel,
  tree_repr h t → (height t < fuel)%nat →
  find_loop fuel cmp target h (ptr_of t)
    = Some (troot_data (tlookup cmp target t)).
Proof.
  induction t as [|l IHl b x r IHr]; intros fuel Hrep Hf.
  - destruct fuel; [simpl in Hf; lia|]. done.
  - destruct fuel as [|fuel]; [simpl in Hf; lia|]. simpl in Hf.
    destruct Hrep as (Hb & Hl & Hr). simpl. rewrite Hb. simpl.
    destruct (cmp target x <? 0); [apply IHl; [done|lia]|].
    destruct (cmp target x >? 0); [apply IHr; [done|lia]|]. done.
Qed.

Lemma ds_tree_find_shape cmp (target : V) h T t :
  tree_shape h T t →
  ds_tree_find (Some T) (Some target) (Some cmp) h
    = Some (troot_data (tlookup cmp target t)).
Proof.
  intros [Hroot Hrep Hnd]. unfold ds_tree_find. rewrite Hroot.
  apply find_loop_spec; [done|]. by apply fuel_enough.
Qed.

Lemma cmp_refl cmp (d : V) : total_cmp cmp → cmp d d = 0.
Proof.
  intros Htot. pose proof (cmp_antisym cmp Htot d d) as Hs.
  destruct (cmp d d); simpl in Hs; lia.
Qed.

(** In a strictly ascending sequence two keys that compare equal to the
    same target are at the same position. *)
Lemma ascending_unique cmp (target : V) (xs1 xs2 : list V) x y :
  total_cmp cmp → ascending cmp (xs1 ++ x :: xs2) →
  cmp target x = 0 → y ∈ xs1 ++ xs2 → cmp target y ≠ 0.
Proof.
  intros Htot Hasc Hx Hy Hty. unfold ascending in Hasc.
  rewrite StronglySorted_app, StronglySorted_cons, Forall_forall in Hasc.
  destruct Hasc as (Hcross & _ & Hx2 & _).
  pose proof (cmp_eq_compat cmp Htot target x y Hx) as Hsx.
  pose proof (cmp_eq_compat cmp Htot target y x Hty) as Hsy.
  rewrite Hty in Hsx. rewrite Hx in Hsy. simpl in Hsx, Hsy.
  apply elem_of_app in Hy as [Hy|Hy].
  - assert (cmp y x < 0) as Hlt by (apply Hcross; [done|left]).
    destruct (cmp y x); simpl in Hsy; lia.
  - assert (cmp x y < 0) as Hlt by (by apply Hx2).
    destruct (cmp x y); simpl in Hsx; lia.
Qed.

Lemma tlookup_tinsert cmp a (d : V) t :
  cmp d d = 0 →
  ∃ l c y r, tlookup cmp d (tinsert cmp a d t) = Node l c y r ∧ cmp d y = 0 ∧
    (thas cmp d t = false → y = d).
Proof.
  intros Hdd. induction t as [|l IHl b x r IHr].
  - exists Leaf, a, d, Leaf. simpl. rewrite Hdd. simpl. done.
  - rewrite thas_node. simpl.
    destruct (cmp d x <? 0) eqn:Hlt; [|destruct (cmp d x >? 0) eqn:Hgt]; simpl;
      rewrite ?Hlt, ?Hgt; [done|done|].
    exists l, b, x, r. split; [done|]. split; [lia|done].
Qed.

(** [ds_tree_insert] on a live tree writes no block but the new one and
    blocks of the tree. *)
Lemma ds_tree_insert_frame cmp (d : V) h T t a e (T' : option ds_tree) h' :
  tree_shape h T t → h !! a = None →
  ds_tree_insert (Some a) (Some T) (Some d) (Some cmp) h = Some (e, T', h') →
  ∀ b, b ≠ a → b ∉ addrs t → h' !! b = h !! b.
Proof.
  intros [Hroot Hrep Hnd] Hfresh Hrun b Hba Hbt.
  pose proof (tree_repr_fresh _ _ _ Hrep Hfresh) as Hnew.
  unfold ds_tree_insert in Hrun. cbv zeta in Hrun. rewrite Hroot in Hrun.
  set (h1 := <[a := mk_node d None None]> h) in *.
  assert (tree_repr h1 t) as Hrep1 by by apply tree_repr_insert.
  assert (h1 !! a = Some (mk_node d None None)) as Hnn by apply lookup_insert_eq.
  assert (h1 !! b = h !! b) as Hb1 by (by apply lookup_insert_ne).
  destruct (ptr_of t) as [r|] eqn:Hp.
  - pose proof (insert_loop_spec cmp d h1 a t (S (size h1)) None
                  Hrep1 Hnd Hnew Hnn (fuel_enough _ _ Hrep1 Hnd)) as Hloop.
    rewrite Hp in Hloop.
    destruct (insert_loop (S (size h1)) cmp d h1 (Some r) None) as [[|p]|];
      [| |done]; simpl in Hrun.
    + injection Hrun as <- <- <-. rewrite lookup_delete_ne by done. done.
    + destruct Hloop as [_ Hloop]. destruct t as [|l0 b0 x0 r0]; [done|].
      destruct Hloop as (pa & pn & -> & Hpa & Hpn & _).
      simpl in Hrun. rewrite Hpn in Hrun. simpl in Hrun.
      injection Hrun as <- <- <-.
      assert (b ≠ pa) by (intros ->; done).
      destruct (cmp d (n_data pn) <? 0); by rewrite lookup_insert_ne.
  - injection Hrun as <- <- <-. done.
Qed.

Lemma cached_S n : cached (S n) = size_incr (cached n).
Proof.
  unfold cached, size_incr. rewrite Nat2Z.inj_succ, <-Z.add_1_r.
  by rewrite Z.add_mod_idemp_l.
Qed.

Lemma cached_pred n : cached n = size_decr (cached (S n)).
Proof.
  unfold cached, size_decr. rewrite Nat2Z.inj_succ, <-Z.add_1_r.
  rewrite Zminus_mod_idemp_l. f_equal. lia.
Qed.

Lemma cached_range n : 0 ≤ cached n < 2 ^ SIZE_WIDTH.
Proof. unfold cached. apply Z.mod_pos_bound. done. Qed.

(** The states reached by insertions and removals are live search trees
    whose cached count is the node count. *)
Lemma tree_run_shape cmp (T : option ds_tree) h :
  total_cmp cmp → tree_run cmp T h →
  ∃ T0 t, T = Some T0 ∧ tree_shape h T0 t ∧ bst cmp t ∧
    t_size T0 = cached (length (addrs t)).
Proof.
  intros Htot.
  induction 1 as [h|T h new data c e T' h' Hrun IH Hc Hfresh Hcall
                   |T h target c e T' h' Hrun IH Hc Hcall].
  - exists (mk_tree None 0), Leaf. split; [done|]. split_and!; [|done|done].
    split; [done|done|constructor].
  - destruct IH as (T0 & t & -> & Hshape & Hbst & Hsize).
    destruct Hc as [-> | ->]; [destruct data; simpl in Hcall; simplify_eq; eauto 10|].
    destruct data as [d|]; [|simpl in Hcall; simplify_eq; eauto 10].
    destruct new as [a|]; [|simpl in Hcall; simplify_eq; eauto 10].
    destruct (ds_tree_insert_shape cmp d h T0 t a Hshape (Hfresh a eq_refl))
      as (T1 & h1 & Hcall' & Hshape' & Hsame).
    rewrite Hcall in Hcall'. injection Hcall' as -> -> ->.
    exists T1, (tinsert cmp a d t). split; [done|].
    split_and!; [done|by apply bst_tinsert|].
    destruct (thas cmp d t) eqn:Hh.
    + destruct Hsame as [-> ->]. by rewrite tinsert_has.
    + rewrite Hsame, Hsize, <-cached_S. f_equal.
      rewrite <-!nodes_addrs, !length_fmap.
      by rewrite (nodes_tinsert cmp a d t Hh).
  - destruct IH as (T0 & t & -> & Hshape & Hbst & Hsize).
    destruct Hc as [-> | ->]; [destruct target; simpl in Hcall; simplify_eq; eauto 10|].
    destruct target as [d|]; [|simpl in Hcall; simplify_eq; eauto 10].
    pose proof (ds_tree_remove_shape cmp d h T0 t Hshape) as Hrem.
    destruct (thas cmp d t) eqn:Hh.
    + destruct Hrem as (T1 & h1 & Hcall' & Hshape' & Hsize' & _).
      rewrite Hcall in Hcall'. injection Hcall' as -> -> ->.
      exists T1, (tremove cmp d t). split; [done|].
      split_and!; [done|by apply bst_tremove|].
      destruct (tremove_addrs cmp d t Hh) as (g & _ & Hperm).
      rewrite Hsize', Hsize, Hperm. simpl. by rewrite <-cached_pred.
    + rewrite Hcall in Hrem. injection Hrem as -> -> ->. eauto 10.
Qed.

Lemma release_lookup (l : list addr) h a :
  foldr delete h l !! a = if decide (a ∈ l) then None else h !! a.
Proof.
  induction l as [|b l IH]; simpl; [done|].
  destruct (decide (a = b)) as [-> | Hne].
  - rewrite lookup_delete_eq. rewrite decide_True; [done|left].
  - rewrite lookup_delete_ne by done. rewrite IH.
    destruct (decide (a ∈ l)).
    + rewrite decide_True; [done|by right].
    + rewrite decide_False; [done|]. rewrite elem_of_cons. tauto.
Qed.

(** [free_subtree] on a represented subtree: it returns, the blocks of the
    subtree are released and no other, and the destructor has been called
    on the payloads in post-order. *)
Lemma free_subtree_spec {W : Type} (fd : option (V → W → W)) t : ∀ fuel h (w : W),
  tree_repr h t → NoDup (addrs t) → (height t < fuel)%nat →
  ∃ h', free_subtree fuel (ptr_of t) fd h w
          = Some (h', destroy_all fd (postorder t) w) ∧
    ∀ a, h' !! a = if decide (a ∈ addrs t) then None else h !! a.
Proof.
  induction t as [|l IHl b x r IHr]; intros fuel h w Hrep Hnd Hf.
  - destruct fuel; [simpl in Hf; lia|]. exists h. split; [by destruct fd|].
    intros a. rewrite decide_False; [done|]. apply not_elem_of_nil.
  - destruct fuel as [|fuel]; [simpl in Hf; lia|]. simpl in Hf.
    destruct Hrep as (Hb & Hl & Hr).
    destruct (nodup_node l b x r Hnd) as (Hndl & Hndr & Hbl & Hbr & Hdisj).
    destruct (IHl fuel h w Hl Hndl ltac:(lia)) as (h1 & Hrun1 & Hh1).
    assert (tree_repr h1 r) as Hr1.
    { apply tree_repr_agree with h; [|done]. intros a Ha. rewrite Hh1.
      rewrite decide_False; [done|]. intros Hal. by apply (Hdisj a). }
    destruct (IHr fuel h1 (destroy_all fd (postorder l) w) Hr1 Hndr ltac:(lia))
      as (h2 & Hrun2 & Hh2).
    exists (delete b h2). split.
    + cbn [free_subtree ptr_of]. rewrite Hb. cbn [mbind option_bind n_left n_right n_data].
      rewrite Hrun1. cbn [mbind option_bind]. rewrite Hrun2. cbn [mbind option_bind].
      f_equal. f_equal. unfold destroy_all. destruct fd as [f|]; [|done].
      simpl. by rewrite !foldl_app.
    + intros a. simpl. destruct (decide (a = b)) as [-> | Hne].
      * rewrite lookup_delete_eq. rewrite decide_True; [done|]. set_solver.
      * rewrite lookup_delete_ne by done. rewrite Hh2, Hh1.
        destruct (decide (a ∈ addrs r)), (decide (a ∈ addrs l)).
        -- rewrite decide_True; [done|set_solver].
        -- rewrite decide_True; [done|set_solver].
        -- rewrite decide_True; [done|set_solver].
        -- rewrite decide_False; [done|set_solver].
Qed.

Lemma nodes_tremove_single cmp (target : V) t l c x r :
  tlookup cmp target t = Node l c x r → l = Leaf ∨ r = Leaf →
  ∃ ys1 ys2, nodes t = ys1 ++ (c, x) :: ys2 ∧
    nodes (tremove cmp target t) = ys1 ++ ys2.
Proof.
  intros Hlook Hone. induction t as [|tl IHl b y tr IHr]; [done|].
  simpl in Hlook. simpl tremove.
  destruct (cmp target y <? 0); [|destruct (cmp target y >? 0)].
  - destruct (IHl Hlook) as (ys1 & ys2 & Hn & Hn').
    exists ys1, (ys2 ++ (b, y) :: nodes tr). simpl. rewrite Hn, Hn'.
    by rewrite <-!app_assoc.
  - destruct (IHr Hlook) as (ys1 & ys2 & Hn & Hn').
    exists (nodes tl ++ (b, y) :: ys1), ys2. simpl. rewrite Hn, Hn'.
    by rewrite <-!app_assoc.
  - injection Hlook as -> -> -> ->. destruct Hone as [-> | ->].
    + exists [], (nodes r). done.
    + exists (nodes l), []. simpl. rewrite app_nil_r. by destruct l.
Qed.

Lemma tmin_head (t : tree V) : tmin t = head (nodes t).
Proof.
  induction t as [|l IHl a d r _]; [done|].
  destruct l as [|ll la ld lr]; [done|].
  change (tmin (Node (Node ll la ld lr) a d r)) with (tmin (Node ll la ld lr)).
  rewrite IHl. simpl nodes. by destruct (nodes ll).
Qed.

End proofs.
End TreeExtraProofs.

(** ** The tree: lookup, insertion, removal, release *)
Module TreeFacts.
Import DsTree TreeModel TreeProofs TreeExtra TreeExtraProofs.
Section generic.
Context {V : Type}.
Implicit Types (h : heap V) (t l r : tree V) (T : ds_tree) (cmp : V → V → Z).

(** X1.  On a live tree that is a search tree under a total comparator,
    [ds_tree_find] returns the stored payload reference that compares
    equal to the target, when there is one; on any live tree it returns
    [NULL] when no stored payload compares equal to the target. *)
Theorem tree_find_present_absent cmp (target : V) h T t :
  tree_shape h T t →
  (total_cmp cmp → bst cmp t →
   ∀ x, x ∈ elems t → cmp target x = 0 →
     ds_tree_find (Some T) (Some target) (Some cmp) h = Some (Some x)) ∧
  ((∀ x, x ∈ elems t → cmp target x ≠ 0) →
   ds_tree_find (Some T) (Some target) (Some cmp) h = Some None).
Proof.
  intros Hshape. rewrite (ds_tree_find_shape cmp target h T t Hshape). split.
  - intros Htot Hbst x Hx Heq.
    destruct (elems_subtree x t Hx) as (l & c & r & Hsub).
    by rewrite (tlookup_subtree cmp target t l c x r Htot Hbst Hsub Heq).
  - intros Habs. pose proof (thas_absent cmp target t Habs) as Hh.
    unfold thas in Hh. by destruct (tlookup cmp target t).
Qed.

(** X2.  On a live search tree, [ds_tree_insert] of a key that compares
    equal to no stored key, with a fresh block [a], returns [DS_OK]; the
    tree is a live search tree again whose nodes are the old ones, with
    their blocks and payloads, and the block [a] with the new payload; the
    cached count is incremented; no block outside the tree is written. *)
Theorem tree_insert_new_key cmp (d : V) h T t a :
  tree_shape h T t → bst cmp t → h !! a = None →
  (∀ x, x ∈ elems t → cmp d x ≠ 0) →
  ∃ T' h' t',
    ds_tree_insert (Some a) (Some T) (Some d) (Some cmp) h
      = Some (DS_OK, Some T', h') ∧
    tree_shape h' T' t' ∧ bst cmp t' ∧
    nodes t' ≡ₚ (a, d) :: nodes t ∧
    (∀ b x, (b, x) ∈ nodes t' → n_data <$> h' !! b = Some x) ∧
    t_size T' = size_incr (t_size T) ∧
    (∀ b, b ≠ a → b ∉ addrs t → h' !! b = h !! b).
Proof.
  intros Hshape Hbst Hfresh Habs.
  pose proof (thas_absent cmp d t Habs) as Hh.
  destruct (ds_tree_insert_shape cmp d h T t a Hshape Hfresh)
    as (T' & h' & Hrun & Hshape' & Hsize).
  rewrite Hh in Hsize.
  exists T', h', (tinsert cmp a d t).
  split_and!; [done|done|by apply bst_tinsert|by apply nodes_tinsert| |done|].
  - intros b x. apply tree_repr_nodes. by destruct Hshape'.
  - by eapply ds_tree_insert_frame.
Qed.

(** X3.  After a [ds_tree_insert] of [d] with a fresh block on a live
    tree, [ds_tree_find] of [d] returns a payload that compares equal to
    [d]: [d] itself when no stored key compared equal to it before. *)
Theorem tree_insert_then_find cmp (d : V) h T t a :
  tree_shape h T t → h !! a = None → cmp d d = 0 →
  ∃ T' h' y,
    ds_tree_insert (Some a) (Some T) (Some d) (Some cmp) h
      = Some (DS_OK, Some T', h') ∧
    ds_tree_find (Some T') (Some d) (Some cmp) h' = Some (Some y) ∧
    cmp d y = 0 ∧
    ((∀ x, x ∈ elems t → cmp d x ≠ 0) → y = d).
Proof.
  intros Hshape Hfresh Hdd.
  destruct (ds_tree_insert_shape cmp d h T t a Hshape Hfresh)
    as (T' & h' & Hrun & Hshape' & _).
  destruct (tlookup_tinsert cmp a d t Hdd) as (l & c & y & r & Hlook & Hy & Hnew).
  exists T', h', y. split_and!; [done| |done|].
  - rewrite (ds_tree_find_shape cmp d h' T' _ Hshape'). by rewrite Hlook.
  - intros Habs. apply Hnew. by apply thas_absent.
Qed.

(** X4.  On a live search tree under a total comparator, [ds_tree_remove]
    of a target that compares equal to a stored key returns [DS_OK] in all
    three cases (leaf, one child, two children): the in-order sequence of
    payloads loses exactly one element, which compares equal to the
    target, and keeps the others in order; one block of the tree is
    released; the cached count is decremented; the tree is a live search
    tree again; no block outside the tree is written. *)
Theorem tree_remove_found cmp (target : V) h T t x :
  total_cmp cmp → tree_shape h T t → bst cmp t →
  x ∈ elems t → cmp target x = 0 →
  ∃ T' h' t' gone xs1 x' xs2,
    ds_tree_remove (Some T) (Some target) (Some cmp) h
      = Some (DS_OK, Some T', h') ∧
    tree_shape h' T' t' ∧ bst cmp t' ∧
    elems t = xs1 ++ x' :: xs2 ∧ cmp target x' = 0 ∧ elems t' = xs1 ++ xs2 ∧
    addrs t ≡ₚ gone :: addrs t' ∧ h' !! gone = None ∧
    t_size T' = size_decr (t_size T) ∧
    (∀ b, b ∉ addrs t → h' !! b = h !! b).
Proof.
  intros Htot Hshape Hbst Hx Heq.
  pose proof (thas_present cmp target t x Htot Hbst Hx Heq) as Hh.
  pose proof (ds_tree_remove_shape cmp target h T t Hshape) as Hrem.
  rewrite Hh in Hrem.
  destruct Hrem as (T' & h' & Hrun & Hshape' & Hsize & Hfr & Hgone & _).
  destruct (tremove_elems cmp target t Hh) as (xs1 & x' & xs2 & Hx' & He & He').
  destruct (tremove_addrs cmp target t Hh) as (g & Hg & Hperm).
  exists T', h', (tremove cmp target t), g, xs1, x', xs2.
  split_and!; [done|done|by apply bst_tremove|done|done|done|done| |done|done].
  apply Hgone; [done|]. pose proof (shape_nodup _ _ _ Hshape) as Hnd.
  rewrite Hperm in Hnd. by apply NoDup_cons in Hnd as [? _].
Qed.

(** X5.  Cases 1 and 2 of [ds_tree_remove]: when the node [c] that holds
    the key has at most one child, the block released is [c] itself and
    every other node stays in its block with its payload, in the same
    order. *)
Theorem tree_remove_single_child cmp (target : V) h T t l c x r :
  total_cmp cmp → tree_shape h T t → bst cmp t →
  subtree (Node l c x r) t → cmp target x = 0 → l = Leaf ∨ r = Leaf →
  ∃ T' h' t' ys1 ys2,
    ds_tree_remove (Some T) (Some target) (Some cmp) h
      = Some (DS_OK, Some T', h') ∧
    tree_shape h' T' t' ∧
    nodes t = ys1 ++ (c, x) :: ys2 ∧ nodes t' = ys1 ++ ys2 ∧
    h' !! c = None ∧
    (∀ b y, (b, y) ∈ ys1 ++ ys2 → n_data <$> h' !! b = Some y).
Proof.
  intros Htot Hshape Hbst Hsub Heq Hone.
  pose proof (tlookup_subtree cmp target t l c x r Htot Hbst Hsub Heq) as Hlook.
  assert (thas cmp target t = true) as Hh by (unfold thas; by rewrite Hlook).
  pose proof (ds_tree_remove_shape cmp target h T t Hshape) as Hrem.
  rewrite Hh in Hrem.
  destruct Hrem as (T' & h' & Hrun & Hshape' & Hsize & Hfr & Hgone & _).
  destruct (nodes_tremove_single cmp target t l c x r Hlook Hone)
    as (ys1 & ys2 & Hn & Hn').
  exists T', h', (tremove cmp target t), ys1, ys2.
  split_and!; [done|done|done|done| |].
  - pose proof (shape_nodup _ _ _ Hshape) as Hnd.
    rewrite <-nodes_addrs, Hn, fmap_app, fmap_cons in Hnd.
    apply NoDup_app in Hnd as (_ & Hd & Hnd). apply NoDup_cons in Hnd as [Hc2 _].
    apply Hgone.
    + rewrite <-nodes_addrs, Hn, fmap_app, fmap_cons. set_solver.
    + rewrite <-nodes_addrs, Hn', fmap_app. intros Hin.
      apply elem_of_app in Hin as [Hin|Hin]; [|done].
      apply (Hd c Hin). left.
  - intros b y Hin. rewrite <-Hn' in Hin.
    eapply tree_repr_nodes; [|exact Hin]. by destruct Hshape'.
Qed.

(** X6.  After [ds_tree_remove] of a target on a live search tree under a
    total comparator, whatever its status, [ds_tree_find] of the target
    returns [NULL], and every stored key that does not compare equal to
    the target is still found. *)
Theorem tree_remove_then_find cmp (target : V) h T t :
  total_cmp cmp → tree_shape h T t → bst cmp t →
  ∃ e T' h',
    ds_tree_remove (Some T) (Some target) (Some cmp) h = Some (e, Some T', h') ∧
    ds_tree_find (Some T') (Some target) (Some cmp) h' = Some None ∧
    (∀ y, y ∈ elems t → cmp target y ≠ 0 →
       ds_tree_find (Some T') (Some y) (Some cmp) h' = Some (Some y)).
Proof.
  intros Htot Hshape Hbst.
  pose proof (ds_tree_remove_shape cmp target h T t Hshape) as Hrem.
  assert (∀ T' h' t', tree_shape h' T' t' → bst cmp t' →
            (∀ y, y ∈ elems t → cmp target y ≠ 0 → y ∈ elems t') →
            (∀ y, y ∈ elems t' → cmp target y ≠ 0) →
            ds_tree_find (Some T') (Some target) (Some cmp) h' = Some None ∧
            (∀ y, y ∈ elems t → cmp target y ≠ 0 →
               ds_tree_find (Some T') (Some y) (Some cmp) h' = Some (Some y)))
    as Hfind.
  { intros T' h' t' Hshape' Hbst' Hkeep Habs. split.
    - rewrite (ds_tree_find_shape cmp target h' T' t' Hshape').
      pose proof (thas_absent cmp target t' Habs) as Hh'.
      unfold thas in Hh'. by destruct (tlookup cmp target t').
    - intros y Hy Hne.
      rewrite (ds_tree_find_shape cmp y h' T' t' Hshape').
      destruct (elems_subtree y t' (Hkeep y Hy Hne)) as (l & c & r & Hsub).
      rewrite (tlookup_subtree cmp y t' l c y r Htot Hbst' Hsub); [done|].
      by apply cmp_refl. }
  destruct (thas cmp target t) eqn:Hh.
  - destruct Hrem as (T' & h' & Hrun & Hshape' & _).
    destruct (tremove_elems cmp target t Hh) as (xs1 & x' & xs2 & Hx' & He & He').
    pose proof (bst_ascending cmp t Htot Hbst) as Hasc. rewrite He in Hasc.
    exists DS_OK, T', h'. split; [done|].
    apply (Hfind T' h' (tremove cmp target t) Hshape' (bst_tremove cmp target t Htot Hbst)).
    + intros y Hy Hne. rewrite He'. rewrite He in Hy.
      apply elem_of_app in Hy as [Hy|Hy]; [set_solver|].
      apply elem_of_cons in Hy as [->|Hy]; [done|set_solver].
    + intros y Hy. rewrite He' in Hy.
      by apply (ascending_unique cmp target xs1 xs2 x' y Htot Hasc Hx').
  - exists DS_ERR_NOTFOUND, T, h. split; [done|].
    apply (Hfind T h t Hshape Hbst); [done|].
    intros y Hy Heq. pose proof (thas_present cmp target t y Htot Hbst Hy Heq).
    congruence.
Qed.

(** X7.  [ds_tree_free] of a live tree returns [DS_OK]; every block of the
    tree is released and no other block changes; a destructor, if given,
    has been called exactly on the stored payloads, in post-order. *)
Theorem tree_free_releases_all {W : Type} (free_data : option (V → W → W))
    h T t (w : W) :
  tree_shape h T t →
  ∃ h',
    ds_tree_free (Some T) free_data h w
      = Some (DS_OK, h', destroy_all free_data (postorder t) w) ∧
    (∀ a, a ∈ addrs t → h' !! a = None) ∧
    (∀ a, a ∉ addrs t → h' !! a = h !! a).
Proof.
  intros [Hroot Hrep Hnd].
  destruct (free_subtree_spec free_data t (S (size h)) h w Hrep Hnd
              (fuel_enough h t Hrep Hnd)) as (h' & Hrun & Hh').
  exists h'. unfold ds_tree_free. rewrite Hroot, Hrun. split; [done|].
  split; intros a Ha; rewrite Hh'.
  - by rewrite decide_True.
  - by rewrite decide_False.
Qed.

(** X8.  In every state reached from an empty tree by calls of
    [ds_tree_insert] and [ds_tree_remove] under a total comparator, the
    cached size is the value [count_nodes] computes from the root, the
    in-order traversal is strictly ascending, and a further insertion with
    a fresh block, removal or lookup returns. *)
Theorem tree_run_invariant cmp (T : option ds_tree) h :
  total_cmp cmp → tree_run cmp T h →
  ∃ T0 xs,
    T = Some T0 ∧
    count_nodes (S (size h)) h (t_root T0) = Some (ds_tree_size T) ∧
    inorder (S (size h)) h (t_root T0) = Some xs ∧ ascending cmp xs ∧
    ds_tree_size T = cached (length xs) ∧
    (∀ new data, (∀ a, new = Some a → h !! a = None) →
       ∃ e (T' : option ds_tree) h',
         ds_tree_insert new T data (Some cmp) h = Some (e, T', h')) ∧
    (∀ target, ∃ e (T' : option ds_tree) h',
       ds_tree_remove T target (Some cmp) h = Some (e, T', h')) ∧
    (∀ target, ∃ found, ds_tree_find T target (Some cmp) h = Some found).
Proof.
  intros Htot Hrun.
  destruct (tree_run_shape cmp T h Htot Hrun) as (T0 & t & -> & Hshape & Hbst & Hsize).
  pose proof Hshape as [Hroot Hrep Hnd].
  pose proof (fuel_enough h t Hrep Hnd) as Hfuel.
  exists T0, (elems t). simpl ds_tree_size.
  split_and!; [done| | |by apply bst_ascending| | | |].
  - rewrite Hroot, Hsize. by apply count_nodes_repr.
  - rewrite Hroot. by apply inorder_repr.
  - rewrite Hsize. by rewrite <-nodes_addrs, <-nodes_elems, !length_fmap.
  - intros new data Hfresh.
    destruct data as [d|]; [|simpl; eauto]. destruct new as [a|]; [|simpl; eauto].
    destruct (ds_tree_insert_shape cmp d h T0 t a Hshape (Hfresh a eq_refl))
      as (T1 & h1 & Hcall & _). eauto.
  - intros [d|]; [|simpl; eauto].
    pose proof (ds_tree_remove_shape cmp d h T0 t Hshape) as Hrem.
    destruct (thas cmp d t); [|eauto].
    destruct Hrem as (T1 & h1 & Hcall & _). eauto.
  - intros [d|]; [|simpl; eauto].
    rewrite (ds_tree_find_shape cmp d h T0 t Hshape). eauto.
Qed.

(** X9.  On a live search tree under a total comparator, [find_min] from
    the root returns the node that comes first in order, [NULL] for an
    empty tree; the payload of that node compares below or equal to every
    stored payload. *)
Theorem find_min_first_inorder cmp h T t :
  total_cmp cmp → tree_shape h T t → bst cmp t →
  find_min (S (size h)) h (t_root T) = Some (fst <$> head (nodes t)) ∧
  (∀ a x, head (nodes t) = Some (a, x) →
     n_data <$> h !! a = Some x ∧ ∀ y, y ∈ elems t → cmp x y ≤ 0).
Proof.
  intros Htot [Hroot Hrep Hnd] Hbst. split.
  - rewrite Hroot, <-tmin_head.
    apply find_min_repr; [done|]. by apply fuel_enough.
  - intros a x Hhead.
    destruct (nodes t) as [|[a' x'] ys] eqn:Hn; [done|].
    injection Hhead as -> ->. split.
    + apply (tree_repr_nodes h t a x Hrep). rewrite Hn. left.
    + pose proof (bst_ascending cmp t Htot Hbst) as Hasc.
      rewrite <-nodes_elems, Hn in Hasc |- *. simpl in Hasc |- *.
      apply StronglySorted_inv in Hasc as [_ Hall].
      rewrite Forall_forall in Hall.
      intros y Hy. apply elem_of_cons in Hy as [->|Hy].
      * by rewrite (cmp_refl cmp x Htot).
      * specialize (Hall y Hy). unfold cmp_lt in Hall. lia.
Qed.

End generic.
End TreeFacts.

(** ** More properties of the list *)
Module ListExtraProofs.
Import DsList ListModel ListProofs ListExtra TreeExtraProofs.
Section proofs.
Context {V : Type}.
Implicit Types (h : lheap V) (L : ds_list) (xs ys pre rest : list (addr * V)).

Lemma list_repr_app_r h xs ys : list_repr h (xs ++ ys) → list_repr h ys.
Proof.
  induction xs as [|[a d] xs IH]; [done|]. intros [_ Hxs]. auto.
Qed.

Lemma list_repr_lookup h xs a (d : V) ys :
  list_repr h (xs ++ (a, d) :: ys) → h !! a = Some (mk_lnode d (lptr ys)).
Proof. intros Hrep. by apply list_repr_app_r in Hrep as [? _]. Qed.

Lemma list_repr_dom h xs a : list_repr h xs → a ∈ xs.*1 → is_Some (h !! a).
Proof.
  induction xs as [|[b d] xs IH]; simpl; [set_solver|].
  intros [Hb Hxs]. rewrite elem_of_cons. intros [->|Hin]; eauto.
Qed.

Lemma list_count_le_size h xs :
  list_repr h xs → NoDup xs.*1 → (length xs ≤ size h)%nat.
Proof.
  intros Hrep Hnd.
  assert (xs.*1 ⊆+ (map_to_list h).*1) as Hsub.
  { apply NoDup_submseteq; [done|]. intros a Ha.
    destruct (list_repr_dom h xs a Hrep Ha) as [n Hn].
    apply list_elem_of_fmap. exists (a, n). split; [done|].
    by apply elem_of_map_to_list. }
  apply submseteq_length in Hsub.
  by rewrite !length_fmap, length_map_to_list in Hsub.
Qed.

Lemma lptr_tail_empty xs : lptr xs = None ↔ last xs.*1 = None.
Proof.
  destruct xs as [|[a d] xs]; [done|]. split; [done|].
  intros Hl. by apply last_None in Hl.
Qed.

(** Unlinking the node [a] that follows [p] in a represented chain. *)
Lemma list_repr_splice h : ∀ pre p (y : V) a x rest,
  list_repr h (pre ++ (p, y) :: (a, x) :: rest) →
  NoDup (pre ++ (p, y) :: (a, x) :: rest).*1 →
  list_repr (delete a (<[p := mk_lnode y (lptr rest)]> h))
    (pre ++ (p, y) :: rest).
Proof.
  induction pre as [|[b e] pre IH]; intros p y a x rest Hrep Hnd.
  - simpl in *. destruct Hrep as (Hp & Ha & Hrest).
    apply NoDup_cons in Hnd as [Hp' Hnd]. apply NoDup_cons in Hnd as [Ha' Hnd].
    assert (p ≠ a) by set_solver.
    split.
    + rewrite lookup_delete_ne by done. by rewrite lookup_insert_eq.
    + apply list_repr_agree with h; [|done]. intros c Hc.
      rewrite lookup_delete_ne by (intros ->; done).
      apply lookup_insert_ne. intros ->. set_solver.
  - change (((b, e) :: pre) ++ (p, y) :: (a, x) :: rest)
      with ((b, e) :: (pre ++ (p, y) :: (a, x) :: rest)) in Hrep, Hnd.
    change (((b, e) :: pre) ++ (p, y) :: rest)
      with ((b, e) :: (pre ++ (p, y) :: rest)).
    destruct Hrep as [Hb Hrep]. rewrite fmap_cons in Hnd.
    apply NoDup_cons in Hnd as [Hb' Hnd]. simpl in Hb'.
    split; [|by apply (IH p y a x rest)].
    rewrite fmap_app, !fmap_cons in Hb'. simpl in Hb'.
    rewrite lookup_delete_ne by set_solver.
    rewrite lookup_insert_ne by set_solver.
    rewrite Hb. f_equal. f_equal. by destruct pre as [|[? ?] ?].
Qed.

(** The scan of [ds_list_find] over a represented chain. *)
Lemma list_find_loop_spec cmp (target : V) h : ∀ xs fuel,
  list_repr h xs → (length xs < fuel)%nat →
  list_find_loop fuel cmp target h (lptr xs)
    = Some (first_match cmp target xs.*2).
Proof.
  induction xs as [|[a d] xs IH]; intros fuel Hrep Hf;
    (destruct fuel as [|fuel]; [simpl in Hf; lia|]); [done|].
  destruct Hrep as [Ha Hxs]. simpl. rewrite Ha. simpl.
  destruct (cmp d target =? 0); [done|]. apply IH; [done|]. simpl in Hf. lia.
Qed.

Lemma first_match_none cmp (target : V) (vs : list V) :
  (∀ y, y ∈ vs → cmp y target ≠ 0) → first_match cmp target vs = None.
Proof.
  induction vs as [|x vs IH]; [done|]. intros Hne. simpl.
  replace (cmp x target =? 0) with false by (specialize (Hne x ltac:(left)); lia).
  apply IH. intros y Hy. apply Hne. by right.
Qed.

Lemma first_match_app cmp (target : V) (vs1 vs2 : list V) x :
  (∀ y, y ∈ vs1 → cmp y target ≠ 0) → cmp x target = 0 →
  first_match cmp target (vs1 ++ x :: vs2) = Some x.
Proof.
  induction vs1 as [|z vs1 IH]; intros Hne Hx; simpl.
  - by replace (cmp x target =? 0) with true by lia.
  - replace (cmp z target =? 0) with false by (specialize (Hne z ltac:(left)); lia).
    apply IH; [|done]. intros y Hy. apply Hne. by right.
Qed.

(** The scan of [ds_list_remove] reaches the end of a represented chain
    without a match. *)
Lemma list_remove_loop_absent cmp (data : V) L h : ∀ rest fuel prev,
  list_repr h rest → (∀ y, y ∈ rest.*2 → cmp y data ≠ 0) →
  (length rest < fuel)%nat →
  list_remove_loop fuel cmp data L h (lptr rest) prev
    = Some (DS_ERR_NOTFOUND, L, h).
Proof.
  induction rest as [|[a x] rest IH]; intros fuel prev Hrep Hne Hf;
    (destruct fuel as [|fuel]; [simpl in Hf; lia|]); [done|].
  destruct Hrep as [Ha Hrest]. simpl. rewrite Ha. simpl.
  replace (cmp x data =? 0) with false
    by (specialize (Hne x ltac:(simpl; left)); lia).
  apply IH; [done| |simpl in Hf; lia].
  intros y Hy. apply Hne. simpl. by right.
Qed.

(** The scan of [ds_list_remove] over a live list whose first match is the
    node [a]: the nodes before [a] are [pre] and the ones scanned without a
    match, [r1]. *)
Lemma list_remove_loop_found cmp (data : V) L h a x r2 : ∀ r1 pre fuel,
  list_shape h L (pre ++ r1 ++ (a, x) :: r2) →
  (∀ y, y ∈ r1.*2 → cmp y data ≠ 0) → cmp x data = 0 →
  (length r1 < fuel)%nat →
  ∃ L' h',
    list_remove_loop fuel cmp data L h (lptr (r1 ++ (a, x) :: r2)) (last pre.*1)
      = Some (DS_OK, L', h') ∧
    list_shape h' L' (pre ++ r1 ++ r2) ∧
    l_size L' = size_decr (l_size L) ∧
    h' !! a = None ∧
    (∀ b, b ∉ (pre ++ r1 ++ (a, x) :: r2).*1 → h' !! b = h !! b).
Proof.
  induction r1 as [|[b z] r1 IH]; intros pre fuel Hshape Hne Hx Hf;
    (destruct fuel as [|fuel]; [simpl in Hf; lia|]).
  - destruct Hshape as [Hhead Htail Hrep Hnd]. simpl app in *.
    pose proof (list_repr_lookup h pre a x r2 Hrep) as Ha.
    simpl. rewrite Ha. simpl. replace (cmp x data =? 0) with true by lia.
    assert (NoDup (pre ++ r2).*1) as Hnd'.
    { rewrite fmap_app in Hnd |- *. rewrite fmap_cons in Hnd.
      apply NoDup_app in Hnd as (H1 & H2 & H3). apply NoDup_cons in H3 as [_ H3].
      apply NoDup_app. split_and!; [done| |done]. intros c Hc Hc2.
      apply (H2 c Hc). by right. }
    assert (a ∉ (pre ++ r2).*1) as Hanot.
    { rewrite fmap_app in Hnd |- *. rewrite fmap_cons in Hnd.
      apply NoDup_app in Hnd as (H1 & H2 & H3). apply NoDup_cons in H3 as [H4 H3].
      intros Hin. apply elem_of_app in Hin as [Hin|Hin]; [|done].
      apply (H2 a Hin). left. }
    destruct pre as [|[p0 y0] pre0] using rev_ind.
    + simpl in *. eexists _, _. split; [done|]. split_and!; [|done| |].
      * split; simpl.
        -- done.
        -- destruct r2 as [|[c e] r2]; [done|]. simpl. rewrite Htail. done.
        -- apply list_repr_agree with h; [|by destruct Hrep].
           intros c Hc. apply lookup_delete_ne. intros ->. done.
        -- done.
      * apply lookup_delete_eq.
      * intros c Hc. apply lookup_delete_ne. intros ->. apply Hc. left.
    + clear IHpre0. rewrite <-app_assoc in Hrep, Hnd, Hhead, Htail, Hnd', Hanot |- *.
      simpl app in *.
      pose proof (list_repr_lookup h pre0 p0 y0 ((a, x) :: r2) Hrep) as Hp.
      simpl in Hp.
      replace (last (pre0 ++ [(p0, y0)]).*1) with (Some p0)
        by (rewrite fmap_app; simpl; by rewrite last_snoc).
      rewrite Hp. simpl. eexists _, _. split; [done|].
      assert (p0 ≠ a).
      { intros ->. apply Hanot. rewrite fmap_app, fmap_cons. set_solver. }
      split_and!; [|done| |].
      * split; simpl.
        -- rewrite Hhead. by destruct pre0 as [|[? ?] ?].
        -- rewrite Htail.
           assert (last (pre0 ++ (p0, y0) :: (a, x) :: r2).*1 = last (a :: r2.*1))
             as -> by (by rewrite fmap_app, !fmap_cons, last_app_cons, last_cons_cons).
           assert (last (pre0 ++ (p0, y0) :: r2).*1 = last (p0 :: r2.*1))
             as -> by (by rewrite fmap_app, !fmap_cons, last_app_cons).
           destruct r2 as [|[c e] r2].
           ++ simpl. by rewrite decide_True.
           ++ rewrite fmap_cons, !last_cons_cons.
              rewrite decide_False; [done|]. intros Heq.
              assert (a ∈ ((c, e) :: r2).*1) as Hin.
              { apply last_Some_elem_of. symmetry. exact Heq. }
              apply Hanot. rewrite fmap_app, fmap_cons. set_solver.
        -- by apply (list_repr_splice h pre0 p0 y0 a x r2).
        -- done.
      * apply lookup_delete_eq.
      * intros c Hc. rewrite lookup_delete_ne.
        -- apply lookup_insert_ne. intros ->. apply Hc.
           rewrite !fmap_app. simpl. rewrite !elem_of_app, !elem_of_cons.
           naive_solver.
        -- intros ->. apply Hc.
           rewrite !fmap_app. simpl. rewrite !elem_of_app, !elem_of_cons.
           naive_solver.
  - pose proof Hshape as [Hhead Htail Hrep Hnd].
    pose proof (list_repr_lookup h pre b z (r1 ++ (a, x) :: r2) Hrep) as Hb.
    simpl. rewrite Hb. simpl.
    replace (cmp z data =? 0) with false
      by (specialize (Hne z ltac:(simpl; left)); lia).
    destruct (IH (pre ++ [(b, z)]) fuel) as (L' & h' & Hrun & Hshape' & Hsz & Hgone & Hfr).
    + by rewrite <-app_assoc.
    + intros y Hy. apply Hne. simpl. by right.
    + done.
    + simpl in Hf. lia.
    + replace (last (pre ++ [(b, z)]).*1) with (Some b) in Hrun
        by (rewrite fmap_app; simpl; by rewrite last_snoc).
      exists L', h'. rewrite <-!app_assoc in Hshape', Hfr. simpl in Hshape', Hfr.
      split_and!; [|done|done|done|done].
      destruct r1 as [|[? ?] ?]; exact Hrun.
Qed.

Lemma ds_list_push_front_shape h L xs a (d : V) :
  list_shape h L xs → h !! a = None →
  ∃ L',
    ds_list_push_front (Some a) (Some L) (Some d) h
      = (DS_OK, Some L', <[a := mk_lnode d (l_head L)]> h) ∧
    list_shape (<[a := mk_lnode d (l_head L)]> h) L' ((a, d) :: xs) ∧
    l_size L' = size_incr (l_size L).
Proof.
  intros [Hhead Htail Hrep Hnd] Hfresh.
  assert (a ∉ xs.*1) as Ha.
  { intros Hin. destruct (list_repr_dom h xs a Hrep Hin) as [n Hn]. congruence. }
  eexists. split; [done|]. split; [|done]. split; simpl.
  - done.
  - rewrite Htail. destruct xs as [|[b e] xs]; [done|].
    rewrite !fmap_cons, last_cons_cons.
    destruct (last ((b, e).1 :: xs.*1)) eqn:Hl; [done|]. by apply last_None in Hl.
  - split; [by rewrite lookup_insert_eq, Hhead|].
    apply list_repr_agree with h; [|done]. intros b Hb.
    apply lookup_insert_ne. intros ->. done.
  - by apply NoDup_cons.
Qed.

Lemma ds_list_push_back_size a L (d : V) h L' h' :
  ds_list_push_back (Some a) (Some L) (Some d) h = Some (DS_OK, Some L', h') →
  l_size L' = size_incr (l_size L).
Proof.
  unfold ds_list_push_back. destruct (l_tail L) as [t|]; [|by intros [= <- _]].
  destruct (<[a:=mk_lnode d None]> h !! t); simpl; [|done]. by intros [= <- _].
Qed.

Lemma destroy_all_cons {W : Type} (fd : option (V → W → W)) (d : V) vs (w : W) :
  destroy_all fd (d :: vs) w
    = destroy_all fd vs (match fd with Some f => f d w | None => w end).
Proof. by destruct fd. Qed.

(** The loop of [ds_list_free] over a represented chain. *)
Lemma list_free_loop_spec {W : Type} (fd : option (V → W → W)) : ∀ xs fuel h (w : W),
  list_repr h xs → NoDup xs.*1 → (length xs < fuel)%nat →
  ∃ h',
    list_free_loop fuel (lptr xs) fd h w = Some (h', destroy_all fd xs.*2 w) ∧
    (∀ a, h' !! a = if decide (a ∈ xs.*1) then None else h !! a).
Proof.
  induction xs as [|[c d] xs IH]; intros fuel h w Hrep Hnd Hf;
    (destruct fuel as [|fuel]; [simpl in Hf; lia|]).
  - exists h. split; [by destruct fd|]. intros a. rewrite decide_False; [done|].
    simpl. apply not_elem_of_nil.
  - destruct Hrep as [Hc Hrep]. rewrite fmap_cons in Hnd.
    apply NoDup_cons in Hnd as [Hcxs Hnd]. simpl in Hcxs.
    destruct (IH fuel (delete c h)
                (match fd with Some f => f d w | None => w end))
      as (h' & Hrun & Hh'); [|done|simpl in Hf; lia|].
    { apply list_repr_agree with h; [|done]. intros b Hb.
      apply lookup_delete_ne. intros ->. done. }
    exists h'. split.
    + simpl. rewrite Hc. simpl. rewrite Hrun. by rewrite destroy_all_cons.
    + intros a. rewrite Hh'.
      destruct (decide (a ∈ ((c, d) :: xs).*1)) as [Hin|Hnin];
        rewrite fmap_cons, elem_of_cons in *; simpl in *.
      * destruct Hin as [-> | Hin].
        -- rewrite lookup_delete_eq. by destruct (decide _).
        -- by rewrite decide_True.
      * rewrite decide_False by tauto.
        rewrite lookup_delete_ne; [done|]. intros ->. tauto.
Qed.

(** Either no node of the chain matches, or there is a first one. *)
Lemma first_match_cases cmp (data : V) : ∀ xs,
  (∀ y, y ∈ xs.*2 → cmp y data ≠ 0) ∨
  ∃ xs1 a x xs2, xs = xs1 ++ (a, x) :: xs2 ∧
    (∀ y, y ∈ xs1.*2 → cmp y data ≠ 0) ∧ cmp x data = 0.
Proof.
  induction xs as [|[a x] xs IH].
  - left. intros y Hy. by apply elem_of_nil in Hy.
  - destruct (decide (cmp x data = 0)) as [Hx|Hx].
    + right. exists [], a, x, xs. split; [done|]. split; [|done].
      intros y Hy. by apply elem_of_nil in Hy.
    + destruct IH as [Hnone|(xs1 & b & z & xs2 & -> & Hnone & Hz)].
      * left. intros y Hy. simpl in Hy. apply elem_of_cons in Hy as [->|Hy]; auto.
      * right. exists ((a, x) :: xs1), b, z, xs2. split; [done|]. split; [|done].
        intros y Hy. simpl in Hy. apply elem_of_cons in Hy as [->|Hy]; auto.
Qed.

Lemma ds_list_remove_absent cmp (data : V) h L xs :
  list_shape h L xs → (∀ y, y ∈ xs.*2 → cmp y data ≠ 0) →
  ds_list_remove (Some L) (Some data) (Some cmp) h
    = Some (DS_ERR_NOTFOUND, Some L, h).
Proof.
  intros [Hhead Htail Hrep Hnd] Hne. unfold ds_list_remove. rewrite Hhead.
  rewrite (list_remove_loop_absent cmp data L h xs); [done..|].
  pose proof (list_count_le_size h xs Hrep Hnd). lia.
Qed.

Lemma ds_list_remove_found cmp (data : V) h L xs1 a x xs2 :
  list_shape h L (xs1 ++ (a, x) :: xs2) →
  (∀ y, y ∈ xs1.*2 → cmp y data ≠ 0) → cmp x data = 0 →
  ∃ L' h',
    ds_list_remove (Some L) (Some data) (Some cmp) h = Some (DS_OK, Some L', h') ∧
    list_shape h' L' (xs1 ++ xs2) ∧
    l_size L' = size_decr (l_size L) ∧
    h' !! a = None ∧
    (∀ b, b ∉ (xs1 ++ (a, x) :: xs2).*1 → h' !! b = h !! b).
Proof.
  intros Hshape Hne Hx.
  pose proof Hshape as [Hhead Htail Hrep Hnd].
  pose proof (list_count_le_size h _ Hrep Hnd) as Hlen.
  rewrite length_app in Hlen. simpl in Hlen.
  destruct (list_remove_loop_found cmp data L h a x xs2 xs1 [] (S (size h)))
    as (L' & h' & Hrun & Hrest); [done..|lia|].
  exists L', h'. split; [|exact Hrest].
  unfold ds_list_remove. rewrite Hhead.
  change (last _) with (@None addr) in Hrun. by rewrite Hrun.
Qed.

(** The states reached by the operations of list.c are live lists whose
    cached count is the number of nodes. *)
Lemma list_run_live (L : option ds_list) h :
  list_run L h → ∃ L0 xs, L = Some L0 ∧ list_live h L0 xs.
Proof.
  induction 1 as [h|L h new data e L' h' Hrun IH Hfresh Hcall
                   |L h new data e L' h' Hrun IH Hfresh Hcall
                   |L h d L' h' Hrun IH Hcall
                   |L h data cmp e L' h' Hrun IH Hcall].
  - exists (mk_list None None 0), []. split; [done|]. split; [|done].
    split; simpl; [done|done|done|constructor].
  - destruct IH as (L0 & xs & -> & Hlive). pose proof Hlive as [Hshape Hsize].
    destruct data as [d|]; [|simpl in Hcall; simplify_eq; by eauto].
    destruct new as [a|]; [|simpl in Hcall; simplify_eq; by eauto].
    destruct (ds_list_push_front_shape h L0 xs a d Hshape (Hfresh a eq_refl))
      as (L1 & Hcall' & Hshape' & Hsize').
    rewrite Hcall in Hcall'. injection Hcall' as -> -> ->.
    exists L1, ((a, d) :: xs). split; [done|]. split; [done|].
    rewrite Hsize', Hsize. simpl. by rewrite <-cached_S.
  - destruct IH as (L0 & xs & -> & Hlive). pose proof Hlive as [Hshape Hsize].
    destruct data as [d|]; [|simpl in Hcall; simplify_eq; by eauto].
    destruct new as [a|]; [|simpl in Hcall; simplify_eq; by eauto].
    destruct (ds_list_push_back_shape h L0 xs a d Hshape (Hfresh a eq_refl))
      as (L1 & h1 & Hcall' & Hshape' & _).
    pose proof (ds_list_push_back_size _ _ _ _ _ _ Hcall') as Hsize'.
    rewrite Hcall in Hcall'. injection Hcall' as -> -> ->.
    exists L1, (xs ++ [(a, d)]). split; [done|]. split; [done|].
    rewrite Hsize', Hsize, length_app. simpl.
    rewrite Nat.add_1_r. by rewrite <-cached_S.
  - destruct IH as (L0 & xs & -> & Hlive). pose proof Hlive as [Hshape Hsize].
    destruct xs as [|[a x] xs].
    + rewrite (ds_list_pop_front_empty h L0 Hshape) in Hcall.
      injection Hcall as <- <- <-. by eauto.
    + destruct (ds_list_pop_front_shape h L0 a x xs Hshape)
        as (L1 & Hcall' & Hshape' & Hsize').
      rewrite Hcall in Hcall'. injection Hcall' as -> -> ->.
      exists L1, xs. split; [done|]. split; [done|].
      rewrite Hsize', Hsize. simpl. by rewrite <-cached_pred.
  - destruct IH as (L0 & xs & -> & Hlive). pose proof Hlive as [Hshape Hsize].
    destruct data as [d|]; [|simpl in Hcall; simplify_eq; by eauto].
    destruct cmp as [cmp|]; [|simpl in Hcall; simplify_eq; by eauto].
    destruct (first_match_cases cmp d xs)
      as [Hnone|(xs1 & a & x & xs2 & -> & Hnone & Hx)].
    + rewrite (ds_list_remove_absent cmp d h L0 xs Hshape Hnone) in Hcall.
      injection Hcall as <- <- <-. by eauto.
    + destruct (ds_list_remove_found cmp d h L0 xs1 a x xs2 Hshape Hnone Hx)
        as (L1 & h1 & Hcall' & Hshape' & Hsize' & _).
      rewrite Hcall in Hcall'. injection Hcall' as -> -> ->.
      exists L1, (xs1 ++ xs2). split; [done|]. split; [done|].
      rewrite Hsize', Hsize, !length_app. simpl.
      rewrite Nat.add_succ_r. by rewrite <-cached_pred.
Qed.

End proofs.
End ListExtraProofs.

(** ** What the list operations do to a live list *)
Module ListFacts.
Import DsList ListModel ListProofs ListExtra TreeExtraProofs ListExtraProofs.
Section generic.
Context {V : Type}.
Implicit Types (h : lheap V) (L : ds_list) (xs : list (addr * V)).

(** X10.  On a live list, [ds_list_find] returns the first payload, in list
    order, on which the comparator returns zero against the target, and
    [NULL] when there is none. *)
Theorem list_find_first_match cmp (target : V) h L xs :
  list_shape h L xs →
  ds_list_find (Some L) (Some target) (Some cmp) h
    = Some (first_match cmp target xs.*2).
Proof.
  intros [Hhead Htail Hrep Hnd]. unfold ds_list_find. rewrite Hhead.
  apply list_find_loop_spec; [done|].
  pose proof (list_count_le_size h xs Hrep Hnd). lia.
Qed.

(** X11.  On a live list, [ds_list_remove] unlinks the first node whose
    payload matches and no other: it returns [DS_OK], the nodes before
    and after keep their blocks, payloads and order, head and tail point
    to the first and last of them, the block of the node is released, the
    cached count is decremented and no block outside the list is written.
    When no payload matches it returns [DS_ERR_NOTFOUND] and changes
    nothing. *)
Theorem list_remove_first_match cmp (data : V) h L xs :
  list_shape h L xs →
  ((∀ y, y ∈ xs.*2 → cmp y data ≠ 0) →
   ds_list_remove (Some L) (Some data) (Some cmp) h
     = Some (DS_ERR_NOTFOUND, Some L, h)) ∧
  (∀ xs1 a x xs2,
     xs = xs1 ++ (a, x) :: xs2 →
     (∀ y, y ∈ xs1.*2 → cmp y data ≠ 0) → cmp x data = 0 →
     ∃ L' h',
       ds_list_remove (Some L) (Some data) (Some cmp) h
         = Some (DS_OK, Some L', h') ∧
       list_shape h' L' (xs1 ++ xs2) ∧
       l_size L' = size_decr (l_size L) ∧
       h' !! a = None ∧
       (∀ b, b ∉ xs.*1 → h' !! b = h !! b)).
Proof.
  intros Hshape. split.
  - by apply ds_list_remove_absent.
  - intros xs1 a x xs2 -> Hnone Hx. by apply ds_list_remove_found.
Qed.

(** X12.  [ds_list_push_front] with a fresh block on a live list returns
    [DS_OK] and makes the new node the first one; a [ds_list_pop_front]
    right after it returns the payload just pushed and leaves handle and
    heap exactly as they were before the push. *)
Theorem list_push_front_pop_front (d : V) h L xs a :
  list_shape h L xs → h !! a = None → 0 ≤ l_size L < 2 ^ SIZE_WIDTH →
  ∃ L1 h1,
    ds_list_push_front (Some a) (Some L) (Some d) h = (DS_OK, Some L1, h1) ∧
    list_shape h1 L1 ((a, d) :: xs) ∧
    ds_list_pop_front (Some L1) h1 = Some (Some d, Some L, h).
Proof.
  intros Hshape Hfresh Hsize.
  destruct (ds_list_push_front_shape h L xs a d Hshape Hfresh)
    as (L1 & Hpush & Hshape1 & Hsize1).
  destruct (ds_list_pop_front_shape _ L1 a d xs Hshape1)
    as (L2 & Hpop & Hshape2 & Hsize2).
  eexists L1, _. split; [exact Hpush|]. split; [done|]. rewrite Hpop.
  rewrite delete_insert_id by done.
  assert (L2 = L) as ->; [|done].
  destruct Hshape as [Hhead Htail _ _], Hshape2 as [Hhead2 Htail2 _ _].
  clear Hpush Hpop Hshape1.
  destruct L as [hd tl sz], L2 as [hd2 tl2 sz2]. simpl in *.
  rewrite Hhead2, Htail2, Hsize2, Hsize1, <-Hhead, <-Htail. f_equal.
  unfold size_decr, size_incr.
  rewrite Zminus_mod_idemp_l. replace (sz + 1 - 1) with sz by lia.
  by apply Z.mod_small.
Qed.

(** X13.  [ds_list_free] of a live list returns [DS_OK]; every block of
    the list is released and no other block changes; a destructor, if
    given, has been called exactly on the stored payloads, from the head
    to the tail. *)
Theorem list_free_releases_all {W : Type} (free_data : option (V → W → W))
    h L xs (w : W) :
  list_shape h L xs →
  ∃ h',
    ds_list_free (Some L) free_data h w
      = Some (DS_OK, h', destroy_all free_data xs.*2 w) ∧
    (∀ a, a ∈ xs.*1 → h' !! a = None) ∧
    (∀ a, a ∉ xs.*1 → h' !! a = h !! a).
Proof.
  intros [Hhead Htail Hrep Hnd].
  destruct (list_free_loop_spec free_data xs (S (size h)) h w Hrep Hnd)
    as (h' & Hrun & Hh').
  { pose proof (list_count_le_size h xs Hrep Hnd). lia. }
  exists h'. unfold ds_list_free. rewrite Hhead, Hrun. split; [done|].
  split; intros a Ha; rewrite Hh'.
  - by rewrite decide_True.
  - by rewrite decide_False.
Qed.

(** X14.  In every state reached from a created list by calls of
    [ds_list_push_front], [ds_list_push_back], [ds_list_pop_front] and
    [ds_list_remove], whatever their arguments and results, the cached
    size is the number of payloads that [ds_list_pop_front] returns until
    it returns [NULL]; head and tail are [NULL] exactly when there is
    none; and a further push with a fresh block, a removal and a lookup
    return. *)
Theorem list_run_invariant (L : option ds_list) h :
  list_run L h →
  ∃ L0 vs (L' : option ds_list) h',
    L = Some L0 ∧
    pop_all (S (length vs)) L h = Some (vs, L', h') ∧
    ds_list_size L = cached (length vs) ∧
    (l_head L0 = None ↔ vs = []) ∧ (l_tail L0 = None ↔ vs = []) ∧
    (∀ new data, (∀ a, new = Some a → h !! a = None) →
       ∃ e (L1 : option ds_list) h1,
         ds_list_push_back new L data h = Some (e, L1, h1)) ∧
    (∀ data cmp, ∃ e (L1 : option ds_list) h1,
       ds_list_remove L data cmp h = Some (e, L1, h1)) ∧
    (∀ target cmp, ∃ found, ds_list_find L target cmp h = Some found).
Proof.
  intros Hrun.
  destruct (list_run_live L h Hrun) as (L0 & xs & -> & Hshape & Hsize).
  destruct (pop_all_shape xs (S (length xs)) h L0 Hshape) as (L' & h' & Hpop & _);
    [lia|].
  exists L0, xs.*2, (Some L'), h'. rewrite length_fmap.
  pose proof Hshape as [Hhead Htail Hrep Hnd].
  split_and!; [done|done|done| | | | |].
  - rewrite Hhead. by destruct xs as [|[? ?] ?].
  - rewrite Htail. destruct xs as [|[b e] xs]; [done|]. split; [|done].
    intros Hl. by apply last_None in Hl.
  - intros new data Hfresh.
    destruct data as [d|]; [|simpl; eauto]. destruct new as [a|]; [|simpl; eauto].
    destruct (ds_list_push_back_shape h L0 xs a d Hshape (Hfresh a eq_refl))
      as (L1 & h1 & Hcall & _). eauto.
  - intros [d|] [cmp|]; [|simpl; eauto..].
    destruct (first_match_cases cmp d xs)
      as [Hnone|(xs1 & a & x & xs2 & -> & Hnone & Hx)].
    + rewrite (ds_list_remove_absent cmp d h L0 xs Hshape Hnone). eauto.
    + destruct (ds_list_remove_found cmp d h L0 xs1 a x xs2 Hshape Hnone Hx)
        as (L1 & h1 & Hcall & _). eauto.
  - intros [d|] [cmp|]; [|simpl; eauto..].
    unfold ds_list_find. rewrite Hhead.
    rewrite (list_find_loop_spec cmp d h xs (S (size h)) Hrep); [eauto|].
    pose proof (list_count_le_size h xs Hrep Hnd). lia.
Qed.

End generic.
End ListFacts.

(** ** Properties of the stack *)
Module StackExtraProofs.
Import DsList DsStack ListModel StackModel ListProofs StackExtra
  TreeExtraProofs ListExtraProofs.
Section proofs.
Context {V : Type}.
Implicit Types (h : sheap V) (xs ps : list (addr * V)).

(** A chain is determined by its first link. *)
Lemma list_repr_functional (lh : lheap V) : ∀ xs ys,
  list_repr lh xs → list_repr lh ys → lptr xs = lptr ys → xs = ys.
Proof.
  induction xs as [|[a d] xs IH]; intros [|[b e] ys] Hxs Hys Hp; try done.
  destruct Hxs as [Ha Hxs], Hys as [Hb Hys]. simpl in Hp. injection Hp as <-.
  rewrite Ha in Hb. injection Hb as <- Hp. f_equal. by apply IH.
Qed.

Lemma l2s_s2l_heap h : l2s_node <$> (s2l_node <$> h) = h.
Proof.
  apply map_eq. intros a. rewrite !lookup_fmap.
  by destruct (h !! a) as [[d p]|].
Qed.

Lemma s2l_lookup h a (d : V) p :
  (s2l_node <$> h) !! a = Some (mk_lnode d p) ↔ h !! a = Some (mk_snode d p).
Proof.
  rewrite lookup_fmap. destruct (h !! a) as [[d' p']|]; simpl; [|done].
  unfold s2l_node. simpl. split; intros [= -> ->]; done.
Qed.

Lemma stack_shape_repr h S0 xs :
  stack_shape h S0 xs → stack_repr h (s_top S0) xs.*2.
Proof.
  intros [Hhead _ Hrep _]. simpl in Hhead. rewrite Hhead. clear Hhead.
  induction xs as [|[a d] xs IH]; [done|].
  destruct Hrep as [Ha Hrep]. exists a, (lptr xs).
  split; [done|]. split; [by apply s2l_lookup|by apply IH].
Qed.

(** The nodes of a represented stack are pairwise distinct blocks. *)
Lemma stack_repr_shape h : ∀ vs S0,
  stack_repr h (s_top S0) vs → ∃ xs, xs.*2 = vs ∧ stack_shape h S0 xs.
Proof.
  assert (∀ vs p, stack_repr h p vs →
            ∃ xs, xs.*2 = vs ∧ lptr xs = p ∧
              list_repr (s2l_node <$> h) xs ∧ NoDup xs.*1) as Hchain.
  { induction vs as [|d vs IH]; intros p Hrep.
    - exists []. simpl in Hrep. split_and!; [done|done|done|constructor].
    - destruct Hrep as (a & nx & -> & Ha & Hrep).
      destruct (IH nx Hrep) as (xs & <- & <- & Hxs & Hnd).
      exists ((a, d) :: xs). split_and!; [done|done| |].
      + split; [by apply s2l_lookup|done].
      + rewrite fmap_cons. apply NoDup_cons. split; [|done]. simpl.
        intros Hin. apply list_elem_of_fmap in Hin as ([a' d'] & -> & Hin).
        apply list_elem_of_split in Hin as (ys1 & ys2 & ->). simpl in *.
        pose proof (list_repr_app_r _ _ _ Hxs) as Hys.
        destruct Hys as [Ha' Hys2]. apply s2l_lookup in Ha'.
        rewrite Ha in Ha'. injection Ha' as -> Hp.
        pose proof (list_repr_functional _ _ _ Hxs Hys2 Hp) as Heq.
        apply (f_equal length) in Heq. rewrite length_app in Heq.
        simpl in Heq. lia. }
  intros vs S0 Hrep. destruct (Hchain vs _ Hrep) as (xs & Hvs & Hp & Hxs & Hnd).
  exists xs. split; [done|]. by split.
Qed.

Lemma stack_push_shape h S0 xs a (d : V) :
  stack_shape h S0 xs → h !! a = None →
  ∃ S1,
    ds_stack_push (Some a) (Some S0) (Some d) h
      = (DS_OK, Some S1, <[a := mk_snode d (s_top S0)]> h) ∧
    stack_shape (<[a := mk_snode d (s_top S0)]> h) S1 ((a, d) :: xs) ∧
    s_size S1 = size_incr (s_size S0).
Proof.
  intros [Hhead _ Hrep Hnd] Hfresh. simpl in Hhead.
  assert (a ∉ xs.*1) as Ha.
  { intros Hin. destruct (list_repr_dom _ xs a Hrep Hin) as [n Hn].
    rewrite lookup_fmap, Hfresh in Hn. done. }
  eexists. split; [done|]. split; [|done]. split; simpl.
  - done.
  - done.
  - rewrite fmap_insert. split; [by rewrite lookup_insert_eq, Hhead|].
    apply list_repr_agree with (s2l_node <$> h); [|done]. intros b Hb.
    apply lookup_insert_ne. intros ->. done.
  - by apply NoDup_cons.
Qed.

Lemma stack_pop_shape h S0 a (d : V) xs :
  stack_shape h S0 ((a, d) :: xs) →
  ∃ S1,
    ds_stack_pop (Some S0) h = Some (Some d, Some S1, delete a h) ∧
    stack_shape (delete a h) S1 xs ∧
    s_size S1 = size_decr (s_size S0).
Proof.
  intros [Hhead _ [Ha Hrep] Hnd]. simpl in Hhead.
  apply NoDup_cons in Hnd as [Haxs Hnd]. apply s2l_lookup in Ha.
  unfold ds_stack_pop. rewrite Hhead. simpl. rewrite Ha. simpl.
  eexists. split; [done|]. split; [|done]. split; simpl.
  - done.
  - done.
  - rewrite fmap_delete. apply list_repr_agree with (s2l_node <$> h); [|done].
    intros b Hb. apply lookup_delete_ne. intros ->. done.
  - done.
Qed.

Lemma stack_pop_empty h S0 :
  stack_shape h S0 [] → ds_stack_pop (Some S0) h = Some (None, Some S0, h).
Proof. intros [Hhead _ _ _]. simpl in Hhead. unfold ds_stack_pop. by rewrite Hhead. Qed.

Lemma stack_push_all_cons a (d : V) ps (S0 : option ds_stack) h :
  stack_push_all ((a, d) :: ps) S0 h =
  let '(e, S0, h) := ds_stack_push (Some a) S0 (Some d) h in
  let '(es, S0, h) := stack_push_all ps S0 h in
  (e :: es, S0, h).
Proof. done. Qed.

Lemma stack_pop_all_S fuel (S0 : option ds_stack) h :
  stack_pop_all (S fuel) S0 h =
  '(d, S0, h) ← ds_stack_pop S0 h;
  match d with
  | None => Some ([], S0, h)
  | Some v => '(vs, S0, h) ← stack_pop_all fuel S0 h; Some (v :: vs, S0, h)
  end.
Proof. done. Qed.

Lemma stack_push_all_shape : ∀ ps h S0 xs,
  stack_shape h S0 xs → NoDup ps.*1 → (∀ a, a ∈ ps.*1 → h !! a = None) →
  ∃ S1 h1,
    stack_push_all ps (Some S0) h = (replicate (length ps) DS_OK, Some S1, h1) ∧
    stack_shape h1 S1 (reverse ps ++ xs).
Proof.
  induction ps as [|[a d] ps IH]; intros h S0 xs Hshape Hnd Hfresh.
  - by exists S0, h.
  - rewrite fmap_cons in Hnd. apply NoDup_cons in Hnd as [Haps Hnd]. simpl in Haps.
    destruct (stack_push_shape h S0 xs a d Hshape) as (S1 & Hrun & Hshape1 & _).
    { apply Hfresh. left. }
    destruct (IH _ S1 ((a, d) :: xs) Hshape1 Hnd) as (S2 & h2 & Hrun2 & Hshape2).
    { intros b Hb. rewrite lookup_insert_ne; [apply Hfresh; by right|].
      intros ->. done. }
    exists S2, h2. rewrite stack_push_all_cons, Hrun, Hrun2. split; [done|].
    by rewrite reverse_cons, <-app_assoc.
Qed.

Lemma stack_pop_all_shape : ∀ xs fuel h S0,
  stack_shape h S0 xs → (length xs < fuel)%nat →
  ∃ S1 h1,
    stack_pop_all fuel (Some S0) h = Some (xs.*2, Some S1, h1) ∧
    stack_shape h1 S1 [].
Proof.
  induction xs as [|[a d] xs IH]; intros fuel h S0 Hshape Hfuel;
    (destruct fuel as [|fuel]; [simpl in Hfuel; lia|]).
  - exists S0, h. rewrite stack_pop_all_S, (stack_pop_empty h S0 Hshape). done.
  - destruct (stack_pop_shape h S0 a d xs Hshape) as (S1 & Hrun & Hshape1 & _).
    destruct (IH fuel (delete a h) S1 Hshape1) as (S2 & h2 & Hrun2 & Hshape2).
    { simpl in Hfuel. lia. }
    exists S2, h2. rewrite stack_pop_all_S, Hrun. simpl. rewrite Hrun2. done.
Qed.

(** The operations of stack.c on a list state whose tail is forgotten. *)
Lemma stack_push_sim new (L : option ds_list) (d : option V) (lh : lheap V) :
  ds_stack_push new (l2s <$> L) d (l2s_node <$> lh)
    = (let '(e, L', lh') := ds_list_push_front new L d lh in
       (e, l2s <$> L', l2s_node <$> lh')).
Proof.
  destruct L as [L|], d as [d|], new as [a|]; simpl; try done.
  by rewrite fmap_insert.
Qed.

Lemma stack_pop_sim (L : option ds_list) (lh : lheap V) :
  ds_stack_pop (l2s <$> L) (l2s_node <$> lh)
    = match ds_list_pop_front L lh with
      | Some (d, L', lh') => Some (d, l2s <$> L', l2s_node <$> lh')
      | None => None
      end.
Proof.
  destruct L as [L|]; simpl; [|done]. unfold ds_list_pop_front.
  destruct (l_head L) as [a|]; simpl; [|done]. rewrite lookup_fmap.
  destruct (lh !! a) as [n|]; simpl; [|done]. by rewrite fmap_delete.
Qed.

Lemma stack_free_loop_sim {W : Type} (fd : option (V → W → W)) :
  ∀ fuel p (lh : lheap V) (w : W),
  stack_free_loop fuel p fd (l2s_node <$> lh) w
    = match list_free_loop fuel p fd lh w with
      | Some (lh', w') => Some (l2s_node <$> lh', w')
      | None => None
      end.
Proof.
  induction fuel as [|fuel IH]; intros p lh w; [done|].
  destruct p as [c|]; [|done]. simpl. rewrite lookup_fmap.
  destruct (lh !! c) as [n|]; simpl; [|done].
  rewrite <-fmap_delete. apply IH.
Qed.

Lemma stack_free_sim {W : Type} (fd : option (V → W → W))
    (L : option ds_list) (lh : lheap V) (w : W) :
  ds_stack_free (l2s <$> L) fd (l2s_node <$> lh) w
    = match ds_list_free L fd lh w with
      | Some (e, lh', w') => Some (e, l2s_node <$> lh', w')
      | None => None
      end.
Proof.
  destruct L as [L|]; [|done]. unfold ds_stack_free, ds_list_free.
  change (l2s <$> Some L) with (Some (l2s L)). cbv beta iota.
  change (s_top (l2s L)) with (l_head L).
  rewrite map_size_fmap, stack_free_loop_sim.
  by destruct (list_free_loop _ _ _ _ _) as [[lh' w']|].
Qed.

(** The states reached by pushes and pops are live stacks whose cached
    count is the number of nodes. *)
Lemma stack_run_live (S1 : option ds_stack) h :
  stack_run S1 h →
  ∃ S0 xs, S1 = Some S0 ∧ stack_shape h S0 xs ∧ s_size S0 = cached (length xs).
Proof.
  induction 1 as [h|S1 h new data e S' h' Hrun IH Hfresh Hcall
                   |S1 h d S' h' Hrun IH Hcall].
  - exists (mk_stack None 0), []. split; [done|]. split; [|done].
    split; simpl; [done|done|done|constructor].
  - destruct IH as (S0 & xs & -> & Hshape & Hsize).
    destruct data as [d|]; [|simpl in Hcall; simplify_eq; by eauto].
    destruct new as [a|]; [|simpl in Hcall; simplify_eq; by eauto].
    destruct (stack_push_shape h S0 xs a d Hshape (Hfresh a eq_refl))
      as (S2 & Hcall' & Hshape' & Hsize').
    rewrite Hcall in Hcall'. injection Hcall' as -> -> ->.
    exists S2, ((a, d) :: xs). split; [done|]. split; [done|].
    rewrite Hsize', Hsize. simpl. by rewrite <-cached_S.
  - destruct IH as (S0 & xs & -> & Hshape & Hsize).
    destruct xs as [|[a x] xs].
    + rewrite (stack_pop_empty h S0 Hshape) in Hcall.
      injection Hcall as <- <- <-. by eauto.
    + destruct (stack_pop_shape h S0 a x xs Hshape)
        as (S2 & Hcall' & Hshape' & Hsize').
      rewrite Hcall in Hcall'. injection Hcall' as -> -> ->.
      exists S2, xs. split; [done|]. split; [done|].
      rewrite Hsize', Hsize. simpl. by rewrite <-cached_pred.
Qed.

End proofs.
End StackExtraProofs.

(** ** What the stack operations do *)
Module StackFacts.
Import DsList DsStack ListModel StackModel ListProofs StackExtra
  TreeExtraProofs ListExtraProofs StackExtraProofs.
Section generic.
Context {V : Type}.
Implicit Types (h : sheap V) (ps : list (addr * V)) (vs : list V).

(** X15.  Last in, first out: on a stack that holds the payloads [vs], top
    first, [ds_stack_push] of the payloads of [ps], each with a fresh
    block, returns [DS_OK] every time; the stack then holds the pushed
    payloads in reverse order above [vs], and [ds_stack_pop], called
    until it returns [NULL], returns exactly these, newest first, and
    leaves the stack empty. *)
Theorem stack_lifo ps vs h S0 :
  stack_repr h (s_top S0) vs →
  NoDup ps.*1 → (∀ a, a ∈ ps.*1 → h !! a = None) →
  ∃ S1 h1 S2 h2,
    stack_push_all ps (Some S0) h = (replicate (length ps) DS_OK, Some S1, h1) ∧
    stack_repr h1 (s_top S1) (reverse ps.*2 ++ vs) ∧
    stack_pop_all (S (length ps + length vs)) (Some S1) h1
      = Some (reverse ps.*2 ++ vs, Some S2, h2) ∧
    ds_stack_is_empty (Some S2) = 1.
Proof.
  intros Hrep Hnd Hfresh.
  destruct (stack_repr_shape h vs S0 Hrep) as (xs & <- & Hshape).
  destruct (stack_push_all_shape ps h S0 xs Hshape Hnd Hfresh)
    as (S1 & h1 & Hpush & Hshape1).
  destruct (stack_pop_all_shape _ (S (length ps + length xs.*2)) h1 S1 Hshape1)
    as (S2 & h2 & Hpop & Hshape2).
  { rewrite length_app, length_reverse, length_fmap. lia. }
  rewrite fmap_app, fmap_reverse in Hpop.
  exists S1, h1, S2, h2. split_and!; [done| |done|].
  - rewrite <-fmap_reverse, <-fmap_app. by apply stack_shape_repr.
  - destruct Hshape2 as [Hhead _ _ _]. simpl in Hhead. simpl. by rewrite Hhead.
Qed.

(** X16.  [ds_stack_push] with a fresh block returns [DS_OK]; then
    [ds_stack_peek] returns the payload pushed, the stack is not empty and
    its size is one more; and a [ds_stack_pop] right after the push
    returns that payload and leaves handle and heap exactly as they were
    before the push. *)
Theorem stack_push_peek_pop (d : V) h S0 a :
  h !! a = None → 0 ≤ s_size S0 < 2 ^ SIZE_WIDTH →
  ∃ S1 h1,
    ds_stack_push (Some a) (Some S0) (Some d) h = (DS_OK, Some S1, h1) ∧
    ds_stack_peek (Some S1) h1 = Some (Some d) ∧
    ds_stack_is_empty (Some S1) = 0 ∧
    ds_stack_size (Some S1) = size_incr (s_size S0) ∧
    ds_stack_pop (Some S1) h1 = Some (Some d, Some S0, h).
Proof.
  intros Hfresh Hsize. eexists _, _. split; [done|]. simpl.
  unfold ds_stack_pop. simpl. rewrite lookup_insert_eq. simpl.
  split_and!; [done|done|done|].
  rewrite delete_insert_id by done.
  assert (size_decr (size_incr (s_size S0)) = s_size S0) as ->; [|by destruct S0].
  unfold size_decr, size_incr.
  rewrite Zminus_mod_idemp_l. replace (s_size S0 + 1 - 1) with (s_size S0) by lia.
  by apply Z.mod_small.
Qed.

(** X17.  [ds_stack_free] of a stack that holds the payloads [vs] returns
    [DS_OK]; it releases one block for each payload and changes no other
    block; a destructor, if given, has been called exactly on the stored
    payloads, from the top to the bottom. *)
Theorem stack_free_releases_all {W : Type} (free_data : option (V → W → W))
    h S0 vs (w : W) :
  stack_repr h (s_top S0) vs →
  ∃ h' blocks,
    ds_stack_free (Some S0) free_data h w
      = Some (DS_OK, h', destroy_all free_data vs w) ∧
    length blocks = length vs ∧ NoDup blocks ∧
    (∀ a, a ∈ blocks → is_Some (h !! a) ∧ h' !! a = None) ∧
    (∀ a, a ∉ blocks → h' !! a = h !! a).
Proof.
  intros Hrep.
  destruct (stack_repr_shape h vs S0 Hrep) as (xs & <- & Hshape).
  pose proof Hshape as [Hhead _ Hxs Hnd]. simpl in Hhead.
  destruct (list_free_loop_spec free_data xs (S (size h)) (s2l_node <$> h) w Hxs Hnd)
    as (lh' & Hrun & Hlh').
  { pose proof (list_count_le_size _ xs Hxs Hnd) as Hle.
    rewrite map_size_fmap in Hle. lia. }
  pose proof (stack_free_loop_sim free_data (S (size h)) (lptr xs)
                (s2l_node <$> h) w) as Hsim.
  rewrite l2s_s2l_heap, Hrun in Hsim.
  exists (l2s_node <$> lh'), xs.*1.
  unfold ds_stack_free. rewrite Hhead, Hsim. cbv beta iota. simpl mbind.
  split_and!; [done|by rewrite !length_fmap|done| |].
  - intros a Ha. split.
    + destruct (list_repr_dom _ xs a Hxs Ha) as [n Hn].
      rewrite lookup_fmap in Hn. by destruct (h !! a).
    + rewrite lookup_fmap, Hlh'. by rewrite decide_True.
  - intros a Ha. rewrite lookup_fmap, Hlh'. rewrite decide_False by done.
    by rewrite <-lookup_fmap, l2s_s2l_heap.
Qed.

(** X18.  In every state reached from a created stack by calls of
    [ds_stack_push] and [ds_stack_pop], whatever their arguments and
    results, the cached size is the number of payloads that
    [ds_stack_pop] returns until it returns [NULL]; [ds_stack_is_empty]
    returns 1 exactly when there is none; and [ds_stack_peek] returns the
    first of them. *)
Theorem stack_run_invariant (S1 : option ds_stack) h :
  stack_run S1 h →
  ∃ S0 vs (S' : option ds_stack) h',
    S1 = Some S0 ∧
    stack_pop_all (S (length vs)) S1 h = Some (vs, S', h') ∧
    ds_stack_size S1 = cached (length vs) ∧
    (ds_stack_is_empty S1 = 1 ↔ vs = []) ∧
    ds_stack_peek S1 h = Some (head vs).
Proof.
  intros Hrun.
  destruct (stack_run_live S1 h Hrun) as (S0 & xs & -> & Hshape & Hsize).
  destruct (stack_pop_all_shape xs (S (length xs)) h S0 Hshape)
    as (S' & h' & Hpop & _); [lia|].
  exists S0, xs.*2, (Some S'), h'. rewrite length_fmap.
  pose proof Hshape as [Hhead _ Hrep _]. simpl in Hhead.
  split_and!; [done|done|done| |].
  - simpl. rewrite Hhead. by destruct xs as [|[? ?] ?].
  - simpl. rewrite Hhead. destruct xs as [|[a d] xs]; [done|].
    destruct Hrep as [Ha _]. apply s2l_lookup in Ha. simpl. by rewrite Ha.
Qed.

(** X19.  stack.c is list.c used at the front: on a list state whose tail
    pointer is forgotten, [ds_stack_push], [ds_stack_pop], [ds_stack_free]
    and [ds_stack_size] return what [ds_list_push_front],
    [ds_list_pop_front], [ds_list_free] and [ds_list_size] return on the
    list state, the tail pointer of the result forgotten; and every stack
    state is such a list state. *)
Theorem stack_is_list_front {W : Type} :
  (∀ new (L : option ds_list) (d : option V) (lh : lheap V),
     ds_stack_push new (l2s <$> L) d (l2s_node <$> lh)
       = (let '(e, L', lh') := ds_list_push_front new L d lh in
          (e, l2s <$> L', l2s_node <$> lh'))) ∧
  (∀ (L : option ds_list) (lh : lheap V),
     ds_stack_pop (l2s <$> L) (l2s_node <$> lh)
       = match ds_list_pop_front L lh with
         | Some (d, L', lh') => Some (d, l2s <$> L', l2s_node <$> lh')
         | None => None
         end) ∧
  (∀ (fd : option (V → W → W)) (L : option ds_list) (lh : lheap V) (w : W),
     ds_stack_free (l2s <$> L) fd (l2s_node <$> lh) w
       = match ds_list_free L fd lh w with
         | Some (e, lh', w') => Some (e, l2s_node <$> lh', w')
         | None => None
         end) ∧
  (∀ (L : option ds_list), ds_stack_size (l2s <$> L) = ds_list_size L) ∧
  (∀ tail S0 h, l2s (s2l tail S0) = S0 ∧ l2s_node <$> (s2l_node <$> h) = h).
Proof.
  split_and!.
  - apply stack_push_sim.
  - apply stack_pop_sim.
  - apply stack_free_sim.
  - by intros [L|].
  - intros tail [top sz] h. split; [done|apply l2s_s2l_heap].
Qed.

End generic.
End StackFacts.

(** ** Properties of the queue *)
Module QueueExtraProofs.
Import DsList DsQueue ListModel ListProofs QueueExtra
  TreeExtraProofs ListExtraProofs.
Section proofs.
Context {V : Type}.
Implicit Types (h : qheap V) (Q : ds_queue) (xs ps : list (addr * V)).

Lemma q2l_lookup h a (d : V) p :
  (q2l_node <$> h) !! a = Some (mk_lnode d p) ↔ h !! a = Some (mk_qnode d p).
Proof.
  rewrite lookup_fmap. destruct (h !! a) as [[d' p']|]; simpl; [|done].
  unfold q2l_node. simpl. split; intros [= -> ->]; done.
Qed.

Lemma q2l_node_inj : Inj (=) (=) (@q2l_node V).
Proof. intros [d p] [d' p'] [= -> ->]. done. Qed.

(** The operations of queue.c, read on the list state. *)
Lemma queue_enqueue_sim new (Q : option ds_queue) (d : option V) h :
  match ds_queue_enqueue new Q d h with
  | Some (e, Q', h') => Some (e, q2l <$> Q', q2l_node <$> h')
  | None => None
  end = ds_list_push_back new (q2l <$> Q) d (q2l_node <$> h).
Proof.
  destruct Q as [Q|], d as [d|], new as [a|]; try done.
  unfold ds_queue_enqueue, ds_list_push_back.
  change (q2l <$> Some Q) with (Some (q2l Q)). cbv beta iota zeta.
  change (l_tail (q2l Q)) with (q_rear Q).
  destruct (q_rear Q) as [r|].
  - change (mk_lnode d None) with (q2l_node (mk_qnode d None)).
    rewrite <-fmap_insert, lookup_fmap.
    destruct (<[a:=mk_qnode d None]> h !! r) as [rn|]; simpl; [|done].
    by rewrite fmap_insert.
  - by rewrite fmap_insert.
Qed.

Lemma queue_dequeue_sim (Q : option ds_queue) h :
  match ds_queue_dequeue Q h with
  | Some (d, Q', h') => Some (d, q2l <$> Q', q2l_node <$> h')
  | None => None
  end = ds_list_pop_front (q2l <$> Q) (q2l_node <$> h).
Proof.
  destruct Q as [Q|]; [|done]. unfold ds_queue_dequeue, ds_list_pop_front.
  change (q2l <$> Some Q) with (Some (q2l Q)). cbv beta iota zeta.
  change (l_head (q2l Q)) with (q_front Q).
  destruct (q_front Q) as [a|]; [|done]. rewrite lookup_fmap.
  destruct (h !! a) as [n|]; simpl; [|done]. by rewrite fmap_delete.
Qed.

Lemma queue_free_loop_sim {W : Type} (fd : option (V → W → W)) :
  ∀ fuel p h (w : W),
  match queue_free_loop fuel p fd h w with
  | Some (h', w') => Some (q2l_node <$> h', w')
  | None => None
  end = list_free_loop fuel p fd (q2l_node <$> h) w.
Proof.
  induction fuel as [|fuel IH]; intros p h w; [done|].
  destruct p as [c|]; [|done]. simpl. rewrite lookup_fmap.
  destruct (h !! c) as [n|]; simpl; [|done].
  rewrite <-fmap_delete. apply IH.
Qed.

Lemma queue_free_sim {W : Type} (fd : option (V → W → W))
    (Q : option ds_queue) h (w : W) :
  match ds_queue_free Q fd h w with
  | Some (e, h', w') => Some (e, q2l_node <$> h', w')
  | None => None
  end = ds_list_free (q2l <$> Q) fd (q2l_node <$> h) w.
Proof.
  destruct Q as [Q|]; [|done]. unfold ds_queue_free, ds_list_free.
  change (q2l <$> Some Q) with (Some (q2l Q)). cbv beta iota.
  change (l_head (q2l Q)) with (q_front Q).
  rewrite map_size_fmap, <-queue_free_loop_sim.
  by destruct (queue_free_loop _ _ _ _ _) as [[h' w']|].
Qed.

Lemma queue_enqueue_shape h Q xs a (d : V) :
  queue_shape h Q xs → h !! a = None →
  ∃ Q' h',
    ds_queue_enqueue (Some a) (Some Q) (Some d) h = Some (DS_OK, Some Q', h') ∧
    queue_shape h' Q' (xs ++ [(a, d)]) ∧
    q_size Q' = size_incr (q_size Q) ∧
    (∀ b, h !! b = None → b ≠ a → h' !! b = None).
Proof.
  intros Hshape Hfresh.
  destruct (ds_list_push_back_shape (q2l_node <$> h) (q2l Q) xs a d Hshape)
    as (L' & lh' & Hcall & Hshape' & Hfr).
  { by rewrite lookup_fmap, Hfresh. }
  pose proof (ds_list_push_back_size _ _ _ _ _ _ Hcall) as Hsize.
  pose proof (queue_enqueue_sim (Some a) (Some Q) (Some d) h) as Hsim.
  change (q2l <$> Some Q) with (Some (q2l Q)) in Hsim. rewrite Hcall in Hsim.
  destruct (ds_queue_enqueue (Some a) (Some Q) (Some d) h)
    as [[[e [Q'|]] h']|]; try done.
  injection Hsim as -> <- <-. exists Q', h'.
  split_and!; [done|done|done|].
  intros b Hb Hne. specialize (Hfr b). rewrite !lookup_fmap, Hb in Hfr.
  specialize (Hfr eq_refl Hne). by destruct (h' !! b).
Qed.

Lemma queue_dequeue_shape h Q a (d : V) xs :
  queue_shape h Q ((a, d) :: xs) →
  ∃ Q',
    ds_queue_dequeue (Some Q) h = Some (Some d, Some Q', delete a h) ∧
    queue_shape (delete a h) Q' xs ∧
    q_size Q' = size_decr (q_size Q).
Proof.
  intros Hshape.
  destruct (ds_list_pop_front_shape (q2l_node <$> h) (q2l Q) a d xs Hshape)
    as (L' & Hcall & Hshape' & Hsize).
  pose proof (queue_dequeue_sim (Some Q) h) as Hsim.
  change (q2l <$> Some Q) with (Some (q2l Q)) in Hsim. rewrite Hcall in Hsim.
  destruct (ds_queue_dequeue (Some Q) h) as [[[d' [Q'|]] h']|]; try done.
  injection Hsim as -> <- Hh. rewrite <-fmap_delete in Hh.
  apply (map_fmap_inj q2l_node q2l_node_inj) in Hh as ->.
  exists Q'. split; [done|]. unfold queue_shape. by rewrite fmap_delete.
Qed.

Lemma queue_dequeue_empty h Q :
  queue_shape h Q [] → ds_queue_dequeue (Some Q) h = Some (None, Some Q, h).
Proof.
  intros [Hhead _ _ _]. simpl in Hhead. unfold ds_queue_dequeue. by rewrite Hhead.
Qed.

Lemma enqueue_all_cons a (d : V) ps (Q : option ds_queue) h :
  enqueue_all ((a, d) :: ps) Q h =
  '(e, Q, h) ← ds_queue_enqueue (Some a) Q (Some d) h;
  '(es, Q, h) ← enqueue_all ps Q h;
  Some (e :: es, Q, h).
Proof. done. Qed.

Lemma dequeue_all_S fuel (Q : option ds_queue) h :
  dequeue_all (S fuel) Q h =
  '(d, Q, h) ← ds_queue_dequeue Q h;
  match d with
  | None => Some ([], Q, h)
  | Some v => '(vs, Q, h) ← dequeue_all fuel Q h; Some (v :: vs, Q, h)
  end.
Proof. done. Qed.

Lemma enqueue_all_shape : ∀ ps h Q xs,
  queue_shape h Q xs → NoDup ps.*1 → (∀ a, a ∈ ps.*1 → h !! a = None) →
  ∃ Q' h',
    enqueue_all ps (Some Q) h = Some (replicate (length ps) DS_OK, Some Q', h') ∧
    queue_shape h' Q' (xs ++ ps).
Proof.
  induction ps as [|[a d] ps IH]; intros h Q xs Hshape Hnd Hfresh.
  - exists Q, h. split; [done|]. by rewrite app_nil_r.
  - rewrite fmap_cons in Hnd. apply NoDup_cons in Hnd as [Haps Hnd]. simpl in Haps.
    destruct (queue_enqueue_shape h Q xs a d Hshape)
      as (Q1 & h1 & Hrun & Hshape1 & _ & Hfr).
    { apply Hfresh. left. }
    destruct (IH h1 Q1 (xs ++ [(a, d)]) Hshape1 Hnd) as (Q2 & h2 & Hrun2 & Hshape2).
    { intros b Hb. apply Hfr; [apply Hfresh; by right|]. intros ->. done. }
    exists Q2, h2. rewrite enqueue_all_cons, Hrun. simpl. rewrite Hrun2.
    split; [done|]. by rewrite <-app_assoc in Hshape2.
Qed.

Lemma dequeue_all_shape : ∀ xs fuel h Q,
  queue_shape h Q xs → (length xs < fuel)%nat →
  ∃ Q' h',
    dequeue_all fuel (Some Q) h = Some (xs.*2, Some Q', h') ∧ queue_shape h' Q' [].
Proof.
  induction xs as [|[a d] xs IH]; intros fuel h Q Hshape Hfuel;
    (destruct fuel as [|fuel]; [simpl in Hfuel; lia|]).
  - exists Q, h. rewrite dequeue_all_S, (queue_dequeue_empty h Q Hshape). done.
  - destruct (queue_dequeue_shape h Q a d xs Hshape) as (Q1 & Hrun & Hshape1 & _).
    destruct (IH fuel (delete a h) Q1 Hshape1) as (Q2 & h2 & Hrun2 & Hshape2).
    { simpl in Hfuel. lia. }
    exists Q2, h2. rewrite dequeue_all_S, Hrun. simpl. rewrite Hrun2. done.
Qed.

(** Whatever the number of calls allowed, the dequeues that reach the
    [NULL] return the payloads of the queue. *)
Lemma dequeue_all_inv : ∀ xs fuel h Q vs (Q0 : option ds_queue) h0,
  queue_shape h Q xs → dequeue_all fuel (Some Q) h = Some (vs, Q0, h0) →
  vs = xs.*2.
Proof.
  induction xs as [|[a d] xs IH]; intros fuel h Q vs Q0 h0 Hshape Hdeq;
    (destruct fuel as [|fuel]; [done|]); rewrite dequeue_all_S in Hdeq.
  - rewrite (queue_dequeue_empty h Q Hshape) in Hdeq. by injection Hdeq as <- _ _.
  - destruct (queue_dequeue_shape h Q a d xs Hshape) as (Q1 & Hrun & Hshape1 & _).
    rewrite Hrun in Hdeq. simpl in Hdeq.
    destruct (dequeue_all fuel (Some Q1) (delete a h)) as [[[vs' Q'] h']|] eqn:Hrest;
      [|done].
    simpl in Hdeq. injection Hdeq as <- _ _.
    simpl. f_equal. by apply (IH fuel (delete a h) Q1 vs' Q' h').
Qed.

(** The states reached by enqueues and dequeues are live queues whose
    cached count is the number of nodes. *)
Lemma queue_run_live (Q1 : option ds_queue) h :
  queue_run Q1 h →
  ∃ Q xs, Q1 = Some Q ∧ queue_shape h Q xs ∧ q_size Q = cached (length xs).
Proof.
  induction 1 as [h|Q1 h new data e Q' h' Hrun IH Hfresh Hcall
                   |Q1 h d Q' h' Hrun IH Hcall].
  - exists (mk_queue None None 0), []. split; [done|]. split; [|done].
    split; simpl; [done|done|done|constructor].
  - destruct IH as (Q & xs & -> & Hshape & Hsize).
    destruct data as [d|]; [|simpl in Hcall; simplify_eq; by eauto].
    destruct new as [a|]; [|simpl in Hcall; simplify_eq; by eauto].
    destruct (queue_enqueue_shape h Q xs a d Hshape (Hfresh a eq_refl))
      as (Q2 & h2 & Hcall' & Hshape' & Hsize' & _).
    rewrite Hcall in Hcall'. injection Hcall' as -> -> ->.
    exists Q2, (xs ++ [(a, d)]). split; [done|]. split; [done|].
    rewrite Hsize', Hsize, length_app. simpl.
    rewrite Nat.add_1_r. by rewrite <-cached_S.
  - destruct IH as (Q & xs & -> & Hshape & Hsize).
    destruct xs as [|[a x] xs].
    + rewrite (queue_dequeue_empty h Q Hshape) in Hcall.
      injection Hcall as <- <- <-. by eauto.
    + destruct (queue_dequeue_shape h Q a x xs Hshape)
        as (Q2 & Hcall' & Hshape' & Hsize').
      rewrite Hcall in Hcall'. injection Hcall' as -> -> ->.
      exists Q2, xs. split; [done|]. split; [done|].
      rewrite Hsize', Hsize. simpl. by rewrite <-cached_pred.
Qed.

End proofs.
End QueueExtraProofs.

(** ** What the queue operations do *)
Module QueueFacts.
Import DsList DsStack DsQueue ListModel ListProofs QueueExtra
  TreeExtraProofs ListExtraProofs QueueExtraProofs.
Section generic.
Context {V : Type}.
Implicit Types (h : qheap V) (ps : list (addr * V)) (vs : list V).

(** X20.  First in, first out: in a state reached from a created queue
    by calls of [ds_queue_enqueue] and [ds_queue_dequeue], let [vs] be
    the payloads that [ds_queue_dequeue] returns until it returns [NULL].
    If instead the payloads of [ps] are enqueued first, each with a fresh
    block, every [ds_queue_enqueue] returns [DS_OK] and the dequeues then
    return [vs] followed by the payloads of [ps] in the order of the
    enqueues, and leave the queue empty. *)
Theorem queue_fifo (Q : option ds_queue) h fuel vs (Q0 : option ds_queue) h0 ps :
  queue_run Q h →
  dequeue_all fuel Q h = Some (vs, Q0, h0) →
  NoDup ps.*1 → (∀ a, a ∈ ps.*1 → h !! a = None) →
  ∃ (Q1 Q2 : option ds_queue) h1 h2,
    enqueue_all ps Q h = Some (replicate (length ps) DS_OK, Q1, h1) ∧
    dequeue_all (S (length vs + length ps)) Q1 h1
      = Some (vs ++ ps.*2, Q2, h2) ∧
    ds_queue_is_empty Q2 = 1.
Proof.
  intros Hrun Hdeq Hnd Hfresh.
  destruct (queue_run_live Q h Hrun) as (Q' & xs & -> & Hshape & _).
  rewrite (dequeue_all_inv xs fuel h Q' vs Q0 h0 Hshape Hdeq). rewrite length_fmap.
  destruct (enqueue_all_shape ps h Q' xs Hshape Hnd Hfresh)
    as (Q1 & h1 & Henq & Hshape1).
  destruct (dequeue_all_shape _ (S (length xs + length ps)) h1 Q1 Hshape1)
    as (Q2 & h2 & Hdeq2 & Hshape2).
  { rewrite length_app. lia. }
  exists (Some Q1), (Some Q2), h1, h2. rewrite fmap_app in Hdeq2.
  split_and!; [done|done|].
  destruct Hshape2 as [Hhead _ _ _]. simpl in Hhead. simpl. by rewrite Hhead.
Qed.

(** X21.  In every state reached from a created queue by calls of
    [ds_queue_enqueue] and [ds_queue_dequeue], whatever their arguments
    and results, the cached size is the number of payloads that
    [ds_queue_dequeue] returns until it returns [NULL];
    [ds_queue_is_empty] returns 1 exactly when there is none;
    [ds_queue_peek] returns the first of them; and front and rear are
    [NULL] together. *)
Theorem queue_run_invariant (Q : option ds_queue) h :
  queue_run Q h →
  ∃ Q' vs (Q0 : option ds_queue) h0,
    Q = Some Q' ∧
    dequeue_all (S (length vs)) Q h = Some (vs, Q0, h0) ∧
    ds_queue_size Q = cached (length vs) ∧
    (ds_queue_is_empty Q = 1 ↔ vs = []) ∧
    ds_queue_peek Q h = Some (head vs) ∧
    (q_front Q' = None ↔ q_rear Q' = None).
Proof.
  intros Hrun.
  destruct (queue_run_live Q h Hrun) as (Q' & xs & -> & Hshape & Hsize).
  destruct (dequeue_all_shape xs (S (length xs)) h Q' Hshape)
    as (Q0 & h0 & Hdeq & _); [lia|].
  exists Q', xs.*2, (Some Q0), h0. rewrite length_fmap.
  pose proof Hshape as [Hhead Htail Hrep _]. simpl in Hhead, Htail.
  split_and!; [done|done|done| | |].
  - simpl. rewrite Hhead. by destruct xs as [|[? ?] ?].
  - simpl. rewrite Hhead. destruct xs as [|[a d] xs]; [done|].
    destruct Hrep as [Ha _]. apply q2l_lookup in Ha. simpl. by rewrite Ha.
  - rewrite Hhead, Htail. destruct xs as [|[a d] xs]; [done|].
    split; [done|]. intros Hl. by apply last_None in Hl.
Qed.

(** X22.  [ds_queue_free] in a state reached from a created queue returns
    [DS_OK]; it releases one block for each payload that the dequeues
    would have returned and changes no other block; a destructor, if
    given, has been called exactly on these payloads, from the front to
    the rear. *)
Theorem queue_free_releases_all {W : Type} (free_data : option (V → W → W))
    (Q : option ds_queue) h (w : W) fuel vs (Q0 : option ds_queue) h0 :
  queue_run Q h →
  dequeue_all fuel Q h = Some (vs, Q0, h0) →
  ∃ h' blocks,
    ds_queue_free Q free_data h w
      = Some (DS_OK, h', destroy_all free_data vs w) ∧
    length blocks = length vs ∧ NoDup blocks ∧
    (∀ a, a ∈ blocks → is_Some (h !! a) ∧ h' !! a = None) ∧
    (∀ a, a ∉ blocks → h' !! a = h !! a).
Proof.
  intros Hrun Hdeq.
  destruct (queue_run_live Q h Hrun) as (Q' & xs & -> & Hshape & _).
  rewrite (dequeue_all_inv xs fuel h Q' vs Q0 h0 Hshape Hdeq).
  pose proof Hshape as [Hhead _ Hxs Hnd]. simpl in Hhead.
  destruct (list_free_loop_spec free_data xs (S (size h)) (q2l_node <$> h) w Hxs Hnd)
    as (lh' & Hloop & Hlh').
  { pose proof (list_count_le_size _ xs Hxs Hnd) as Hle.
    rewrite map_size_fmap in Hle. lia. }
  pose proof (queue_free_loop_sim free_data (S (size h)) (lptr xs) h w) as Hsim.
  rewrite Hloop in Hsim.
  destruct (queue_free_loop (S (size h)) (lptr xs) free_data h w)
    as [[h' w']|] eqn:Hfree; [|done].
  injection Hsim as <- ->.
  exists h', xs.*1. rewrite !length_fmap.
  unfold ds_queue_free. rewrite Hhead, Hfree.
  split_and!; [done|done|done| |].
  - intros a Ha. split.
    + destruct (list_repr_dom _ xs a Hxs Ha) as [n Hn].
      rewrite lookup_fmap in Hn. by destruct (h !! a).
    + specialize (Hlh' a). rewrite decide_True in Hlh' by done.
      rewrite lookup_fmap in Hlh'. by destruct (h' !! a).
  - intros a Ha. specialize (Hlh' a). rewrite decide_False in Hlh' by done.
    rewrite !lookup_fmap in Hlh'.
    destruct (h' !! a) as [n'|], (h !! a) as [n|]; try done.
    change (Some (q2l_node n') = Some (q2l_node n)) in Hlh'.
    f_equal. apply q2l_node_inj. by apply (inj Some).
Qed.

(** X23.  queue.c is list.c under another name: read as a list state,
    front for head and rear for tail, the results of [ds_queue_enqueue],
    [ds_queue_dequeue], [ds_queue_free] and [ds_queue_size] are the
    results of [ds_list_push_back], [ds_list_pop_front], [ds_list_free]
    and [ds_list_size] on the list state. *)
Theorem queue_is_list {W : Type} :
  (∀ new (Q : option ds_queue) (d : option V) h,
     match ds_queue_enqueue new Q d h with
     | Some (e, Q', h') => Some (e, q2l <$> Q', q2l_node <$> h')
     | None => None
     end = ds_list_push_back new (q2l <$> Q) d (q2l_node <$> h)) ∧
  (∀ (Q : option ds_queue) h,
     match ds_queue_dequeue Q h with
     | Some (d, Q', h') => Some (d, q2l <$> Q', q2l_node <$> h')
     | None => None
     end = ds_list_pop_front (q2l <$> Q) (q2l_node <$> h)) ∧
  (∀ (fd : option (V → W → W)) (Q : option ds_queue) h (w : W),
     match ds_queue_free Q fd h w with
     | Some (e, h', w') => Some (e, q2l_node <$> h', w')
     | None => None
     end = ds_list_free (q2l <$> Q) fd (q2l_node <$> h) w) ∧
  (∀ (Q : option ds_queue), ds_queue_size Q = ds_list_size (q2l <$> Q)) ∧
  (∀ (Q Q' : ds_queue) h h',
     q2l Q = q2l Q' → q2l_node <$> h = q2l_node <$> h' → Q = Q' ∧ h = h').
Proof.
  split_and!.
  - apply queue_enqueue_sim.
  - apply queue_dequeue_sim.
  - apply queue_free_sim.
  - by intros [Q|].
  - intros [f r s] [f' r' s'] h h' [= -> -> ->] Hh. split; [done|].
    by apply (map_fmap_inj q2l_node q2l_node_inj) in Hh.
Qed.

(** X24.  [ds_stack_peek] and [ds_queue_peek] return, without changing
    anything, exactly what [ds_stack_pop] and [ds_queue_dequeue] would
    return in the same state, [NULL] included. *)
Theorem peek_is_next_removed :
  (∀ (S0 : option DsStack.ds_stack) (h : sheap V),
     ds_stack_peek S0 h
       = match ds_stack_pop S0 h with
         | Some (d, _, _) => Some d
         | None => None
         end) ∧
  (∀ (Q : option ds_queue) (h : qheap V),
     ds_queue_peek Q h
       = match ds_queue_dequeue Q h with
         | Some (d, _, _) => Some d
         | None => None
         end).
Proof.
  split.
  - intros [S0|] h; [|done]. unfold ds_stack_peek, ds_stack_pop.
    destruct (s_top S0) as [t|]; [|done]. by destruct (h !! t).
  - intros [Q|] h; [|done]. unfold ds_queue_peek, ds_queue_dequeue.
    destruct (q_front Q) as [t|]; [|done]. by destruct (h !! t).
Qed.

End generic.
End QueueFacts.

(** ** The comparator of main.c *)
Module ComparatorFacts.
Import Scenario ScenarioProofs.

(** X25.  When every [int] the payloads point to lies in [-2^30, 2^30),
    so that no difference overflows, [cmp_int] orders the payloads as
    their [int]s are ordered and is a total comparator, as the tree
    requires. *)
Theorem cmp_int_total_in_range (mem : addr → Z) :
  (∀ p, - 2 ^ 30 ≤ mem p < 2 ^ 30) →
  total_cmp (cmp_int mem) ∧
  (∀ a b, (cmp_int mem a b < 0 ↔ mem a < mem b) ∧
          (cmp_int mem a b = 0 ↔ mem a = mem b) ∧
          (0 < cmp_int mem a b ↔ mem b < mem a)).
Proof.
  intros Hmem.
  assert (∀ a b, cmp_int mem a b = mem a - mem b) as Hsub.
  { intros a b. unfold cmp_int. apply wrap_int_small.
    pose proof (Hmem a). pose proof (Hmem b). lia. }
  split.
  - split; intros; rewrite ?Hsub in *.
    + destruct (mem a - mem b) eqn:H1, (mem b - mem a) eqn:H2; simpl; lia.
    + lia.
    + assert (mem a = mem b) as -> by lia. done.
  - intros a b. rewrite Hsub. lia.
Qed.

End ComparatorFacts.

(** ** The further properties at concrete states *)
Module MoreInstances.
Import DsTree DsList DsStack DsQueue TreeModel TreeProofs ListModel StackModel
  Scenario ScenarioProofs TreeExtra ListExtra StackExtra QueueExtra Examples
  TreeFacts ComparatorFacts ListFacts StackFacts QueueFacts.

Lemma shapeL2 : list_shape lh2 L2 xs2.
Proof.
  split; [done|done| |].
  - repeat split; vm_compute; reflexivity.
  - apply (bool_decide_unpack _). vm_compute. exact I.
Qed.

Lemma reprS2 : stack_repr sh2 (s_top S2) [1; 2]%positive.
Proof.
  exists 31%positive, (Some 32%positive). split; [done|]. split; [done|].
  exists 32%positive, None. split; [done|]. split; done.
Qed.

Lemma run_lst1 : list_run (Some lst1) lst1_heap.
Proof.
  apply (lrun_push_front (ds_list_create true) ∅ (Some 21%positive)
           (Some 1%positive) DS_OK).
  - apply lrun_created.
  - intros a _. apply lookup_empty.
  - vm_compute. reflexivity.
Qed.

Lemma run_stk1 : stack_run (Some stk1) stk1_heap.
Proof.
  apply (srun_push (ds_stack_create true) ∅ (Some 31%positive)
           (Some 1%positive) DS_OK).
  - apply srun_created.
  - intros a _. apply lookup_empty.
  - vm_compute. reflexivity.
Qed.

Lemma run_que1 : queue_run (Some que1) que1_heap.
Proof.
  apply (qrun_enqueue (ds_queue_create true) ∅ (Some 41%positive)
           (Some 1%positive) DS_OK).
  - apply qrun_created.
  - intros a _. apply lookup_empty.
  - vm_compute. reflexivity.
Qed.

Lemma run_T1 : tree_run cmp50 (Some T1) h1.
Proof.
  apply (trun_insert cmp50 (ds_tree_create true) ∅ (Some 11%positive)
           (Some 1%positive) (Some cmp50) DS_OK (Some T1) h1).
  - apply trun_created.
  - right. reflexivity.
  - intros a _. apply lookup_empty.
  - vm_compute. reflexivity.
Qed.

Lemma in_elems_t5 : 1%positive ∈ elems t5.
Proof. apply (bool_decide_unpack _). vm_compute. exact I. Qed.

Lemma absent_60_t5 : ∀ x, x ∈ elems t5 → cmp50 7%positive x ≠ 0.
Proof.
  intros x Hx. simpl in Hx.
  repeat (apply elem_of_cons in Hx as [->|Hx]; [vm_compute; discriminate|]).
  by apply elem_of_nil in Hx.
Qed.

(** X1 at the tree of 50, 30, 70, 20, 40: a key 50 finds the stored 50,
    a key 60 finds nothing. *)
Lemma tree_find_present_absent_witness :
  ds_tree_find (Some T5) (Some 6%positive) (Some cmp50) h5 = Some (Some 1%positive) ∧
  ds_tree_find (Some T5) (Some 7%positive) (Some cmp50) h5 = Some None.
Proof.
  split.
  - destruct (tree_find_present_absent cmp50 6%positive h5 T5 t5 shape5) as [Hp _].
    apply (Hp cmp50_total bst5 1%positive in_elems_t5). reflexivity.
  - destruct (tree_find_present_absent cmp50 7%positive h5 T5 t5 shape5) as [_ Ha].
    apply Ha, absent_60_t5.
Defined.

(** X2 at the same tree: inserting the key 60 with the fresh block 16. *)
Lemma tree_insert_new_key_witness :
  ∃ T' h' t',
    ds_tree_insert (Some 16%positive) (Some T5) (Some 7%positive) (Some cmp50) h5
      = Some (DS_OK, Some T', h') ∧
    tree_shape h' T' t' ∧ bst cmp50 t' ∧
    nodes t' ≡ₚ (16%positive, 7%positive) :: nodes t5 ∧
    (∀ b x, (b, x) ∈ nodes t' → n_data <$> h' !! b = Some x) ∧
    t_size T' = size_incr (t_size T5) ∧
    (∀ b, b ≠ 16%positive → b ∉ addrs t5 → h' !! b = h5 !! b).
Proof.
  apply (tree_insert_new_key cmp50 7%positive h5 T5 t5 16%positive shape5 bst5).
  - reflexivity.
  - apply absent_60_t5.
Defined.

(** X3 at the same tree: the key 60 is found after its insertion. *)
Lemma tree_insert_then_find_witness :
  ∃ T' h' y,
    ds_tree_insert (Some 16%positive) (Some T5) (Some 7%positive) (Some cmp50) h5
      = Some (DS_OK, Some T', h') ∧
    ds_tree_find (Some T') (Some 7%positive) (Some cmp50) h' = Some (Some y) ∧
    cmp50 7%positive y = 0 ∧
    ((∀ x, x ∈ elems t5 → cmp50 7%positive x ≠ 0) → y = 7%positive).
Proof.
  apply (tree_insert_then_find cmp50 7%positive h5 T5 t5 16%positive shape5).
  - reflexivity.
  - reflexivity.
Defined.

(** X4 at the same tree: removing the key 50. *)
Lemma tree_remove_found_witness :
  ∃ T' h' t' gone xs1 x' xs2,
    ds_tree_remove (Some T5) (Some 6%positive) (Some cmp50) h5
      = Some (DS_OK, Some T', h') ∧
    tree_shape h' T' t' ∧ bst cmp50 t' ∧
    elems t5 = xs1 ++ x' :: xs2 ∧ cmp50 6%positive x' = 0 ∧
    elems t' = xs1 ++ xs2 ∧
    addrs t5 ≡ₚ gone :: addrs t' ∧ h' !! gone = None ∧
    t_size T' = size_decr (t_size T5) ∧
    (∀ b, b ∉ addrs t5 → h' !! b = h5 !! b).
Proof.
  apply (tree_remove_found cmp50 6%positive h5 T5 t5 1%positive
           cmp50_total shape5 bst5 in_elems_t5).
  reflexivity.
Defined.

(** X5 at the same tree: removing the leaf 70 in the block 13. *)
Lemma tree_remove_single_child_witness :
  ∃ T' h' t' ys1 ys2,
    ds_tree_remove (Some T5) (Some 3%positive) (Some cmp50) h5
      = Some (DS_OK, Some T', h') ∧
    tree_shape h' T' t' ∧
    nodes t5 = ys1 ++ (13%positive, 3%positive) :: ys2 ∧
    nodes t' = ys1 ++ ys2 ∧
    h' !! 13%positive = None ∧
    (∀ b y, (b, y) ∈ ys1 ++ ys2 → n_data <$> h' !! b = Some y).
Proof.
  apply (tree_remove_single_child cmp50 3%positive h5 T5 t5
           Leaf 13%positive 3%positive Leaf cmp50_total shape5 bst5).
  - right. right. left. reflexivity.
  - reflexivity.
  - left. reflexivity.
Defined.

(** X6 at the same tree: after removing the key 50. *)
Lemma tree_remove_then_find_witness :
  ∃ e T' h',
    ds_tree_remove (Some T5) (Some 6%positive) (Some cmp50) h5
      = Some (e, Some T', h') ∧
    ds_tree_find (Some T') (Some 6%positive) (Some cmp50) h' = Some None ∧
    (∀ y, y ∈ elems t5 → cmp50 6%positive y ≠ 0 →
       ds_tree_find (Some T') (Some y) (Some cmp50) h' = Some (Some y)).
Proof.
  apply (tree_remove_then_find cmp50 6%positive h5 T5 t5 cmp50_total shape5 bst5).
Defined.

(** X7 at the same tree, with a destructor that records its calls: the
    payloads are destroyed in the order 20, 40, 30, 70, 50. *)
Lemma tree_free_releases_all_witness :
  ∃ h',
    ds_tree_free (Some T5) (Some (λ x w, w ++ [x])) h5 []
      = Some (DS_OK, h', [4; 5; 2; 3; 1]%positive) ∧
    (∀ a, a ∈ addrs t5 → h' !! a = None) ∧
    (∀ a, a ∉ addrs t5 → h' !! a = h5 !! a).
Proof.
  apply (tree_free_releases_all (Some (λ x w, w ++ [x])) h5 T5 t5 [] shape5).
Defined.

(** X8 at the state reached by one insertion of 50 into an empty tree. *)
Lemma tree_run_invariant_witness :
  ∃ T0 xs,
    Some T1 = Some T0 ∧
    count_nodes (S (size h1)) h1 (t_root T0) = Some (ds_tree_size (Some T1)) ∧
    inorder (S (size h1)) h1 (t_root T0) = Some xs ∧ ascending cmp50 xs ∧
    ds_tree_size (Some T1) = cached (length xs) ∧
    (∀ new data, (∀ a, new = Some a → h1 !! a = None) →
       ∃ e (T' : option ds_tree) h',
         ds_tree_insert new (Some T1) data (Some cmp50) h1 = Some (e, T', h')) ∧
    (∀ target, ∃ e (T' : option ds_tree) h',
       ds_tree_remove (Some T1) target (Some cmp50) h1 = Some (e, T', h')) ∧
    (∀ target, ∃ found,
       ds_tree_find (Some T1) target (Some cmp50) h1 = Some found).
Proof.
  apply (tree_run_invariant cmp50 (Some T1) h1 cmp50_total).
  exact run_T1.
Defined.

(** X9 at the tree of 50, 30, 70, 20, 40: the minimum 20 is in the
    block 14. *)
Lemma find_min_first_inorder_witness :
  find_min (S (size h5)) h5 (t_root T5) = Some (Some 14%positive) ∧
  (∀ a x, head (nodes t5) = Some (a, x) →
     n_data <$> h5 !! a = Some x ∧ ∀ y, y ∈ elems t5 → cmp50 x y ≤ 0).
Proof.
  apply (find_min_first_inorder cmp50 h5 T5 t5 cmp50_total shape5 bst5).
Defined.

(** X10 at the list of 50 and 30: a key 30 finds the second payload. *)
Lemma list_find_first_match_witness :
  ds_list_find (Some L2) (Some 2%positive) (Some cmp50) lh2
    = Some (Some 2%positive).
Proof.
  apply (list_find_first_match cmp50 2%positive lh2 L2 xs2 shapeL2).
Defined.

(** X11 at the same list: removing 30 unlinks the block 22, removing 70
    finds nothing. *)
Lemma list_remove_first_match_witness :
  ds_list_remove (Some L2) (Some 3%positive) (Some cmp50) lh2
    = Some (DS_ERR_NOTFOUND, Some L2, lh2) ∧
  ∃ L' h',
    ds_list_remove (Some L2) (Some 2%positive) (Some cmp50) lh2
      = Some (DS_OK, Some L', h') ∧
    list_shape h' L' [(21, 1)]%positive ∧
    l_size L' = size_decr (l_size L2) ∧
    h' !! 22%positive = None ∧
    (∀ b, b ∉ xs2.*1 → h' !! b = lh2 !! b).
Proof.
  split.
  - destruct (list_remove_first_match cmp50 3%positive lh2 L2 xs2 shapeL2)
      as [Habs _].
    apply Habs. intros y Hy. simpl in Hy.
    repeat (apply elem_of_cons in Hy as [->|Hy]; [vm_compute; discriminate|]).
    by apply elem_of_nil in Hy.
  - destruct (list_remove_first_match cmp50 2%positive lh2 L2 xs2 shapeL2)
      as [_ Hfound].
    apply (Hfound [(21, 1)]%positive 22%positive 2%positive []).
    + reflexivity.
    + intros y Hy. simpl in Hy.
      repeat (apply elem_of_cons in Hy as [->|Hy]; [vm_compute; discriminate|]).
      by apply elem_of_nil in Hy.
    + reflexivity.
Defined.

(** X12 at the same list: pushing 70 in front with the block 23. *)
Lemma list_push_front_pop_front_witness :
  ∃ L1 h1,
    ds_list_push_front (Some 23%positive) (Some L2) (Some 3%positive) lh2
      = (DS_OK, Some L1, h1) ∧
    list_shape h1 L1 ((23%positive, 3%positive) :: xs2) ∧
    ds_list_pop_front (Some L1) h1 = Some (Some 3%positive, Some L2, lh2).
Proof.
  apply (list_push_front_pop_front 3%positive lh2 L2 xs2 23%positive shapeL2).
  - reflexivity.
  - vm_compute. split; [discriminate|reflexivity].
Defined.

(** X13 at the same list, with a destructor that records its calls. *)
Lemma list_free_releases_all_witness :
  ∃ h',
    ds_list_free (Some L2) (Some (λ x w, w ++ [x])) lh2 []
      = Some (DS_OK, h', [1; 2]%positive) ∧
    (∀ a, a ∈ xs2.*1 → h' !! a = None) ∧
    (∀ a, a ∉ xs2.*1 → h' !! a = lh2 !! a).
Proof.
  apply (list_free_releases_all (Some (λ x w, w ++ [x])) lh2 L2 xs2 [] shapeL2).
Defined.

(** X14 at the state reached by one [ds_list_push_front] of 50 on a
    created list. *)
Lemma list_run_invariant_witness :
  ∃ L0 vs (L' : option ds_list) h',
    Some lst1 = Some L0 ∧
    pop_all (S (length vs)) (Some lst1) lst1_heap
      = Some (vs, L', h') ∧
    ds_list_size (Some lst1)
      = cached (length vs) ∧
    (l_head L0 = None ↔ vs = []) ∧ (l_tail L0 = None ↔ vs = []).
Proof.
  destruct (list_run_invariant (Some lst1) lst1_heap)
    as (L0 & vs & L' & h' & HL & Hpop & Hsize & Hhead & Htail & _).
  - exact run_lst1.
  - exists L0, vs, L', h'. split_and!; assumption.
Defined.

(** X15 at the stack of 50 over 30: pushing 70 and 20. *)
Lemma stack_lifo_witness :
  ∃ S1 h1 S2' h2,
    stack_push_all [(33, 3); (34, 4)]%positive (Some S2) sh2
      = ([DS_OK; DS_OK], Some S1, h1) ∧
    stack_repr h1 (s_top S1) [4; 3; 1; 2]%positive ∧
    stack_pop_all 5 (Some S1) h1 = Some ([4; 3; 1; 2]%positive, Some S2', h2) ∧
    ds_stack_is_empty (Some S2') = 1.
Proof.
  apply (stack_lifo [(33, 3); (34, 4)]%positive [1; 2]%positive sh2 S2 reprS2).
  - apply (bool_decide_unpack _). vm_compute. exact I.
  - intros a Ha. simpl in Ha.
    repeat (apply elem_of_cons in Ha as [->|Ha]; [vm_compute; reflexivity|]).
    by apply elem_of_nil in Ha.
Defined.

(** X16 at the same stack: pushing 70 with the block 33. *)
Lemma stack_push_peek_pop_witness :
  ∃ S1 h1,
    ds_stack_push (Some 33%positive) (Some S2) (Some 3%positive) sh2
      = (DS_OK, Some S1, h1) ∧
    ds_stack_peek (Some S1) h1 = Some (Some 3%positive) ∧
    ds_stack_is_empty (Some S1) = 0 ∧
    ds_stack_size (Some S1) = size_incr (s_size S2) ∧
    ds_stack_pop (Some S1) h1 = Some (Some 3%positive, Some S2, sh2).
Proof.
  apply (stack_push_peek_pop 3%positive sh2 S2 33%positive).
  - reflexivity.
  - vm_compute. split; [discriminate|reflexivity].
Defined.

(** X17 at the same stack, with a destructor that records its calls. *)
Lemma stack_free_releases_all_witness :
  ∃ h' blocks,
    ds_stack_free (Some S2) (Some (λ x w, w ++ [x])) sh2 []
      = Some (DS_OK, h', [1; 2]%positive) ∧
    length blocks = 2%nat ∧ NoDup blocks ∧
    (∀ a, a ∈ blocks → is_Some (sh2 !! a) ∧ h' !! a = None) ∧
    (∀ a, a ∉ blocks → h' !! a = sh2 !! a).
Proof.
  apply (stack_free_releases_all (Some (λ x w, w ++ [x])) sh2 S2
           [1; 2]%positive [] reprS2).
Defined.

(** X18 at the state reached by one push of 50 on a created stack. *)
Lemma stack_run_invariant_witness :
  ∃ S0 vs (S' : option ds_stack) h',
    Some stk1 = Some S0 ∧
    stack_pop_all (S (length vs)) (Some stk1) stk1_heap
      = Some (vs, S', h') ∧
    ds_stack_size (Some stk1) = cached (length vs) ∧
    (ds_stack_is_empty (Some stk1) = 1 ↔ vs = []) ∧
    ds_stack_peek (Some stk1) stk1_heap
      = Some (head vs).
Proof.
  apply (stack_run_invariant (Some stk1) stk1_heap).
  exact run_stk1.
Defined.

(** X20 at the state reached by one enqueue of 50 on a created queue:
    enqueuing 30 and 70 after it. *)
Lemma queue_fifo_witness :
  ∃ (Q1 Q2 : option ds_queue) h1 h2,
    enqueue_all [(42, 2); (43, 3)]%positive (Some que1) que1_heap
      = Some ([DS_OK; DS_OK], Q1, h1) ∧
    dequeue_all 4 Q1 h1 = Some ([1; 2; 3]%positive, Q2, h2) ∧
    ds_queue_is_empty Q2 = 1.
Proof.
  apply (queue_fifo (Some que1) que1_heap 2 [1%positive]
           (Some (mk_queue None None 0)) ∅ [(42, 2); (43, 3)]%positive run_que1).
  - vm_compute. reflexivity.
  - apply (bool_decide_unpack _). vm_compute. exact I.
  - intros a Ha. simpl in Ha.
    repeat (apply elem_of_cons in Ha as [->|Ha]; [vm_compute; reflexivity|]).
    by apply elem_of_nil in Ha.
Defined.

(** X21 at the same state. *)
Lemma queue_run_invariant_witness :
  ∃ Q' vs (Q0 : option ds_queue) h0,
    Some que1 = Some Q' ∧
    dequeue_all (S (length vs)) (Some que1) que1_heap
      = Some (vs, Q0, h0) ∧
    ds_queue_size (Some que1)
      = cached (length vs) ∧
    (ds_queue_is_empty (Some que1) = 1
       ↔ vs = []) ∧
    ds_queue_peek (Some que1) que1_heap
      = Some (head vs) ∧
    (q_front Q' = None ↔ q_rear Q' = None).
Proof.
  apply (queue_run_invariant (Some que1) que1_heap).
  exact run_que1.
Defined.

(** X22 at the same state, with a destructor that records its calls. *)
Lemma queue_free_releases_all_witness :
  ∃ h' blocks,
    ds_queue_free (Some que1) (Some (λ x w, w ++ [x])) que1_heap []
      = Some (DS_OK, h', [1%positive]) ∧
    length blocks = 1%nat ∧ NoDup blocks ∧
    (∀ a, a ∈ blocks → is_Some (que1_heap !! a) ∧ h' !! a = None) ∧
    (∀ a, a ∉ blocks → h' !! a = que1_heap !! a).
Proof.
  apply (queue_free_releases_all (Some (λ x w, w ++ [x])) (Some que1) que1_heap []
           2 [1%positive] (Some (mk_queue None None 0)) ∅ run_que1).
  vm_compute. reflexivity.
Defined.

(** X25 at the [int]s of the tree scenario. *)
Lemma cmp_int_total_in_range_witness :
  total_cmp (cmp_int int_at) ∧
  (∀ a b, (cmp_int int_at a b < 0 ↔ int_at a < int_at b) ∧
          (cmp_int int_at a b = 0 ↔ int_at a = int_at b) ∧
          (0 < cmp_int int_at a b ↔ int_at b < int_at a)).
Proof.
  apply (cmp_int_total_in_range int_at).
  intros p. pose proof (int_at_bound p). lia.
Defined.

End MoreInstances.
